(** * Labyrinth Explorer System: a shallow embedding and its properties

    The development follows the three Python modules of the repository:

    - [betterbst.py]: [BetterBST], a search tree bulk-built from a sorted list;
    - [hollows.py]: [SpookyHollow] (tree-backed store) and [MysticalHollow]
      (heap-backed store) with their [get_optimal_treasure];
    - [maze.py]: [Maze.find_way_out] (depth-first search) and
      [Maze.take_treasures] (greedy harvest along a path).

    Python exceptions are values of [result]; mutable objects are threaded as
    explicit state.  Ratios ([value / weight], a Python float) are modelled
    as exact rationals. *)

From Stdlib Require Import String Bool Arith ZArith QArith Lia.
From Stdlib Require Import List Permutation Sorted.
Import ListNotations.

#[local] Close Scope Q_scope.
#[local] Close Scope Z_scope.
#[local] Open Scope nat_scope.
#[local] Open Scope list_scope.

Set Implicit Arguments.

(* ================================================================= *)
(** ** Exceptions as results *)

(** [OutOfFuel] is not a Python exception: it marks a recursive model that
    was given too little fuel.  The entry points choose the fuel themselves
    and are proved never to produce it.  Where the depth of a recursion is
    what the interpreter bounds, running out of it is [RecursionError]. *)
Inductive exn : Type :=
  ValueError | IndexError | AttributeError | OutOfFuel | RecursionError.

Inductive result (A : Type) : Type :=
| Ok (a : A)
| Raise (e : exn).

Arguments Ok {A} a.
Arguments Raise {A} e.

Definition bind {A B : Type} (r : result A) (k : A -> result B) : result B :=
  match r with
  | Ok a => k a
  | Raise e => Raise e
  end.

Notation "x <- r ;; k" := (bind r (fun x => k))
  (at level 61, r at next level, right associativity).

(* ================================================================= *)
(** ** Comparable values

    Python's [<], [>], [<=] on keys and on treasures.  [cmp] need not be
    antisymmetric for Leibniz equality: two different objects may compare
    equal (two treasures of the same ratio). *)

Class Ord (A : Type) : Type := {
  cmp : A -> A -> comparison;
  cmp_antisym : forall x y, cmp y x = CompOpp (cmp x y);
  cmp_lt_trans : forall x y z, cmp x y = Lt -> cmp y z = Lt -> cmp x z = Lt;
  cmp_eq_compat : forall x y z, cmp x y = Eq -> cmp x z = cmp y z
}.

Definition py_lt {A} `{Ord A} (x y : A) : bool :=
  match cmp x y with Lt => true | _ => false end.
Definition py_gt {A} `{Ord A} (x y : A) : bool :=
  match cmp x y with Gt => true | _ => false end.
Definition py_le {A} `{Ord A} (x y : A) : bool :=
  match cmp x y with Gt => false | _ => true end.

Section OrdFacts.
Context {A : Type} `{Ord A}.

Lemma cmp_refl (x : A) : cmp x x = Eq.
Proof.
  pose proof (cmp_antisym x x) as E.
  destruct (cmp x x); simpl in E; congruence.
Qed.

Lemma cmp_eq_sym (x y : A) : cmp x y = Eq -> cmp y x = Eq.
Proof. intros E. rewrite cmp_antisym, E. reflexivity. Qed.

Lemma cmp_eq_compat_r (x y z : A) : cmp x y = Eq -> cmp z x = cmp z y.
Proof.
  intros E. rewrite (cmp_antisym x z), (cmp_antisym y z).
  f_equal. now apply cmp_eq_compat.
Qed.

Lemma cmp_eq_trans (x y z : A) : cmp x y = Eq -> cmp y z = Eq -> cmp x z = Eq.
Proof. intros E1 E2. now rewrite (cmp_eq_compat _ _ z E1). Qed.

Lemma cmp_gt_lt (x y : A) : cmp x y = Gt <-> cmp y x = Lt.
Proof.
  rewrite (cmp_antisym x y). destruct (cmp x y); simpl; split; congruence.
Qed.

Lemma cmp_gt_trans (x y z : A) : cmp x y = Gt -> cmp y z = Gt -> cmp x z = Gt.
Proof.
  rewrite !cmp_gt_lt. intros; eapply cmp_lt_trans; eauto.
Qed.

(** [x <= y] as a proposition: [not (x > y)]. *)
Definition ole (x y : A) : Prop := cmp x y <> Gt.
Definition olt (x y : A) : Prop := cmp x y = Lt.

Lemma py_le_iff (x y : A) : py_le x y = true <-> ole x y.
Proof. unfold py_le, ole. destruct (cmp x y); split; congruence. Qed.

Lemma py_gt_iff (x y : A) : py_gt x y = true <-> olt y x.
Proof. unfold py_gt, olt. rewrite <- cmp_gt_lt. destruct (cmp x y); split; congruence. Qed.

Lemma py_lt_iff (x y : A) : py_lt x y = true <-> olt x y.
Proof. unfold py_lt, olt. destruct (cmp x y); split; congruence. Qed.

Lemma ole_refl (x : A) : ole x x.
Proof. unfold ole. rewrite cmp_refl. discriminate. Qed.

Lemma olt_ole (x y : A) : olt x y -> ole x y.
Proof. unfold olt, ole. congruence. Qed.

Lemma olt_irrefl (x : A) : ~ olt x x.
Proof. unfold olt. rewrite cmp_refl. discriminate. Qed.

Lemma ole_olt_trans (x y z : A) : ole x y -> olt y z -> olt x z.
Proof.
  unfold ole, olt. intros L1 L2.
  destruct (cmp x y) eqn:E; try congruence.
  - now rewrite (cmp_eq_compat _ _ z E).
  - eapply cmp_lt_trans; eauto.
Qed.

Lemma olt_ole_trans (x y z : A) : olt x y -> ole y z -> olt x z.
Proof.
  unfold ole, olt. intros L1 L2.
  destruct (cmp y z) eqn:E; try congruence.
  - now rewrite <- (cmp_eq_compat_r _ _ x E).
  - eapply cmp_lt_trans; eauto.
Qed.

Lemma ole_trans (x y z : A) : ole x y -> ole y z -> ole x z.
Proof.
  intros L1 L2. destruct (cmp y z) eqn:E.
  - unfold ole in *. now rewrite <- (cmp_eq_compat_r _ _ x E).
  - apply olt_ole. eapply ole_olt_trans; eauto.
  - now elim L2.
Qed.

Lemma olt_trans (x y z : A) : olt x y -> olt y z -> olt x z.
Proof. apply cmp_lt_trans. Qed.

Lemma ole_total (x y : A) : ole x y \/ ole y x.
Proof.
  unfold ole. rewrite (cmp_antisym x y).
  destruct (cmp x y); simpl; (left; congruence) || (right; congruence).
Qed.

Lemma not_ole_olt (x y : A) : ~ ole x y <-> olt y x.
Proof.
  unfold ole, olt. rewrite (cmp_antisym x y).
  destruct (cmp x y); simpl; split; try congruence; intros N; elim N; congruence.
Qed.

Lemma ole_not_olt (x y : A) : ole x y <-> ~ olt y x.
Proof.
  unfold ole, olt. rewrite (cmp_antisym x y).
  destruct (cmp x y); simpl; split; congruence.
Qed.

Lemma ole_antisym_eq (x y : A) : ole x y -> ole y x -> cmp x y = Eq.
Proof.
  unfold ole. rewrite (cmp_antisym x y).
  destruct (cmp x y); simpl; congruence.
Qed.

Lemma eq_ole (x y : A) : cmp x y = Eq -> ole x y.
Proof. unfold ole. congruence. Qed.

Lemma olt_neq (x y : A) : olt x y -> cmp x y <> Eq.
Proof. unfold olt. congruence. Qed.
End OrdFacts.

#[export] Hint Resolve ole_refl olt_ole eq_ole : ord.

(** Rationals under [Qcompare]. *)
Lemma Qcompare_lt_trans (x y z : Q) :
  (x ?= y)%Q = Lt -> (y ?= z)%Q = Lt -> (x ?= z)%Q = Lt.
Proof. rewrite <- !Qlt_alt. apply Qlt_trans. Qed.

Lemma Qcompare_eq_compat (x y z : Q) :
  (x ?= y)%Q = Eq -> (x ?= z)%Q = (y ?= z)%Q.
Proof. rewrite <- Qeq_alt. intros E. now rewrite E. Qed.

Lemma Qcompare_antisym' (x y : Q) : (y ?= x)%Q = CompOpp (x ?= y)%Q.
Proof. symmetry. apply Qcompare_antisym. Qed.

#[export] Instance Q_Ord : Ord Q := {|
  cmp := Qcompare;
  cmp_antisym := Qcompare_antisym';
  cmp_lt_trans := Qcompare_lt_trans;
  cmp_eq_compat := Qcompare_eq_compat
|}.

Lemma Zcompare_lt_trans (x y z : Z) :
  (x ?= y)%Z = Lt -> (y ?= z)%Z = Lt -> (x ?= z)%Z = Lt.
Proof. rewrite !Z.compare_lt_iff. lia. Qed.

Lemma Zcompare_eq_compat (x y z : Z) :
  (x ?= y)%Z = Eq -> (x ?= z)%Z = (y ?= z)%Z.
Proof. rewrite Z.compare_eq_iff. now intros ->. Qed.

Lemma Zcompare_antisym' (x y : Z) : (y ?= x)%Z = CompOpp (x ?= y)%Z.
Proof. apply Z.compare_antisym. Qed.

#[export] Instance Z_Ord : Ord Z := {|
  cmp := Z.compare;
  cmp_antisym := Zcompare_antisym';
  cmp_lt_trans := Zcompare_lt_trans;
  cmp_eq_compat := Zcompare_eq_compat
|}.

(* ================================================================= *)
(** ** Python list indexing *)

(** [l[i]] for a Python [int] index: negative indices count from the end,
    anything outside [-len, len) raises [IndexError]. *)
Definition py_getitem {A : Type} (l : list A) (i : Z) : result A :=
  let n := Z.of_nat (length l) in
  let j := if (i <? 0)%Z then (n + i)%Z else i in
  if ((j <? 0) || (n <=? j))%Z then Raise IndexError
  else match nth_error l (Z.to_nat j) with
       | Some x => Ok x
       | None => Raise IndexError
       end.

Lemma py_getitem_nth_error {A : Type} (l : list A) (i : nat) (x : A) :
  nth_error l i = Some x -> py_getitem l (Z.of_nat i) = Ok x.
Proof.
  intros E. unfold py_getitem.
  assert (i < length l) by (apply nth_error_Some; congruence).
  destruct (Z.ltb_spec (Z.of_nat i) 0); [lia|].
  destruct (Z.ltb_spec (Z.of_nat i) 0); [lia|].
  destruct (Z.leb_spec (Z.of_nat (length l)) (Z.of_nat i)); [lia|].
  simpl. now rewrite Nat2Z.id, E.
Qed.

Lemma py_getitem_Ok_inv {A : Type} (l : list A) (i : Z) (x : A) :
  (0 <= i)%Z -> py_getitem l i = Ok x -> nth_error l (Z.to_nat i) = Some x.
Proof.
  intros Hi. unfold py_getitem.
  destruct (Z.ltb_spec i 0); [lia|].
  destruct (_ || _); [discriminate|].
  destruct (nth_error l (Z.to_nat i)); congruence.
Qed.

(* ================================================================= *)
(** ** [algorithms/mergesort.py] *)

Section Mergesort.
Context {A K : Type} `{Ord K}.
Variable sort_key : A -> K.

(** Modelled from the spec: [algorithms.mergesort.merge] is not among the
    sources.  The spec (4.1) asks for "a true stable sort", "by key
    ascending, O(n log n)": on equal keys the element of the left run goes
    first. *)
Fixpoint merge (l1 : list A) : list A -> list A :=
  fix merge_right (l2 : list A) : list A :=
    match l1, l2 with
    | [], _ => l2
    | _, [] => l1
    | x :: l1', y :: l2' =>
        if py_le (sort_key x) (sort_key y)
        then x :: merge l1' l2
        else y :: merge_right l2'
    end.

(** Modelled from the spec: [algorithms.mergesort.mergesort] is not among
    the sources.  Top-down merge sort: split at the middle, sort both halves,
    merge.  [fuel] bounds the recursion depth. *)
Fixpoint mergesort_aux (fuel : nat) (l : list A) : list A :=
  match fuel with
  | O => l
  | S fuel' =>
      if length l <=? 1 then l
      else
        let break_index := (length l + 1) / 2 in
        merge (mergesort_aux fuel' (firstn break_index l))
              (mergesort_aux fuel' (skipn break_index l))
  end.

Definition mergesort (l : list A) : list A := mergesort_aux (length l) l.

(** Ascending by key. *)
Definition key_le (x y : A) : Prop := ole (sort_key x) (sort_key y).
Definition key_lt (x y : A) : Prop := olt (sort_key x) (sort_key y).
Definition ascending (l : list A) : Prop := StronglySorted key_le l.
Definition strictly_ascending (l : list A) : Prop := StronglySorted key_lt l.

(** The elements of [l] whose key compares equal to [k], in their order. *)
Definition same_key (k : K) (x : A) : bool :=
  match cmp (sort_key x) k with Eq => true | _ => false end.
Definition with_key (k : K) (l : list A) : list A := filter (same_key k) l.

(** [s] is the stable sort of [l]: ascending, and for every key the elements
    of that key appear in [s] exactly as they appear in [l]. *)
Definition stable_sort_of (l s : list A) : Prop :=
  ascending s /\ forall k, with_key k s = with_key k l.

(** Keys pairwise different under [cmp]. *)
Definition distinct_keys (l : list A) : Prop :=
  ForallOrdPairs (fun x y => cmp (sort_key x) (sort_key y) <> Eq) l.

Lemma merge_nil_r (l1 : list A) : merge l1 [] = l1.
Proof. destruct l1; reflexivity. Qed.

Lemma merge_nil_l (l2 : list A) : merge [] l2 = l2.
Proof. destruct l2; reflexivity. Qed.

Lemma filter_none (p : A -> bool) (l : list A) :
  Forall (fun z => p z = false) l -> filter p l = [].
Proof.
  induction 1 as [|z l Hz _ IH]; simpl; [reflexivity|]. now rewrite Hz.
Qed.

Lemma merge_cons (x y : A) (l1 l2 : list A) :
  merge (x :: l1) (y :: l2) =
  if py_le (sort_key x) (sort_key y)
  then x :: merge l1 (y :: l2) else y :: merge (x :: l1) l2.
Proof. reflexivity. Qed.

Lemma merge_perm (l1 l2 : list A) : Permutation (merge l1 l2) (l1 ++ l2).
Proof.
  revert l2. induction l1 as [|x l1 IH]; intros l2; [now rewrite merge_nil_l|].
  induction l2 as [|y l2 IH2].
  - rewrite merge_nil_r, app_nil_r. reflexivity.
  - rewrite merge_cons. destruct (py_le _ _).
    + simpl. constructor. apply IH.
    + rewrite IH2. apply Permutation_middle.
Qed.

Lemma merge_ascending (l1 l2 : list A) :
  ascending l1 -> ascending l2 -> ascending (merge l1 l2).
Proof.
  unfold ascending. revert l2.
  induction l1 as [|x l1 IH]; intros l2 S1 S2; [destruct l2; assumption|].
  induction l2 as [|y l2 IH2]; [now rewrite merge_nil_r|].
  rewrite merge_cons.
  inversion S1 as [|? ? S1' F1]; inversion S2 as [|? ? S2' F2]; subst.
  destruct (py_le (sort_key x) (sort_key y)) eqn:E.
  - constructor; [now apply IH|].
    apply py_le_iff in E.
    eapply Permutation_Forall; [symmetry; apply merge_perm|].
    apply Forall_app; split; [assumption|].
    constructor; [exact E|].
    eapply Forall_impl; [|exact F2].
    intros z Hz. eapply ole_trans; eauto.
  - constructor; [now apply IH2|].
    assert (L : key_lt y x).
    { apply not_ole_olt. intros L. apply py_le_iff in L. congruence. }
    eapply Permutation_Forall; [symmetry; apply merge_perm|].
    apply Forall_app; split; [|assumption].
    constructor; [now apply olt_ole|].
    eapply Forall_impl; [|exact F1].
    intros z Hz. eapply ole_trans; [apply olt_ole; exact L|exact Hz].
Qed.

(** Stability of [merge]: the left run is ascending, so an element of the
    right run is emitted only before left elements of a strictly larger key. *)
Lemma merge_with_key (k : K) (l1 l2 : list A) :
  ascending l1 ->
  with_key k (merge l1 l2) = with_key k l1 ++ with_key k l2.
Proof.
  unfold ascending, with_key. revert l2.
  induction l1 as [|x l1 IH]; intros l2 S1; [destruct l2; reflexivity|].
  induction l2 as [|y l2 IH2]; [now rewrite merge_nil_r, app_nil_r|].
  rewrite merge_cons. inversion S1 as [|? ? S1' F1]; subst.
  destruct (py_le (sort_key x) (sort_key y)) eqn:E.
  - simpl. rewrite IH by assumption. simpl.
    destruct (same_key k x); reflexivity.
  - remember (x :: l1) as xl eqn:Exl. cbn [filter]. rewrite IH2.
    destruct (same_key k y) eqn:Ey; [|reflexivity].
    assert (L : olt (sort_key y) (sort_key x)).
    { apply not_ole_olt. intros L. apply py_le_iff in L. congruence. }
    assert (N : filter (same_key k) xl = []).
    { subst xl. apply filter_none. unfold same_key in *.
      destruct (cmp (sort_key y) k) eqn:Ek; try discriminate.
      assert (G : forall z, ole (sort_key x) (sort_key z) ->
                            match cmp (sort_key z) k with Eq => true | _ => false end = false).
      { intros z Hz.
        assert (L' : olt (sort_key y) (sort_key z)) by (eapply olt_ole_trans; eauto).
        unfold olt in L'. rewrite (cmp_eq_compat _ _ _ Ek) in L'.
        apply cmp_gt_lt in L'. now rewrite L'. }
      constructor; [apply G, ole_refl|].
      eapply Forall_impl; [|exact F1]. intros z Hz. now apply G. }
    rewrite N. reflexivity.
Qed.

Lemma half_bounds (n : nat) : 2 <= n -> 1 <= (n + 1) / 2 /\ (n + 1) / 2 < n.
Proof.
  intros Hn. pose proof (Nat.div_mod_eq (n + 1) 2) as E.
  pose proof (Nat.mod_upper_bound (n + 1) 2 ltac:(lia)). lia.
Qed.

Lemma mergesort_aux_perm (fuel : nat) (l : list A) :
  Permutation (mergesort_aux fuel l) l.
Proof.
  revert l. induction fuel as [|fuel IH]; intros l; cbn [mergesort_aux]; [reflexivity|].
  destruct (length l <=? 1); [reflexivity|].
  rewrite merge_perm, !IH. now rewrite firstn_skipn.
Qed.

Lemma ascending_short (l : list A) : length l <= 1 -> ascending l.
Proof.
  destruct l as [|x [|y l]]; simpl; intros Hl; try lia;
    repeat constructor.
Qed.

Lemma mergesort_aux_ascending (fuel : nat) (l : list A) :
  length l <= fuel -> ascending (mergesort_aux fuel l).
Proof.
  revert l. induction fuel as [|fuel IH]; intros l Hl; cbn [mergesort_aux].
  - apply ascending_short. lia.
  - destruct (Nat.leb_spec (length l) 1) as [Hs|Hs]; [now apply ascending_short|].
    destruct (half_bounds Hs) as [B1 B2].
    apply merge_ascending; apply IH.
    + rewrite length_firstn. lia.
    + rewrite length_skipn. lia.
Qed.

Lemma mergesort_aux_with_key (k : K) (fuel : nat) (l : list A) :
  length l <= fuel -> with_key k (mergesort_aux fuel l) = with_key k l.
Proof.
  revert l. induction fuel as [|fuel IH]; intros l Hl; cbn [mergesort_aux]; [reflexivity|].
  destruct (Nat.leb_spec (length l) 1) as [Hs|Hs]; [reflexivity|].
  destruct (half_bounds Hs) as [B1 B2].
  assert (L1 : length (firstn ((length l + 1) / 2) l) <= fuel)
    by (rewrite length_firstn; lia).
  assert (L2 : length (skipn ((length l + 1) / 2) l) <= fuel)
    by (rewrite length_skipn; lia).
  rewrite merge_with_key by now apply mergesort_aux_ascending.
  rewrite !IH by assumption.
  unfold with_key. rewrite <- filter_app. now rewrite firstn_skipn.
Qed.

Lemma mergesort_perm (l : list A) : Permutation (mergesort l) l.
Proof. apply mergesort_aux_perm. Qed.

Lemma mergesort_length (l : list A) : length (mergesort l) = length l.
Proof. apply Permutation_length, mergesort_perm. Qed.

Lemma mergesort_ascending (l : list A) : ascending (mergesort l).
Proof. now apply mergesort_aux_ascending. Qed.

Lemma mergesort_stable (l : list A) : stable_sort_of l (mergesort l).
Proof.
  split; [apply mergesort_ascending|].
  intros k. now apply mergesort_aux_with_key.
Qed.

Lemma distinct_keys_perm (l l' : list A) :
  Permutation l l' -> distinct_keys l -> distinct_keys l'.
Proof.
  unfold distinct_keys. induction 1 as [|x l l' P IH|x y l|l l' l'' P1 IH1 P2 IH2]; intros D.
  - constructor.
  - inversion D; subst. constructor; [|now apply IH].
    eapply Permutation_Forall; eauto.
  - inversion D as [|? ? Fy D']; subst. inversion D' as [|? ? Fx D'']; subst.
    inversion Fy as [|? ? Ryx Fy']; subst.
    constructor; [constructor; [|assumption]|constructor; assumption].
    intros E. apply Ryx. now apply cmp_eq_sym.
  - auto.
Qed.

Lemma ascending_distinct_strict (l : list A) :
  ascending l -> distinct_keys l -> strictly_ascending l.
Proof.
  unfold ascending, distinct_keys, strictly_ascending.
  induction 1 as [|x l S IH F]; intros D; [constructor|].
  inversion D as [|? ? Fx D']; subst. constructor; [now apply IH|].
  rewrite Forall_forall in *. intros z Hz.
  specialize (F z Hz). specialize (Fx z Hz).
  unfold key_le, key_lt, ole, olt in *.
  destruct (cmp (sort_key x) (sort_key z)); congruence.
Qed.

Lemma mergesort_strict (l : list A) :
  distinct_keys l -> strictly_ascending (mergesort l).
Proof.
  intros D. apply ascending_distinct_strict; [apply mergesort_ascending|].
  eapply distinct_keys_perm; [symmetry; apply mergesort_perm|assumption].
Qed.

End Mergesort.

(* ================================================================= *)
(** ** [data_structures/bst.py]: the search tree under [BetterBST] *)

(** A [TreeNode] or Python's [None]. *)
Inductive tree (K I : Type) : Type :=
| Nil
| TreeNode (key : K) (item : I) (left right : tree K I).

Arguments Nil {K I}.
Arguments TreeNode {K I} key item left right.

(** The spec permits duplicate keys in the tree and asks for "a
    deterministic, documented tie-break" without fixing it (3, 9): the side
    an equal key descends to on insertion is a parameter of the model. *)
Inductive tie_side : Type := TieLeft | TieRight.

Section BinarySearchTree.
Context {K I : Type} `{Ord K}.
Variable side : tie_side.

Definition is_empty (root : tree K I) : bool :=
  match root with Nil => true | _ => false end.

(** Modelled from the spec: [BinarySearchTree.insert_aux] (reached through
    [__setitem__]) is not among the sources.  Insertion descends by key
    comparison and creates the node at the leaf reached; the tree invariant
    of the spec is "every node's key is >= all keys in its left subtree and
    <= all keys in its right subtree", duplicates permitted. *)
Fixpoint insert_aux (current : tree K I) (key : K) (item : I) : tree K I :=
  match current with
  | Nil => TreeNode key item Nil Nil
  | TreeNode k i l r =>
      match cmp key k, side with
      | Lt, _ | Eq, TieLeft => TreeNode k i (insert_aux l key item) r
      | Gt, _ | Eq, TieRight => TreeNode k i l (insert_aux r key item)
      end
  end.

(** [self[key] = item] *)
Definition setitem (root : tree K I) (key : K) (item : I) : tree K I :=
  insert_aux root key item.

(** Leftmost and rightmost node, as (key, item). *)
Fixpoint get_minimal (current : tree K I) : option (K * I) :=
  match current with
  | Nil => None
  | TreeNode k i Nil _ => Some (k, i)
  | TreeNode _ _ l _ => get_minimal l
  end.

Fixpoint get_maximal (current : tree K I) : option (K * I) :=
  match current with
  | Nil => None
  | TreeNode k i _ Nil => Some (k, i)
  | TreeNode _ _ _ r => get_maximal r
  end.

(** Modelled from the spec: [BinarySearchTree.delete_aux] (reached through
    [__delitem__]) is not among the sources.  "Standard search-tree deletion
    preserving the ordering invariant": a node with two children takes the
    key and item of its successor, which is then deleted from the right
    subtree; "deleting a key absent from a store" fails loudly. *)
Fixpoint delete_aux (current : tree K I) (key : K) : result (tree K I) :=
  match current with
  | Nil => Raise ValueError
  | TreeNode k i l r =>
      match cmp key k with
      | Lt => l' <- delete_aux l key ;; Ok (TreeNode k i l' r)
      | Gt => r' <- delete_aux r key ;; Ok (TreeNode k i l r')
      | Eq =>
          match l, r with
          | Nil, _ => Ok r
          | _, Nil => Ok l
          | _, _ =>
              match get_minimal r with
              | Some (sk, si) =>
                  r' <- delete_aux r sk ;; Ok (TreeNode sk si l r')
              | None => Raise AttributeError
              end
          end
      end
  end.

(** [del self[key]] *)
Definition delitem (root : tree K I) (key : K) : result (tree K I) :=
  delete_aux root key.

(** [BSTInOrderIterator]: the nodes in ascending in-order, as (key, item). *)
Fixpoint inorder (current : tree K I) : list (K * I) :=
  match current with
  | Nil => []
  | TreeNode k i l r => inorder l ++ (k, i) :: inorder r
  end.

(** Number of levels: 0 for the empty tree, 1 for a single node. *)
Fixpoint height (current : tree K I) : nat :=
  match current with
  | Nil => 0
  | TreeNode _ _ l r => S (Nat.max (height l) (height r))
  end.

(** Strict search-tree order: the in-order keys strictly ascend. *)
Definition bst (t : tree K I) : Prop := strictly_ascending fst (inorder t).

(** The ordering invariant of the spec, duplicates allowed. *)
Definition bst_weak (t : tree K I) : Prop := ascending fst (inorder t).

End BinarySearchTree.

(** *** Sorted lists, split *)

Section SortedLists.
Context {A : Type} (R : A -> A -> Prop).

Lemma StronglySorted_app_iff (l1 l2 : list A) :
  StronglySorted R (l1 ++ l2) <->
  StronglySorted R l1 /\ StronglySorted R l2 /\
  (forall x y, In x l1 -> In y l2 -> R x y).
Proof.
  induction l1 as [|a l1 IH]; simpl.
  - split; [intros S|intros (_ & S & _); exact S].
    repeat split; [constructor|exact S|contradiction].
  - split.
    + intros S. inversion S as [|? ? S' F]; subst.
      apply IH in S' as (S1 & S2 & C).
      rewrite Forall_app in F. destruct F as [F1 F2].
      repeat split; [now constructor|assumption|].
      intros x y [<-|Hx] Hy; [|now apply C].
      rewrite Forall_forall in F2. now apply F2.
    + intros (S1 & S2 & C). inversion S1 as [|? ? S1' F1]; subst.
      constructor.
      * apply IH. repeat split; auto.
      * apply Forall_app. split; [assumption|].
        apply Forall_forall. intros y Hy. apply C; auto.
Qed.

Lemma StronglySorted_cons_iff (a : A) (l : list A) :
  StronglySorted R (a :: l) <-> StronglySorted R l /\ Forall (R a) l.
Proof.
  split; [intros S; inversion S; auto|intros [S F]; now constructor].
Qed.

Lemma StronglySorted_mid_iff (l1 : list A) (a : A) (l2 : list A) :
  StronglySorted R (l1 ++ a :: l2) <->
  StronglySorted R l1 /\ StronglySorted R l2 /\
  Forall (fun x => R x a) l1 /\ Forall (R a) l2 /\
  (forall x y, In x l1 -> In y l2 -> R x y).
Proof.
  rewrite StronglySorted_app_iff, StronglySorted_cons_iff, !Forall_forall.
  split.
  - intros (S1 & (S2 & F2) & C).
    repeat split; auto.
    + intros x Hx. apply C; simpl; auto.
    + intros x y Hx Hy. apply C; simpl; auto.
  - intros (S1 & S2 & F1 & F2 & C).
    repeat split; auto.
    intros x y Hx [<-|Hy]; auto.
Qed.

Lemma StronglySorted_remove_mid (l1 : list A) (a : A) (l2 : list A) :
  StronglySorted R (l1 ++ a :: l2) -> StronglySorted R (l1 ++ l2).
Proof.
  rewrite StronglySorted_mid_iff, StronglySorted_app_iff. tauto.
Qed.

End SortedLists.

(* ================================================================= *)
(** ** [betterbst.py] *)

Section BetterBST.
Context {K I : Type} `{Ord K}.
Variable side : tie_side.

(** [BetterBST.__sort_elements] *)
Definition __sort_elements (elements : list (K * I)) : list (K * I) :=
  mergesort fst elements.

(** [BetterBST._build_balanced_tree_aux]: the element in the middle of
    [beginning_element .. ending_element] is inserted into the tree, then the
    lower and the upper half are treated the same way.  The tree object
    ([self.root]) is threaded through.  [current_depth] is only stored in the
    new node and is left out. *)
Fixpoint _build_balanced_tree_aux (fuel : nat) (root : tree K I)
    (elements : list (K * I)) (beginning_element ending_element : Z)
    : result (tree K I) :=
  match fuel with
  | O => Raise OutOfFuel
  | S fuel' =>
      if (beginning_element >? ending_element)%Z then Ok root
      else
        let middle_element := ((beginning_element + ending_element) / 2)%Z in
        e <- py_getitem elements middle_element ;;
        let '(key, item) := e in
        let root1 :=
          match root with
          | Nil => insert_aux side root key item
          | _ => setitem side root key item
          end in
        root2 <- _build_balanced_tree_aux fuel' root1 elements
                   beginning_element (middle_element - 1) ;;
        _build_balanced_tree_aux fuel' root2 elements
          (middle_element + 1) ending_element
  end.

(** [BetterBST.__build_balanced_tree] *)
Definition __build_balanced_tree (elements : list (K * I)) : result (tree K I) :=
  _build_balanced_tree_aux (S (length elements)) Nil elements
    0 (Z.of_nat (length elements) - 1).

(** [BetterBST.__init__]: the tree of a fresh [BetterBST(elements)]. *)
Definition BetterBST (elements : list (K * I)) : result (tree K I) :=
  let new_elements := __sort_elements elements in
  __build_balanced_tree new_elements.

(** The construction as the spec words it (4.1): "if lo > hi, produce no
    node; otherwise let mid = (lo+hi)/2, create a node from the element at
    mid, recurse to build the left child from [lo, mid-1] and the right child
    from [mid+1, hi]". *)
Fixpoint midpoint_tree (fuel : nat) (elements : list (K * I)) (lo hi : Z)
    : tree K I :=
  match fuel with
  | O => Nil
  | S fuel' =>
      if (lo >? hi)%Z then Nil
      else
        let mid := ((lo + hi) / 2)%Z in
        match nth_error elements (Z.to_nat mid) with
        | Some (key, item) =>
            TreeNode key item
              (midpoint_tree fuel' elements lo (mid - 1))
              (midpoint_tree fuel' elements (mid + 1) hi)
        | None => Nil
        end
  end.

(** A tree with one hole: the path from the root to the hole, outermost
    frame first. *)
Inductive frame : Type :=
| HoleLeft (key : K) (item : I) (right : tree K I)
| HoleRight (key : K) (item : I) (left : tree K I).

Fixpoint plug (c : list frame) (t : tree K I) : tree K I :=
  match c with
  | [] => t
  | HoleLeft k i r :: c' => TreeNode k i (plug c' t) r
  | HoleRight k i l :: c' => TreeNode k i l (plug c' t)
  end.

(** A key that insertion routes to the hole of [c]. *)
Definition fits (key : K) (c : list frame) : Prop :=
  Forall (fun f => match f with
                   | HoleLeft k _ _ => cmp key k = Lt
                   | HoleRight k _ _ => cmp key k = Gt
                   end) c.

Lemma plug_app (c1 c2 : list frame) (t : tree K I) :
  plug (c1 ++ c2) t = plug c1 (plug c2 t).
Proof.
  induction c1 as [|[k i r|k i l] c1 IH]; simpl; congruence.
Qed.

Lemma insert_aux_plug (c : list frame) (t : tree K I) (key : K) (item : I) :
  fits key c ->
  insert_aux side (plug c t) key item = plug c (insert_aux side t key item).
Proof.
  induction 1 as [|[k i r|k i l] c E _ IH]; simpl; [reflexivity| |];
    rewrite E, IH; reflexivity.
Qed.

Lemma StronglySorted_nth_error {A : Type} (R : A -> A -> Prop) (l : list A) :
  StronglySorted R l ->
  forall i j x y, i < j -> nth_error l i = Some x -> nth_error l j = Some y ->
  R x y.
Proof.
  induction 1 as [|a l S IH F]; intros i j x y Hij Hi Hj.
  - destruct i; discriminate.
  - destruct j as [|j]; [lia|]. simpl in Hj.
    destruct i as [|i]; simpl in Hi.
    + injection Hi as <-. rewrite Forall_forall in F.
      apply F. eapply nth_error_In; eauto.
    + eapply IH; [|eauto|eauto]. lia.
Qed.

Lemma firstn_split_at {A : Type} (l : list A) (m n : nat) (e : A) :
  nth_error l m = Some e -> m < n ->
  firstn n l = firstn m l ++ e :: firstn (n - m - 1) (skipn (S m) l).
Proof.
  revert l n. induction m as [|m IH]; intros [|x l] n E Hn; try discriminate.
  - simpl in E. injection E as ->. destruct n; [lia|].
    simpl. now rewrite Nat.sub_0_r.
  - simpl in E. destruct n; [lia|].
    cbn [firstn app]. f_equal.
    rewrite (IH l n) by (assumption || lia). reflexivity.
Qed.

Lemma slice_split_at {A : Type} (l : list A) (a m n : nat) (e : A) :
  nth_error l (a + m) = Some e -> m < n ->
  firstn n (skipn a l) =
  firstn m (skipn a l) ++ e :: firstn (n - m - 1) (skipn (S (a + m)) l).
Proof.
  intros E Hn.
  rewrite (@firstn_split_at _ (skipn a l) m n e); [|now rewrite nth_error_skipn|assumption].
  rewrite skipn_skipn. replace (S m + a) with (S (a + m)) by lia. reflexivity.
Qed.

Lemma midpoint_index (a n : nat) :
  1 <= n ->
  ((Z.of_nat a + (Z.of_nat (a + n) - 1)) / 2)%Z = Z.of_nat (a + (n - 1) / 2).
Proof.
  intros Hn. pose proof (Nat.div_mod_eq (n - 1) 2) as E.
  pose proof (Nat.mod_upper_bound (n - 1) 2 ltac:(lia)) as B.
  symmetry. apply (Z.div_unique _ _ _ (Z.of_nat ((n - 1) mod 2))); lia.
Qed.

Lemma half_pred_lt (n : nat) : 1 <= n -> (n - 1) / 2 < n.
Proof.
  intros Hn. pose proof (Nat.div_mod_eq (n - 1) 2).
  pose proof (Nat.mod_upper_bound (n - 1) 2 ltac:(lia)). lia.
Qed.

(** On strictly ascending elements, inserting the midpoints one by one
    builds exactly the tree of the direct construction, in the hole the range
    belongs to. *)
Lemma build_aux_plug (elements : list (K * I)) :
  strictly_ascending fst elements ->
  forall (fuel : nat) (c : list frame) (a n : nat),
  n < fuel -> a + n <= length elements ->
  (forall j e, a <= j < a + n -> nth_error elements j = Some e ->
               fits (fst e) c) ->
  _build_balanced_tree_aux fuel (plug c Nil) elements
    (Z.of_nat a) (Z.of_nat (a + n) - 1)
  = Ok (plug c (midpoint_tree fuel elements
                  (Z.of_nat a) (Z.of_nat (a + n) - 1))).
Proof.
  intros Sorted. induction fuel as [|fuel IH]; intros c a n Hf Hlen Hfit; [lia|].
  cbn [_build_balanced_tree_aux midpoint_tree].
  destruct (Z.gtb_spec (Z.of_nat a) (Z.of_nat (a + n) - 1)) as [Hgt|Hle];
    [reflexivity|].
  assert (Hn : 1 <= n) by lia.
  rewrite (midpoint_index a Hn).
  pose proof (half_pred_lt Hn) as Hm.
  set (m := (n - 1) / 2) in *.
  destruct (nth_error elements (a + m)) as [[key item]|] eqn:Em;
    [|apply nth_error_None in Em; lia].
  rewrite (py_getitem_nth_error _ _ Em), Nat2Z.id, Em. cbn [bind].
  assert (Ins : match plug c Nil with
                | Nil => insert_aux side (plug c Nil) key item
                | _ => setitem side (plug c Nil) key item
                end = plug c (TreeNode key item Nil Nil)).
  { transitivity (insert_aux side (plug c Nil) key item);
      [destruct (plug c Nil); reflexivity|].
    apply insert_aux_plug.
    apply (Hfit (a + m) (key, item)); [lia|assumption]. }
  rewrite Ins. clear Ins.
  (* lower half, in the left hole of the new node *)
  replace (plug c (TreeNode key item Nil Nil))
    with (plug (c ++ [HoleLeft key item Nil]) Nil) by now rewrite plug_app.
  rewrite (IH (c ++ [HoleLeft key item Nil]) a m); [|lia|lia|].
  2:{ intros j e Hj Ej. apply Forall_app. split.
      - apply (Hfit j e); [lia|assumption].
      - constructor; [|constructor].
        assert (Hlt : j < a + m) by lia.
        exact (StronglySorted_nth_error Sorted (x := e) (y := (key, item))
                 Hlt Ej Em). }
  cbn [bind]. rewrite plug_app. cbn [plug].
  (* upper half, in the right hole *)
  set (L := midpoint_tree fuel elements (Z.of_nat a) (Z.of_nat (a + m) - 1)).
  replace (plug c (TreeNode key item L Nil))
    with (plug (c ++ [HoleRight key item L]) Nil) by now rewrite plug_app.
  replace (Z.of_nat (a + m) + 1)%Z with (Z.of_nat (S (a + m))) by lia.
  replace (Z.of_nat (a + n) - 1)%Z
    with (Z.of_nat (S (a + m) + (n - m - 1)) - 1)%Z by lia.
  rewrite (IH (c ++ [HoleRight key item L]) (S (a + m)) (n - m - 1)); [|lia|lia|].
  2:{ intros j e Hj Ej. apply Forall_app. split.
      - apply (Hfit j e); [lia|assumption].
      - constructor; [|constructor]. apply cmp_gt_lt.
        assert (Hlt : a + m < j) by lia.
        exact (StronglySorted_nth_error Sorted (x := (key, item)) (y := e)
                 Hlt Em Ej). }
  rewrite plug_app. reflexivity.
Qed.

Lemma midpoint_tree_inorder (elements : list (K * I)) :
  forall (fuel a n : nat),
  n < fuel -> a + n <= length elements ->
  inorder (midpoint_tree fuel elements (Z.of_nat a) (Z.of_nat (a + n) - 1))
  = firstn n (skipn a elements).
Proof.
  induction fuel as [|fuel IH]; intros a n Hf Hlen; [lia|].
  cbn [midpoint_tree].
  destruct (Z.gtb_spec (Z.of_nat a) (Z.of_nat (a + n) - 1)) as [Hgt|Hle].
  - replace n with 0 by lia. reflexivity.
  - assert (Hn : 1 <= n) by lia.
    rewrite (midpoint_index a Hn).
    pose proof (half_pred_lt Hn) as Hm.
    set (m := (n - 1) / 2) in *.
    destruct (nth_error elements (a + m)) as [[key item]|] eqn:Em;
      [|apply nth_error_None in Em; lia].
    rewrite Nat2Z.id, Em. cbn [inorder].
    rewrite (IH a m) by lia.
    replace (Z.of_nat (a + m) + 1)%Z with (Z.of_nat (S (a + m))) by lia.
    replace (Z.of_nat (a + n) - 1)%Z
      with (Z.of_nat (S (a + m) + (n - m - 1)) - 1)%Z by lia.
    rewrite (IH (S (a + m)) (n - m - 1)) by lia.
    symmetry. now apply slice_split_at.
Qed.

Lemma midpoint_tree_height (elements : list (K * I)) :
  forall (fuel a n h : nat),
  n < fuel -> n + 1 <= 2 ^ h ->
  height (midpoint_tree fuel elements (Z.of_nat a) (Z.of_nat (a + n) - 1)) <= h.
Proof.
  induction fuel as [|fuel IH]; intros a n h Hf Hh; [lia|].
  cbn [midpoint_tree].
  destruct (Z.gtb_spec (Z.of_nat a) (Z.of_nat (a + n) - 1)) as [Hgt|Hle];
    [simpl; lia|].
  assert (Hn : 1 <= n) by lia.
  rewrite (midpoint_index a Hn).
  pose proof (half_pred_lt Hn) as Hm.
  pose proof (Nat.div_mod_eq (n - 1) 2) as Ed.
  pose proof (Nat.mod_upper_bound (n - 1) 2 ltac:(lia)) as Bd.
  set (m := (n - 1) / 2) in *.
  destruct (nth_error elements (Z.to_nat (Z.of_nat (a + m)))) as [[key item]|];
    [|simpl; lia].
  destruct h as [|h]; [simpl in Hh; lia|].
  rewrite Nat.pow_succ_r' in Hh.
  cbn [height]. apply le_n_S. apply Nat.max_lub.
  - apply IH; lia.
  - replace (Z.of_nat (a + m) + 1)%Z with (Z.of_nat (S (a + m))) by lia.
    replace (Z.of_nat (a + n) - 1)%Z
      with (Z.of_nat (S (a + m) + (n - m - 1)) - 1)%Z by lia.
    apply IH; lia.
Qed.

(** With pairwise distinct keys the bulk build refines the direct midpoint
    construction over the sorted list. *)
Lemma BetterBST_distinct_midpoint (elements : list (K * I)) :
  distinct_keys fst elements ->
  BetterBST elements =
  Ok (midpoint_tree (S (length elements)) (mergesort fst elements)
        0 (Z.of_nat (length elements) - 1)).
Proof.
  intros D. unfold BetterBST, __build_balanced_tree, __sort_elements.
  rewrite mergesort_length.
  pose proof (@build_aux_plug (mergesort fst elements) (mergesort_strict D)
                (S (length elements)) [] 0 (length elements)) as B.
  cbn [plug Nat.add Z.of_nat] in B. apply B.
  - lia.
  - rewrite mergesort_length. lia.
  - intros j e _ _. constructor.
Qed.

Lemma midpoint_tree_whole_inorder (l : list (K * I)) :
  inorder (midpoint_tree (S (length l)) l 0 (Z.of_nat (length l) - 1)) = l.
Proof.
  pose proof (@midpoint_tree_inorder l (S (length l)) 0 (length l)) as E.
  cbn [Nat.add Z.of_nat skipn] in E. rewrite E by lia.
  apply firstn_all.
Qed.

Lemma BetterBST_distinct_inorder (elements : list (K * I)) :
  distinct_keys fst elements ->
  exists t : tree K I,
    BetterBST elements = Ok t /\ inorder t = mergesort fst elements.
Proof.
  intros D. eexists. split; [now apply BetterBST_distinct_midpoint|].
  pose proof (midpoint_tree_whole_inorder (mergesort fst elements)) as E.
  now rewrite mergesort_length in E.
Qed.

(** Where the keys are pairwise distinct the traversal is the sorted input:
    for every input list of (key, item) pairs whose keys are pairwise
    distinct, [BetterBST] builds a tree, under either tie side,
    whose ascending in-order traversal is exactly the input sorted ascending
    by key (the stable merge sort of the input, a permutation of it). *)
Theorem BetterBST_inorder_sorted (elements : list (K * I)) :
  distinct_keys fst elements ->
  exists t : tree K I,
    BetterBST elements = Ok t /\
    inorder t = mergesort fst elements /\
    stable_sort_of fst elements (inorder t) /\
    strictly_ascending fst (inorder t) /\
    Permutation (inorder t) elements.
Proof.
  intros D. destruct (BetterBST_distinct_inorder D) as (t & B & E).
  exists t. rewrite E. repeat split.
  - exact B.
  - apply mergesort_ascending.
  - intros k. apply (mergesort_stable fst elements).
  - now apply mergesort_strict.
  - apply mergesort_perm.
Qed.

(** Where the keys are pairwise distinct the tree is balanced: for every
    input list of [n] (key, item) pairs whose keys are pairwise distinct,
    the tree [BetterBST] builds has height at most
    [ceil (log2 (n + 1))]. *)
Theorem BetterBST_height_bound (elements : list (K * I)) :
  distinct_keys fst elements ->
  exists t : tree K I,
    BetterBST elements = Ok t /\
    height t <= Nat.log2_up (length elements + 1).
Proof.
  intros D. eexists. split; [now apply BetterBST_distinct_midpoint|].
  pose proof (@midpoint_tree_height (mergesort fst elements)
                (S (length elements)) 0 (length elements)
                (Nat.log2_up (length elements + 1))) as Hh.
  cbn [Nat.add Z.of_nat] in Hh. apply Hh; [lia|].
  destruct (length elements) as [|n]; [simpl; lia|].
  apply Nat.log2_up_spec. lia.
Qed.

End BetterBST.

(** Three elements of one key. *)
Definition three_equal_keys : list (Z * nat) := [(1%Z, 0); (1%Z, 1); (1%Z, 2)].

(** Five elements of different keys. *)
Definition five_keys : list (Z * nat) :=
  [(5%Z, 0); (3%Z, 1); (4%Z, 2); (1%Z, 3); (2%Z, 4)].

Lemma five_keys_distinct : distinct_keys fst five_keys.
Proof.
  unfold distinct_keys, five_keys.
  repeat (constructor; [repeat (constructor; [discriminate|]); constructor|]).
  constructor.
Qed.

Lemma BetterBST_inorder_sorted_witness :
  distinct_keys fst five_keys /\
  exists t : tree Z nat,
    BetterBST TieRight five_keys = Ok t /\
    inorder t = mergesort fst five_keys /\
    stable_sort_of fst five_keys (inorder t) /\
    strictly_ascending fst (inorder t) /\
    Permutation (inorder t) five_keys.
Proof.
  split; [exact five_keys_distinct|].
  exact (BetterBST_inorder_sorted TieRight five_keys_distinct).
Defined.

Lemma BetterBST_height_bound_witness :
  distinct_keys fst five_keys /\
  exists t : tree Z nat,
    BetterBST TieLeft five_keys = Ok t /\
    height t <= Nat.log2_up (length five_keys + 1).
Proof.
  split; [exact five_keys_distinct|].
  exact (BetterBST_height_bound TieLeft five_keys_distinct).
Defined.

(** The stable order is lost on equal keys: with three elements of one key the midpoint is
    inserted first and the other two descend to the same side of it, so the
    in-order traversal is not the stable order, whichever the tie side. *)
Lemma BetterBST_inorder_not_stable :
  ~ (exists t : tree Z nat,
       BetterBST TieLeft three_equal_keys = Ok t /\
       stable_sort_of fst three_equal_keys (inorder t)) /\
  ~ (exists t : tree Z nat,
       BetterBST TieRight three_equal_keys = Ok t /\
       stable_sort_of fst three_equal_keys (inorder t)).
Proof.
  split; intros (t & E & _ & S); vm_compute in E; injection E as <-;
    specialize (S 1%Z); vm_compute in S; discriminate.
Qed.

(** The balance is lost on equal keys: the same three elements end up on one branch of
    three levels, and [ceil (log2 (3 + 1)) = 2]. *)
Lemma BetterBST_height_exceeds_bound :
  ~ (exists t : tree Z nat,
       BetterBST TieLeft three_equal_keys = Ok t /\
       height t <= Nat.log2_up (length three_equal_keys + 1)) /\
  ~ (exists t : tree Z nat,
       BetterBST TieRight three_equal_keys = Ok t /\
       height t <= Nat.log2_up (length three_equal_keys + 1)).
Proof.
  split; intros (t & E & Hh); vm_compute in E; injection E as <-;
    vm_compute in Hh; lia.
Qed.

(* ================================================================= *)
(** ** Facts about the search tree *)

Section BSTFacts.
Context {K I : Type} `{Ord K}.

(** The list without the elements whose key compares equal to [k]. *)
Definition drop_key (k : K) (l : list (K * I)) : list (K * I) :=
  filter (fun e => negb (same_key fst k e)) l.

Lemma drop_key_app (k : K) (l1 l2 : list (K * I)) :
  drop_key k (l1 ++ l2) = drop_key k l1 ++ drop_key k l2.
Proof. apply filter_app. Qed.

Lemma drop_key_unchanged (k : K) (l : list (K * I)) :
  Forall (fun e => cmp (fst e) k <> Eq) l -> drop_key k l = l.
Proof.
  induction 1 as [|e l He _ IH]; [reflexivity|].
  unfold drop_key, same_key in *. cbn [filter]. rewrite IH.
  destruct (cmp (fst e) k); simpl; congruence.
Qed.

Lemma drop_key_hit (k : K) (e : K * I) (l : list (K * I)) :
  cmp (fst e) k = Eq -> drop_key k (e :: l) = drop_key k l.
Proof.
  intros E. unfold drop_key, same_key. cbn [filter]. now rewrite E.
Qed.

Lemma keys_above (k k' : K) (l : list (K * I)) :
  ole k k' -> Forall (fun e => olt k' (fst e)) l ->
  Forall (fun e => cmp (fst e) k <> Eq) l.
Proof.
  intros Hk. apply Forall_impl. intros e He E.
  apply (olt_irrefl (x := k)).
  eapply ole_olt_trans; [exact Hk|].
  unfold olt in *. now rewrite <- (cmp_eq_compat_r _ _ _ E).
Qed.

Lemma keys_below (k k' : K) (l : list (K * I)) :
  ole k' k -> Forall (fun e => olt (fst e) k') l ->
  Forall (fun e => cmp (fst e) k <> Eq) l.
Proof.
  intros Hk. apply Forall_impl. intros e He E.
  apply (olt_irrefl (x := k)).
  eapply olt_ole_trans; [|exact Hk].
  unfold olt in *. now rewrite <- (cmp_eq_compat _ _ _ E).
Qed.

(** Strict order of a node, read off the in-order list. *)
Lemma bst_node_inv (k : K) (i : I) (l r : tree K I) :
  bst (TreeNode k i l r) ->
  bst l /\ bst r /\
  Forall (fun e => olt (fst e) k) (inorder l) /\
  Forall (fun e => olt k (fst e)) (inorder r).
Proof.
  unfold bst, strictly_ascending. cbn [inorder].
  rewrite StronglySorted_mid_iff. intros (Sl & Sr & Fl & Fr & _). auto.
Qed.

Lemma get_minimal_inorder (t : tree K I) :
  t <> Nil ->
  exists e rest, inorder t = e :: rest /\ get_minimal t = Some e.
Proof.
  induction t as [|k i l IHl r _]; intros N; [congruence|].
  destruct l as [|lk li ll lr].
  - exists (k, i), (inorder r). auto.
  - destruct IHl as (e & rest & E & G); [discriminate|].
    exists e, (rest ++ (k, i) :: inorder r). split; [|exact G].
    cbn [inorder] in *. now rewrite E.
Qed.

Lemma get_maximal_inorder (t : tree K I) :
  t <> Nil ->
  exists front e, inorder t = front ++ [e] /\ get_maximal t = Some e.
Proof.
  induction t as [|k i l _ r IHr]; intros N; [congruence|].
  destruct r as [|rk ri rl rr].
  - exists (inorder l), (k, i). auto.
  - destruct IHr as (front & e & E & G); [discriminate|].
    exists (inorder l ++ (k, i) :: front), e. split; [|exact G].
    cbn [inorder] in *. rewrite E. now rewrite <- app_assoc.
Qed.

Lemma delete_aux_lt (k : K) (i : I) (l r : tree K I) (key : K) :
  cmp key k = Lt ->
  delete_aux (TreeNode k i l r) key =
  (l' <- delete_aux l key ;; Ok (TreeNode k i l' r)).
Proof. intros C. cbn [delete_aux]. now rewrite C. Qed.

Lemma delete_aux_gt (k : K) (i : I) (l r : tree K I) (key : K) :
  cmp key k = Gt ->
  delete_aux (TreeNode k i l r) key =
  (r' <- delete_aux r key ;; Ok (TreeNode k i l r')).
Proof. intros C. cbn [delete_aux]. now rewrite C. Qed.

Lemma delete_aux_eq_no_left (k : K) (i : I) (r : tree K I) (key : K) :
  cmp key k = Eq -> delete_aux (TreeNode k i Nil r) key = Ok r.
Proof. intros C. cbn [delete_aux]. now rewrite C. Qed.

Lemma delete_aux_eq_no_right (k : K) (i : I) (l : tree K I) (key : K) :
  cmp key k = Eq -> delete_aux (TreeNode k i l Nil) key = Ok l.
Proof. intros C. cbn [delete_aux]. rewrite C. now destruct l. Qed.

Lemma delete_aux_eq_both (k : K) (i : I) (l r : tree K I) (key : K) :
  cmp key k = Eq -> l <> Nil -> r <> Nil ->
  delete_aux (TreeNode k i l r) key =
  match get_minimal r with
  | Some (sk, si) => r' <- delete_aux r sk ;; Ok (TreeNode sk si l r')
  | None => Raise AttributeError
  end.
Proof.
  intros C Nl Nr. cbn [delete_aux]. rewrite C.
  destruct l; [congruence|]. destruct r; [congruence|]. reflexivity.
Qed.

Lemma tree_nil_dec (t : tree K I) : {t = Nil} + {t <> Nil}.
Proof. destruct t; [now left|right; discriminate]. Qed.

(** Deleting a key that is present, from a strictly ordered tree: the
    in-order list loses exactly the element of that key. *)
Lemma delete_aux_inorder (t : tree K I) (key : K) :
  bst t ->
  (exists e, In e (inorder t) /\ cmp (fst e) key = Eq) ->
  exists t', delete_aux t key = Ok t' /\
             inorder t' = drop_key key (inorder t).
Proof.
  revert key. induction t as [|k i l IHl r IHr]; intros key B (e & He & Ee);
    [contradiction|].
  destruct (bst_node_inv B) as (Bl & Br & Fl & Fr).
  cbn [inorder]. rewrite drop_key_app.
  cbn [inorder] in He. apply in_app_or in He.
  destruct (cmp key k) eqn:C.
  - (* found here *)
    assert (Ck : cmp (fst (k, i)) key = Eq) by (now apply cmp_eq_sym).
    rewrite drop_key_hit by exact Ck.
    assert (Ul : drop_key key (inorder l) = inorder l).
    { apply drop_key_unchanged.
      eapply keys_below; [apply eq_ole, cmp_eq_sym, C|exact Fl]. }
    assert (Ur : drop_key key (inorder r) = inorder r).
    { apply drop_key_unchanged.
      eapply keys_above; [apply eq_ole, C|exact Fr]. }
    rewrite Ul, Ur. clear Ul Ur.
    destruct (tree_nil_dec l) as [->|Nl].
    { rewrite delete_aux_eq_no_left by assumption. eauto. }
    destruct (tree_nil_dec r) as [->|Nr].
    { rewrite delete_aux_eq_no_right by assumption.
      eexists; split; [reflexivity|]. now rewrite app_nil_r. }
    rewrite delete_aux_eq_both by assumption.
    destruct (get_minimal_inorder Nr) as (s & rest & Es & Gs).
    rewrite Gs. destruct s as [sk si].
    destruct (IHr sk Br) as (r' & Dr & Ir).
    { exists (sk, si). split; [rewrite Es; now left|apply cmp_refl]. }
    rewrite Dr. cbn [bind]. eexists; split; [reflexivity|].
    cbn [inorder]. rewrite Ir, Es.
    rewrite drop_key_hit by apply cmp_refl.
    rewrite drop_key_unchanged; [reflexivity|].
    unfold bst, strictly_ascending in Br. rewrite Es in Br.
    inversion Br as [|? ? _ F]; subst.
    eapply keys_above; [apply ole_refl|exact F].
  - (* key < k: the element is in the left subtree *)
    rewrite delete_aux_lt by assumption.
    assert (Hl : In e (inorder l)).
    { destruct He as [He|[<-|He]]; [assumption| |].
      - simpl in Ee. rewrite (cmp_antisym k key), Ee in C. discriminate.
      - rewrite Forall_forall in Fr. specialize (Fr e He).
        exfalso. apply (olt_irrefl (x := key)).
        eapply olt_trans; [exact C|].
        unfold olt in *. now rewrite <- (cmp_eq_compat_r _ _ _ Ee). }
    destruct (IHl key Bl) as (l' & Dl & Il); [eauto|].
    rewrite Dl. cbn [bind]. eexists; split; [reflexivity|].
    cbn [inorder]. rewrite Il. f_equal.
    symmetry. apply drop_key_unchanged.
    constructor.
    + simpl. rewrite (cmp_antisym key k), C. discriminate.
    + eapply keys_above; [apply olt_ole; exact C|exact Fr].
  - (* key > k: the element is in the right subtree *)
    rewrite delete_aux_gt by assumption.
    apply cmp_gt_lt in C.
    assert (Hr : In e (inorder r)).
    { destruct He as [He|[<-|He]]; [| |assumption].
      - rewrite Forall_forall in Fl. specialize (Fl e He).
        exfalso. apply (olt_irrefl (x := key)).
        eapply olt_trans; [|exact C].
        unfold olt in *. now rewrite <- (cmp_eq_compat _ _ _ Ee).
      - simpl in Ee. unfold olt in C. rewrite Ee in C. discriminate. }
    destruct (IHr key Br) as (r' & Dr & Ir); [eauto|].
    rewrite Dr. cbn [bind]. eexists; split; [reflexivity|].
    cbn [inorder]. rewrite Ir.
    assert (Ul : drop_key key (inorder l) = inorder l).
    { apply drop_key_unchanged.
      eapply keys_below; [apply olt_ole; exact C|exact Fl]. }
    rewrite Ul. f_equal. unfold drop_key, same_key. cbn [filter fst].
    unfold olt in C. now rewrite C.
Qed.

(** In a strictly ascending list the element of a key is unique. *)
Lemma drop_key_split (l1 l2 : list (K * I)) (e : K * I) :
  strictly_ascending fst (l1 ++ e :: l2) ->
  drop_key (fst e) (l1 ++ e :: l2) = l1 ++ l2.
Proof.
  unfold strictly_ascending. rewrite StronglySorted_mid_iff.
  intros (_ & _ & F1 & F2 & _).
  rewrite drop_key_app, drop_key_hit by apply cmp_refl.
  assert (U1 : drop_key (fst e) l1 = l1).
  { apply drop_key_unchanged. eapply keys_below; [apply ole_refl|exact F1]. }
  assert (U2 : drop_key (fst e) l2 = l2).
  { apply drop_key_unchanged. eapply keys_above; [apply ole_refl|exact F2]. }
  now rewrite U1, U2.
Qed.

Lemma delete_aux_split (t : tree K I) (l1 l2 : list (K * I)) (e : K * I) :
  bst t -> inorder t = l1 ++ e :: l2 ->
  exists t', delete_aux t (fst e) = Ok t' /\ inorder t' = l1 ++ l2 /\ bst t'.
Proof.
  intros B E.
  destruct (@delete_aux_inorder t (fst e) B) as (t' & D & It).
  { exists e. split; [rewrite E; apply in_elt|apply cmp_refl]. }
  exists t'. split; [exact D|].
  unfold bst in *. rewrite It, E in *.
  rewrite drop_key_split by assumption.
  split; [reflexivity|]. eapply StronglySorted_remove_mid; eauto.
Qed.

End BSTFacts.

(* ================================================================= *)
(** ** [treasure.py] *)

(** Modelled from the spec: [treasure.Treasure] is not among the sources.
    "Treasure: immutable value with name, weight (>0), value (>=0), derived
    ratio = value/weight." *)
Record Treasure : Type := mkTreasure {
  name : string;
  value : N;
  weight : positive
}.

Definition value_to_weight_ratio (t : Treasure) : Q :=
  (Z.of_N (value t) # weight t)%Q.

(** [treasure.weight <= backpack_capacity] *)
Definition fits_in (backpack_capacity : Z) (t : Treasure) : bool :=
  (Z.pos (weight t) <=? backpack_capacity)%Z.

(** Treasures compare by ratio (the heap is "keyed by ratio"). *)
Definition Treasure_cmp (t1 t2 : Treasure) : comparison :=
  cmp (value_to_weight_ratio t1) (value_to_weight_ratio t2).

Lemma Treasure_cmp_antisym (x y : Treasure) :
  Treasure_cmp y x = CompOpp (Treasure_cmp x y).
Proof. apply (cmp_antisym (A := Q)). Qed.

Lemma Treasure_cmp_lt_trans (x y z : Treasure) :
  Treasure_cmp x y = Lt -> Treasure_cmp y z = Lt -> Treasure_cmp x z = Lt.
Proof. apply (cmp_lt_trans (A := Q)). Qed.

Lemma Treasure_cmp_eq_compat (x y z : Treasure) :
  Treasure_cmp x y = Eq -> Treasure_cmp x z = Treasure_cmp y z.
Proof. apply (cmp_eq_compat (A := Q)). Qed.

#[export] Instance Treasure_Ord : Ord Treasure := {|
  cmp := Treasure_cmp;
  cmp_antisym := Treasure_cmp_antisym;
  cmp_lt_trans := Treasure_cmp_lt_trans;
  cmp_eq_compat := Treasure_cmp_eq_compat
|}.

(** What a correct extraction from the treasures [before] under capacity
    [c] is: the returned treasure [tr] was stored, fits, has a maximal ratio
    among the stored treasures that fit, and [after] is [before] without
    exactly that treasure, which is stored no more. *)
Definition extraction_correct
    (before : list Treasure) (c : Z) (tr : Treasure) (after : list Treasure)
    : Prop :=
  In tr before /\
  fits_in c tr = true /\
  (forall x, In x before -> fits_in c x = true ->
             ole (value_to_weight_ratio x) (value_to_weight_ratio tr)) /\
  Permutation before (tr :: after) /\
  ~ In tr after.

(** Pairwise different ratios. *)
Definition distinct_ratios (l : list Treasure) : Prop :=
  distinct_keys value_to_weight_ratio l.

Lemma distinct_keys_In_eq {A K : Type} `{Ord K} (key : A -> K)
    (l : list A) (x y : A) :
  distinct_keys key l -> In x l -> In y l ->
  cmp (key x) (key y) = Eq -> x = y.
Proof.
  unfold distinct_keys. induction 1 as [|a l F _ IH]; intros Hx Hy E;
    [contradiction|].
  rewrite Forall_forall in F.
  destruct Hx as [<-|Hx], Hy as [<-|Hy]; auto.
  - elim (F y Hy). exact E.
  - elim (F x Hx). now apply cmp_eq_sym.
Qed.

Lemma distinct_keys_tail {A K : Type} `{Ord K} (key : A -> K)
    (a : A) (l : list A) :
  distinct_keys key (a :: l) -> distinct_keys key l.
Proof. unfold distinct_keys. now inversion 1. Qed.

Lemma distinct_keys_head_not_in {A K : Type} `{Ord K} (key : A -> K)
    (a : A) (l : list A) :
  distinct_keys key (a :: l) -> ~ In a l.
Proof.
  unfold distinct_keys. inversion 1 as [|? ? F _]; subst. intros Ha.
  rewrite Forall_forall in F. apply (F a Ha). apply cmp_refl.
Qed.

(** With pairwise different ratios the correct extraction is unique, also
    across two stores that hold the same treasures. *)
Lemma extraction_unique (b1 b2 : list Treasure) (c : Z)
    (tr1 tr2 : Treasure) (a1 a2 : list Treasure) :
  Permutation b1 b2 -> distinct_ratios b1 ->
  extraction_correct b1 c tr1 a1 -> extraction_correct b2 c tr2 a2 ->
  tr1 = tr2 /\ Permutation a1 a2.
Proof.
  intros P D (I1 & F1 & M1 & P1 & _) (I2 & F2 & M2 & P2 & _).
  assert (I2' : In tr2 b1).
  { apply (Permutation_in tr2 (Permutation_sym P)). exact I2. }
  assert (I1' : In tr1 b2) by exact (Permutation_in tr1 P I1).
  assert (E : tr1 = tr2).
  { apply (@distinct_keys_In_eq _ _ _ value_to_weight_ratio b1 tr1 tr2 D I1 I2').
    apply ole_antisym_eq; auto. }
  subst tr2. split; [reflexivity|].
  apply (Permutation_cons_inv (a := tr1)).
  now rewrite <- P1, <- P2.
Qed.

(* ================================================================= *)
(** ** [data_structures/linked_stack.py] *)

(** Modelled from the spec: [LinkedStack] is not among the sources; "a
    last-in-first-out structure".  The top of the stack is the head. *)
Module LinkedStack.

Definition t (A : Type) : Type := list A.
Definition empty {A : Type} : t A := [].
Definition push {A : Type} (s : t A) (x : A) : t A := x :: s.
Definition pop {A : Type} (s : t A) : result (A * t A) :=
  match s with
  | [] => Raise IndexError
  | x :: s' => Ok (x, s')
  end.
Definition len {A : Type} (s : t A) : nat := length s.

End LinkedStack.

(* ================================================================= *)
(** ** [hollows.py]: [SpookyHollow] *)

Module SpookyHollow.

(** [self.treasures] after [restructure_hollow]: a [BetterBST] keyed by
    ratio. *)
Definition store : Type := tree Q Treasure.

(** The treasures in the store, in ascending in-order. *)
Definition stored (treasures : store) : list Treasure :=
  map snd (inorder treasures).

Section WithSide.
Variable side : tie_side.

(** [SpookyHollow.restructure_hollow] *)
Definition restructure_hollow (treasures : list Treasure) : result store :=
  let numbers :=
    map (fun treasure => (value_to_weight_ratio treasure, treasure)) treasures in
  BetterBST side numbers.

End WithSide.

(** [for node in ordered_nodes: empty_stack.push(node)] *)
Definition push_all {A : Type} (nodes : list A) (s : LinkedStack.t A)
    : LinkedStack.t A :=
  fold_left (fun st node => LinkedStack.push st node) nodes s.

(** [for _ in range(len(empty_stack)): ordered_nodes.append(empty_stack.pop())] *)
Fixpoint pop_all {A : Type} (n : nat) (s : LinkedStack.t A) (ordered_nodes : list A)
    : result (list A) :=
  match n with
  | O => Ok ordered_nodes
  | S n' =>
      p <- LinkedStack.pop s ;;
      let '(node, s') := p in
      pop_all n' s' (ordered_nodes ++ [node])
  end.

(** [SpookyHollow.get_optimal_treasure]: the result and the store after the
    call. *)
Definition get_optimal_treasure (treasures : store) (backpack_capacity : Z)
    : result (option Treasure * store) :=
  if is_empty treasures then Ok (None, treasures)
  else
    match get_maximal treasures with
    | None => Raise AttributeError
    | Some (best_key, best_item) =>
        if fits_in backpack_capacity best_item then
          treasures' <- delitem treasures best_key ;;
          Ok (Some best_item, treasures')
        else
          let ordered_nodes := inorder treasures in
          let empty_stack := push_all ordered_nodes LinkedStack.empty in
          ordered_nodes <- pop_all (LinkedStack.len empty_stack) empty_stack [] ;;
          match find (fun node => fits_in backpack_capacity (snd node))
                     ordered_nodes with
          | None => Ok (None, treasures)
          | Some (treasure_to_delete, chosen_treasure) =>
              treasures' <- delitem treasures treasure_to_delete ;;
              Ok (Some chosen_treasure, treasures')
          end
    end.

(** A sequence of calls with the given capacities, on one store. *)
Fixpoint calls (treasures : store) (capacities : list Z)
    : result (list (option Treasure) * store) :=
  match capacities with
  | [] => Ok ([], treasures)
  | c :: capacities' =>
      p <- get_optimal_treasure treasures c ;;
      let '(r, treasures') := p in
      q <- calls treasures' capacities' ;;
      let '(rs, treasures'') := q in
      Ok (r :: rs, treasures'')
  end.

(** The invariant of a store whose ratios are pairwise different: strict
    search-tree order, and every key is the ratio of its item. *)
Definition store_ok (treasures : store) : Prop :=
  bst treasures /\
  Forall (fun e => fst e = value_to_weight_ratio (snd e)) (inorder treasures).

Lemma push_all_rev {A : Type} (nodes : list A) (s : LinkedStack.t A) :
  push_all nodes s = rev nodes ++ s.
Proof.
  revert s. induction nodes as [|x nodes IH]; intros s; [reflexivity|].
  cbn [push_all fold_left]. fold (push_all nodes (LinkedStack.push s x)).
  rewrite IH. unfold LinkedStack.push. cbn [rev]. now rewrite <- app_assoc.
Qed.

Lemma pop_all_spec {A : Type} (s : LinkedStack.t A) (acc : list A) :
  pop_all (LinkedStack.len s) s acc = Ok (acc ++ s).
Proof.
  revert acc. induction s as [|x s IH]; intros acc; cbn.
  - now rewrite app_nil_r.
  - unfold LinkedStack.len in IH. rewrite IH. now rewrite <- app_assoc.
Qed.

Lemma find_app {A : Type} (p : A -> bool) (l1 l2 : list A) :
  find p (l1 ++ l2) =
  match find p l1 with Some x => Some x | None => find p l2 end.
Proof.
  induction l1 as [|x l1 IH]; [reflexivity|]. simpl. now destruct (p x).
Qed.

(** Scanning the reversed list finds the last element that satisfies [p]. *)
Lemma find_rev_Some {A : Type} (p : A -> bool) (l : list A) (e : A) :
  find p (rev l) = Some e ->
  exists l1 l2, l = l1 ++ e :: l2 /\ p e = true /\
                Forall (fun x => p x = false) l2.
Proof.
  induction l as [|x l IH]; [discriminate|].
  cbn [rev]. rewrite find_app.
  destruct (find p (rev l)) as [y|] eqn:Ef.
  - intros [= ->]. destruct IH as (l1 & l2 & -> & Pe & F); [reflexivity|].
    exists (x :: l1), l2. auto.
  - cbn [find]. destruct (p x) eqn:Px; [|discriminate].
    intros [= ->]. exists [], l. repeat split; [assumption|].
    apply Forall_forall. intros z Hz.
    apply (find_none _ _ Ef). now apply -> in_rev.
Qed.

Lemma find_rev_None {A : Type} (p : A -> bool) (l : list A) :
  Forall (fun x => p x = false) l -> find p (rev l) = None.
Proof.
  intros F. destruct (find p (rev l)) as [e|] eqn:Ef; [|reflexivity].
  apply find_some in Ef as [He Pe]. apply in_rev in He.
  rewrite Forall_forall in F. rewrite (F e He) in Pe. discriminate.
Qed.

Definition keyed_by_ratio (l : list (Q * Treasure)) : Prop :=
  Forall (fun e => fst e = value_to_weight_ratio (snd e)) l.

(** The last element that fits, in a strictly ascending list keyed by ratio,
    is the correct extraction. *)
Lemma split_extraction_correct (c : Z) (l1 l2 : list (Q * Treasure))
    (e : Q * Treasure) :
  strictly_ascending fst (l1 ++ e :: l2) ->
  keyed_by_ratio (l1 ++ e :: l2) ->
  fits_in c (snd e) = true ->
  Forall (fun x => fits_in c (snd x) = false) l2 ->
  extraction_correct (map snd (l1 ++ e :: l2)) c (snd e) (map snd (l1 ++ l2)).
Proof.
  intros S Kr Fe F2.
  unfold strictly_ascending in S. apply StronglySorted_mid_iff in S.
  destruct S as (_ & _ & B1 & B2 & _).
  unfold keyed_by_ratio in Kr. rewrite Forall_forall in Kr, B1, B2, F2.
  assert (Ke : fst e = value_to_weight_ratio (snd e))
    by (apply Kr, in_elt).
  repeat split.
  - apply in_map, in_elt.
  - exact Fe.
  - intros x Hx Fx. apply in_map_iff in Hx as (e' & <- & He').
    assert (Ke' : fst e' = value_to_weight_ratio (snd e')) by now apply Kr.
    rewrite <- Ke, <- Ke'.
    apply in_app_or in He' as [He'|[<-|He']].
    + apply olt_ole. exact (B1 e' He').
    + apply ole_refl.
    + rewrite (F2 e' He') in Fx. discriminate.
  - rewrite !map_app. cbn [map]. symmetry. apply Permutation_middle.
  - intros Hin. apply in_map_iff in Hin as (e' & Es & He').
    assert (Ek : fst e' = fst e).
    { rewrite Ke, <- Es. apply Kr.
      apply in_app_or in He' as [?|?]; apply in_or_app; simpl; auto. }
    apply in_app_or in He' as [He'|He'].
    + apply (olt_irrefl (x := fst e)). rewrite <- Ek at 1. exact (B1 e' He').
    + apply (olt_irrefl (x := fst e)). rewrite <- Ek at 2. exact (B2 e' He').
Qed.

Lemma keyed_by_ratio_remove (l1 l2 : list (Q * Treasure)) (e : Q * Treasure) :
  keyed_by_ratio (l1 ++ e :: l2) -> keyed_by_ratio (l1 ++ l2).
Proof.
  unfold keyed_by_ratio. rewrite !Forall_app, Forall_cons_iff. tauto.
Qed.

(** Deleting the chosen node: the common end of both paths of
    [get_optimal_treasure]. *)
Lemma delete_chosen (treasures : store) (c : Z) (l1 l2 : list (Q * Treasure))
    (ratio : Q) (chosen : Treasure) :
  store_ok treasures ->
  inorder treasures = l1 ++ (ratio, chosen) :: l2 ->
  fits_in c chosen = true ->
  Forall (fun x => fits_in c (snd x) = false) l2 ->
  exists treasures',
    delitem treasures ratio = Ok treasures' /\
    extraction_correct (stored treasures) c chosen (stored treasures') /\
    store_ok treasures'.
Proof.
  intros [B Kr] E Fc F2.
  destruct (@delete_aux_split _ _ _ treasures l1 l2 (ratio, chosen) B E)
    as (t' & D & It & Bt).
  exists t'. split; [exact D|]. unfold stored, store_ok.
  rewrite It, E. split.
  - apply (@split_extraction_correct c l1 l2 (ratio, chosen)); try assumption.
    + unfold bst in B. now rewrite E in B.
    + unfold keyed_by_ratio. now rewrite <- E.
  - split; [exact Bt|].
    apply (@keyed_by_ratio_remove l1 l2 (ratio, chosen)).
    unfold keyed_by_ratio. now rewrite <- E.
Qed.

(** The scan of the slow path walks the in-order list backwards. *)
Lemma scan_order (treasures : store) :
  pop_all (LinkedStack.len (push_all (inorder treasures) LinkedStack.empty))
          (push_all (inorder treasures) LinkedStack.empty) []
  = Ok (rev (inorder treasures)).
Proof.
  rewrite pop_all_spec, push_all_rev. unfold LinkedStack.empty.
  now rewrite app_nil_r.
Qed.

(** What a call does to a store that satisfies the invariant. *)
Lemma tree_call_spec (treasures : store) (c : Z) :
  store_ok treasures ->
  match get_optimal_treasure treasures c with
  | Ok (Some tr, treasures') =>
      extraction_correct (stored treasures) c tr (stored treasures') /\
      store_ok treasures'
  | Ok (None, treasures') =>
      treasures' = treasures /\
      Forall (fun x => fits_in c x = false) (stored treasures)
  | Raise _ => False
  end.
Proof.
  intros OK. unfold get_optimal_treasure.
  destruct (tree_nil_dec treasures) as [->|N]; [simpl; auto|].
  replace (is_empty treasures) with false
    by (destruct treasures; [congruence|reflexivity]).
  destruct (get_maximal_inorder N) as (front & [bk bi] & E & G). rewrite G.
  destruct (fits_in c bi) eqn:Fb.
  - destruct (@delete_chosen treasures c front [] bk bi OK E Fb)
      as (t' & D & X & OK'); [constructor|].
    rewrite D. cbn [bind]. auto.
  - rewrite scan_order. cbn [bind].
    destruct (find _ (rev (inorder treasures))) as [[r tr]|] eqn:Ef.
    + apply find_rev_Some in Ef as (l1 & l2 & E' & Ft & F2).
      destruct (@delete_chosen treasures c l1 l2 r tr OK E' Ft F2)
        as (t' & D & X & OK').
      rewrite D. cbn [bind]. auto.
    + split; [reflexivity|]. unfold stored. apply Forall_map.
      apply Forall_forall. intros e He.
      apply (find_none _ _ Ef). now apply -> in_rev.
Qed.

Lemma distinct_ratios_numbers (treasures : list Treasure) :
  distinct_ratios treasures ->
  distinct_keys fst
    (map (fun treasure => (value_to_weight_ratio treasure, treasure)) treasures).
Proof.
  unfold distinct_ratios, distinct_keys.
  induction 1 as [|x l F _ IH]; [constructor|].
  cbn [map]. constructor; [|exact IH].
  apply Forall_map. exact F.
Qed.

(** A store built from treasures of pairwise different ratios satisfies the
    invariant and holds exactly these treasures. *)
Lemma restructure_hollow_ok (side : tie_side) (treasures : list Treasure) :
  distinct_ratios treasures ->
  exists s : store,
    restructure_hollow side treasures = Ok s /\
    store_ok s /\ Permutation (stored s) treasures.
Proof.
  intros D. unfold restructure_hollow.
  set (numbers := map _ treasures).
  assert (Dn : distinct_keys fst numbers) by now apply distinct_ratios_numbers.
  destruct (BetterBST_distinct_inorder side Dn) as (s & B & E).
  exists s. split; [exact B|].
  assert (P : Permutation (inorder s) numbers)
    by (rewrite E; apply mergesort_perm).
  repeat split.
  - unfold bst. rewrite E. now apply mergesort_strict.
  - eapply Permutation_Forall; [symmetry; exact P|].
    subst numbers. apply Forall_map. now apply Forall_forall.
  - unfold stored. rewrite P. subst numbers.
    rewrite map_map. cbn [snd]. now rewrite map_id.
Qed.

Lemma store_ok_distinct (treasures : store) :
  store_ok treasures -> distinct_ratios (stored treasures).
Proof.
  intros [B Kr]. unfold bst, strictly_ascending in B.
  unfold stored, distinct_ratios, distinct_keys.
  induction B as [|e l S IH F]; [constructor|].
  inversion Kr as [|? ? Ke Kl]; subst.
  cbn [map]. constructor; [|now apply IH].
  apply Forall_map. rewrite Forall_forall in *.
  intros e' He'. specialize (F e' He'). specialize (Kl e' He').
  unfold key_lt, olt in F. rewrite Ke, Kl in F.
  cbn [cmp Q_Ord] in *. congruence.
Qed.

(** Where the ratios are pairwise different the extraction is as the
    docstring asks: for every [SpookyHollow] store whose ratios are pairwise
    different (strict search-tree order, keys the ratios of their items) and
    every capacity [c], if some stored treasure has weight <= c, then
    [get_optimal_treasure c] returns a stored treasure that fits and whose
    ratio is maximal among the stored treasures that fit; exactly that
    treasure is removed (the store afterwards is a permutation of the rest
    and no longer contains it), and the invariant holds again. *)
Theorem get_optimal_treasure_extracts (treasures : store) (c : Z) :
  store_ok treasures ->
  (exists x, In x (stored treasures) /\ fits_in c x = true) ->
  exists (tr : Treasure) (treasures' : store),
    get_optimal_treasure treasures c = Ok (Some tr, treasures') /\
    extraction_correct (stored treasures) c tr (stored treasures') /\
    store_ok treasures'.
Proof.
  intros OK (x & Hx & Fx).
  pose proof (tree_call_spec c OK) as S.
  destruct (get_optimal_treasure treasures c) as [[[tr|] t']|e];
    [| |contradiction].
  - exists tr, t'. tauto.
  - destruct S as [_ F]. rewrite Forall_forall in F.
    rewrite (F x Hx) in Fx. discriminate.
Qed.

(** C3: if the store is empty, or no stored treasure has weight <= c, then
    [get_optimal_treasure c] returns [None] and the store is unchanged. *)
Theorem get_optimal_treasure_none (treasures : store) (c : Z) :
  treasures = Nil \/
  (forall x, In x (stored treasures) -> fits_in c x = false) ->
  get_optimal_treasure treasures c = Ok (None, treasures).
Proof.
  intros Hyp. unfold get_optimal_treasure.
  destruct (tree_nil_dec treasures) as [->|N]; [reflexivity|].
  destruct Hyp as [->|Unfit]; [congruence|].
  replace (is_empty treasures) with false
    by (destruct treasures; [congruence|reflexivity]).
  destruct (get_maximal_inorder N) as (front & [bk bi] & E & G). rewrite G.
  assert (Fb : fits_in c bi = false).
  { apply Unfit. unfold stored. rewrite E, map_app. apply in_or_app.
    right. now left. }
  rewrite Fb, scan_order. cbn [bind].
  rewrite find_rev_None; [reflexivity|].
  apply Forall_forall. intros e He. apply Unfit.
  unfold stored. now apply in_map.
Qed.

(** *** Examples *)

Definition gem : Treasure := mkTreasure "gem" 10 2.
Definition anvil : Treasure := mkTreasure "anvil" 5 5.
Definition crown : Treasure := mkTreasure "crown" 90 10.

(** The store [restructure_hollow] builds from [gem; anvil; crown]. *)
Definition example_store : store :=
  TreeNode (10 # 2)%Q gem
    (TreeNode (5 # 5)%Q anvil Nil Nil)
    (TreeNode (90 # 10)%Q crown Nil Nil).

Lemma example_store_built (side : tie_side) :
  restructure_hollow side [gem; anvil; crown] = Ok example_store.
Proof. destruct side; reflexivity. Qed.

Lemma example_store_ok : store_ok example_store.
Proof.
  split; [unfold bst, strictly_ascending|]; simpl; repeat constructor.
Qed.

Lemma get_optimal_treasure_extracts_witness :
  store_ok example_store /\
  (exists x, In x (stored example_store) /\ fits_in 3 x = true) /\
  exists (tr : Treasure) (treasures' : store),
    get_optimal_treasure example_store 3 = Ok (Some tr, treasures') /\
    extraction_correct (stored example_store) 3 tr (stored treasures') /\
    store_ok treasures'.
Proof.
  assert (F : exists x, In x (stored example_store) /\ fits_in 3 x = true).
  { exists gem. split; [simpl; auto|reflexivity]. }
  split; [exact example_store_ok|]. split; [exact F|].
  exact (@get_optimal_treasure_extracts example_store 3 example_store_ok F).
Defined.

Lemma get_optimal_treasure_none_witness :
  (example_store = Nil \/
   (forall x, In x (stored example_store) -> fits_in 1 x = false)) /\
  get_optimal_treasure example_store 1 = Ok (None, example_store).
Proof.
  assert (U : example_store = Nil \/
              (forall x, In x (stored example_store) -> fits_in 1 x = false)).
  { right. simpl. intros x [<-|[<-|[<-|[]]]]; reflexivity. }
  split; [exact U|]. exact (@get_optimal_treasure_none example_store 1 U).
Defined.

(** Two treasures of one ratio: a heavy one and a light one. *)
Definition ingot : Treasure := mkTreasure "ingot" 20 10.
Definition coin : Treasure := mkTreasure "coin" 2 1.

Definition tied_store_left : store :=
  TreeNode (20 # 10)%Q ingot (TreeNode (2 # 1)%Q coin Nil Nil) Nil.
Definition tied_store_right : store :=
  TreeNode (20 # 10)%Q ingot Nil (TreeNode (2 # 1)%Q coin Nil Nil).

(** The extraction goes wrong on a store that holds two treasures of one
    ratio:
    deletion is by key, so the call returns [coin] and removes [ingot];
    [coin] is still stored afterwards. *)
Lemma get_optimal_treasure_removes_other :
  (restructure_hollow TieLeft [ingot; coin] = Ok tied_store_left /\
   (exists x, In x (stored tied_store_left) /\ fits_in 5 x = true) /\
   ~ (exists (tr : Treasure) (treasures' : store),
        get_optimal_treasure tied_store_left 5 = Ok (Some tr, treasures') /\
        extraction_correct (stored tied_store_left) 5 tr (stored treasures'))) /\
  (restructure_hollow TieRight [ingot; coin] = Ok tied_store_right /\
   (exists x, In x (stored tied_store_right) /\ fits_in 5 x = true) /\
   ~ (exists (tr : Treasure) (treasures' : store),
        get_optimal_treasure tied_store_right 5 = Ok (Some tr, treasures') /\
        extraction_correct (stored tied_store_right) 5 tr (stored treasures'))).
Proof.
  split; (split; [reflexivity|]);
    (split; [exists coin; split; [simpl; auto|reflexivity]|]);
    intros (tr & t' & E & X); vm_compute in E;
    injection E as <- <-;
    destruct X as (_ & _ & _ & _ & N); apply N; simpl; auto.
Qed.

End SpookyHollow.

(* ================================================================= *)
(** ** [data_structures/heap.py]: [MaxHeap] *)

(** Replace the element at index [i]; nothing happens out of range. *)
Fixpoint upd {A : Type} (l : list A) (i : nat) (v : A) : list A :=
  match l, i with
  | [], _ => []
  | _ :: l', O => v :: l'
  | x :: l', S i' => x :: upd l' i' v
  end.

Lemma length_upd {A : Type} (l : list A) (i : nat) (v : A) :
  length (upd l i v) = length l.
Proof.
  revert i. induction l as [|x l IH]; intros [|i]; simpl; auto.
Qed.

Lemma nth_error_upd_same {A : Type} (l : list A) (i : nat) (v : A) :
  i < length l -> nth_error (upd l i v) i = Some v.
Proof.
  revert i. induction l as [|x l IH]; intros [|i] Hi; simpl in *;
    try lia; [reflexivity|]. apply IH. lia.
Qed.

Lemma nth_error_upd_other {A : Type} (l : list A) (i n : nat) (v : A) :
  n <> i -> nth_error (upd l i v) n = nth_error l n.
Proof.
  revert i n. induction l as [|x l IH]; intros [|i] [|n] Hn; simpl;
    try reflexivity; try congruence. apply IH. congruence.
Qed.

Lemma upd_perm {A : Type} (l : list A) (i : nat) (x y : A) :
  nth_error l i = Some x -> Permutation (y :: l) (x :: upd l i y).
Proof.
  revert i. induction l as [|a l IH]; intros [|i] E; simpl in E;
    try discriminate.
  - injection E as ->. simpl. apply perm_swap.
  - simpl. rewrite perm_swap. rewrite (IH i E). apply perm_swap.
Qed.

Module MaxHeap.
Section WithOrd.
Context {T : Type} `{Ord T}.

(** Modelled from the spec: [data_structures.heap.MaxHeap] is not among the
    sources.  "Array-backed max-heap keyed by ratio"; "every node's key >=
    both children's keys".  The heap is the list of its live elements, the
    root at index 0, the children of index [k] at [2k+1] and [2k+2]. *)
Definition heap : Type := list T.

Definition len (h : heap) : nat := length h.

Definition parent (k : nat) : nat := (k - 1) / 2.

Definition swap (the_array : heap) (i j : nat) : heap :=
  match nth_error the_array i, nth_error the_array j with
  | Some x, Some y => upd (upd the_array i y) j x
  | _, _ => the_array
  end.

(** Move the element at [k] up while it is greater than its parent. *)
Fixpoint rise_aux (fuel : nat) (the_array : heap) (k : nat) : heap :=
  match fuel with
  | O => the_array
  | S fuel' =>
      if k =? 0 then the_array
      else
        match nth_error the_array k, nth_error the_array (parent k) with
        | Some item, Some up =>
            if py_gt item up
            then rise_aux fuel' (swap the_array k (parent k)) (parent k)
            else the_array
        | _, _ => the_array
        end
  end.

Definition rise (the_array : heap) (k : nat) : heap :=
  rise_aux (S k) the_array k.

(** The index of the greater child of [k], if [k] has a child. *)
Definition largest_child (the_array : heap) (k : nat) : option nat :=
  match nth_error the_array (2 * k + 1), nth_error the_array (2 * k + 2) with
  | None, _ => None
  | Some _, None => Some (2 * k + 1)
  | Some l, Some r => if py_gt l r then Some (2 * k + 1) else Some (2 * k + 2)
  end.

(** Move the element at [k] down while a child is greater. *)
Fixpoint sink_aux (fuel : nat) (the_array : heap) (k : nat) : heap :=
  match fuel with
  | O => the_array
  | S fuel' =>
      match largest_child the_array k with
      | None => the_array
      | Some max_child =>
          match nth_error the_array max_child, nth_error the_array k with
          | Some child, Some item =>
              if py_le child item then the_array
              else sink_aux fuel' (swap the_array k max_child) max_child
          | _, _ => the_array
          end
      end
  end.

Definition sink (the_array : heap) (k : nat) : heap :=
  sink_aux (length the_array) the_array k.

(** [MaxHeap.add]: "reinsert ... back into the heap, O(log n)". *)
Definition add (h : heap) (element : T) : heap :=
  rise (h ++ [element]) (length h).

(** [MaxHeap.get_max]: "pop the maximum element (O(log n))": the root is
    returned, the last element takes its place and sinks. *)
Definition get_max (h : heap) : result (T * heap) :=
  match h with
  | [] => Raise IndexError
  | max_elt :: rest =>
      match rest with
      | [] => Ok (max_elt, [])
      | _ => Ok (max_elt, sink (upd (removelast h) 0 (last h max_elt)) 0)
      end
  end.

(** [MaxHeap.heapify]: "built once via heapify over a full treasure list,
    O(n)": bottom-up, sinking every index from the last to the root. *)
Fixpoint heapify_loop (i : nat) (the_array : heap) : heap :=
  match i with
  | O => the_array
  | S i' => heapify_loop i' (sink the_array i')
  end.

Definition heapify (points : list T) : heap :=
  heapify_loop (length points) points.

(** *** The heap keeps its elements *)

Lemma swap_perm (l : heap) (i j : nat) : Permutation (swap l i j) l.
Proof.
  unfold swap.
  destruct (nth_error l i) as [x|] eqn:Ei; [|reflexivity].
  destruct (nth_error l j) as [y|] eqn:Ej; [|reflexivity].
  pose proof (upd_perm l i y Ei) as P1.
  assert (Ej' : nth_error (upd l i y) j = Some y).
  { destruct (Nat.eq_dec j i) as [->|N].
    - apply nth_error_upd_same. apply nth_error_Some. congruence.
    - now rewrite nth_error_upd_other. }
  pose proof (upd_perm (upd l i y) j x Ej') as P2.
  apply (Permutation_cons_inv (a := y)).
  rewrite <- P2. symmetry. exact P1.
Qed.

Lemma rise_aux_perm (fuel : nat) (l : heap) (k : nat) :
  Permutation (rise_aux fuel l k) l.
Proof.
  revert l k. induction fuel as [|fuel IH]; intros l k; simpl; [reflexivity|].
  destruct (k =? 0); [reflexivity|].
  destruct (nth_error l k); [|reflexivity].
  destruct (nth_error l (parent k)); [|reflexivity].
  destruct (py_gt _ _); [|reflexivity].
  rewrite IH. apply swap_perm.
Qed.

Lemma sink_aux_perm (fuel : nat) (l : heap) (k : nat) :
  Permutation (sink_aux fuel l k) l.
Proof.
  revert l k. induction fuel as [|fuel IH]; intros l k; cbn [sink_aux];
    [reflexivity|].
  destruct (largest_child l k) as [m|]; [|reflexivity].
  destruct (nth_error l m); [|reflexivity].
  destruct (nth_error l k); [|reflexivity].
  destruct (py_le _ _); [reflexivity|].
  rewrite IH. apply swap_perm.
Qed.

Lemma add_perm (h : heap) (x : T) : Permutation (add h x) (x :: h).
Proof.
  unfold add, rise. rewrite rise_aux_perm.
  symmetry. apply Permutation_cons_append.
Qed.

Lemma get_max_perm (h : heap) (m : T) (h' : heap) :
  get_max h = Ok (m, h') -> Permutation h (m :: h').
Proof.
  unfold get_max. destruct h as [|root rest]; [discriminate|].
  destruct rest as [|y rest]; [intros [= <- <-]; reflexivity|].
  intros [= <- <-]. unfold sink. rewrite sink_aux_perm.
  set (l := root :: y :: rest).
  assert (E : l = removelast l ++ [last l root])
    by (apply app_removelast_last; discriminate).
  assert (E0 : nth_error (removelast l) 0 = Some root) by reflexivity.
  pose proof (upd_perm (removelast l) 0 (last l root) E0) as P.
  change (Permutation l (root :: upd (removelast l) 0 (last l root))).
  rewrite <- P. rewrite E at 1. symmetry. apply Permutation_cons_append.
Qed.

Lemma heapify_loop_perm (i : nat) (l : heap) :
  Permutation (heapify_loop i l) l.
Proof.
  revert l. induction i as [|i IH]; intros l; simpl; [reflexivity|].
  rewrite IH. apply sink_aux_perm.
Qed.

Lemma heapify_perm (points : list T) : Permutation (heapify points) points.
Proof. apply heapify_loop_perm. Qed.

Lemma get_max_nonempty (h : heap) :
  h <> [] -> exists m h', get_max h = Ok (m, h').
Proof.
  destruct h as [|root [|y rest]]; [congruence| |]; intros _; simpl; eauto.
Qed.

(** *** The heap order *)

Definition child (p c : nat) : Prop := c = 2 * p + 1 \/ c = 2 * p + 2.

(** The element at [p], if any, is >= the element at [c], if any. *)
Definition dominates (l : heap) (p c : nat) : Prop :=
  forall x y, nth_error l p = Some x -> nth_error l c = Some y -> ole y x.

(** Every node at an index >= [lo] is >= both its children. *)
Definition heap_from (lo : nat) (l : heap) : Prop :=
  forall p c, lo <= p -> child p c -> dominates l p c.

(** "Heap: every node's key >= both children's keys." *)
Definition heap_ordered (l : heap) : Prop := heap_from 0 l.

Lemma length_swap (l : heap) (i j : nat) : length (swap l i j) = length l.
Proof. apply Permutation_length, swap_perm. Qed.

Lemma nth_error_swap (l : heap) (i j n : nat) (x y : T) :
  nth_error l i = Some x -> nth_error l j = Some y ->
  nth_error (swap l i j) n =
  if n =? j then Some x else if n =? i then Some y else nth_error l n.
Proof.
  intros Ei Ej. unfold swap. rewrite Ei, Ej.
  assert (Li : i < length l) by (apply nth_error_Some; congruence).
  assert (Lj : j < length l) by (apply nth_error_Some; congruence).
  destruct (Nat.eqb_spec n j) as [->|Nj].
  - apply nth_error_upd_same. now rewrite length_upd.
  - rewrite nth_error_upd_other by assumption.
    destruct (Nat.eqb_spec n i) as [->|Ni].
    + now apply nth_error_upd_same.
    + now apply nth_error_upd_other.
Qed.

Lemma largest_child_None (l : heap) (k : nat) :
  largest_child l k = None ->
  forall c, child k c -> nth_error l c = None.
Proof.
  unfold largest_child.
  destruct (nth_error l (2 * k + 1)) as [a|] eqn:Ea.
  - destruct (nth_error l (2 * k + 2)); [destruct (py_gt _ _)|]; discriminate.
  - intros _ c [->| ->]; [assumption|].
    apply nth_error_None. apply nth_error_None in Ea. lia.
Qed.

Lemma largest_child_Some (l : heap) (k m : nat) :
  largest_child l k = Some m ->
  child k m /\
  exists ym, nth_error l m = Some ym /\
    forall c y, child k c -> nth_error l c = Some y -> ole y ym.
Proof.
  unfold largest_child, child.
  destruct (nth_error l (2 * k + 1)) as [a|] eqn:Ea; [|discriminate].
  destruct (nth_error l (2 * k + 2)) as [b|] eqn:Eb.
  - destruct (py_gt a b) eqn:G; intros [= <-].
    + split; [now left|]. exists a. split; [assumption|].
      intros c y [->| ->] Ey.
      * assert (y = a) as -> by congruence. apply ole_refl.
      * assert (y = b) as -> by congruence.
        apply olt_ole. now apply py_gt_iff.
    + split; [now right|]. exists b. split; [assumption|].
      intros c y [->| ->] Ey.
      * assert (y = a) as -> by congruence.
        unfold ole. unfold py_gt in G. destruct (cmp a b); congruence.
      * assert (y = b) as -> by congruence. apply ole_refl.
  - intros [= <-]. split; [now left|]. exists a. split; [assumption|].
    intros c y [->| ->] Ey; [|congruence].
    assert (y = a) as -> by congruence. apply ole_refl.
Qed.

(** The state of the array while the element at [k] sinks: the heap order
    holds from [lo] on everywhere but at [k], and the parent of [k]
    already dominates the children of [k]. *)
Definition sink_inv (lo k : nat) (l : heap) : Prop :=
  (forall p c, lo <= p -> p <> k -> child p c -> dominates l p c) /\
  (forall g c, lo <= g -> child g k -> child k c -> dominates l g c).

Lemma sink_aux_heap (lo : nat) :
  forall (fuel : nat) (l : heap) (k : nat),
  length l - k <= fuel -> lo <= k -> sink_inv lo k l ->
  heap_from lo (sink_aux fuel l k).
Proof.
  induction fuel as [|fuel IH]; intros l k Hf Hlo [Ia Ib].
  - (* no index below k *)
    cbn [sink_aux]. intros p c Hp Hc.
    destruct (Nat.eq_dec p k) as [->|Np]; [|now apply Ia].
    intros x y Hx Hy.
    assert (k < length l) by (apply nth_error_Some; congruence). lia.
  - cbn [sink_aux].
    destruct (largest_child l k) as [m|] eqn:Lc.
    2:{ intros p c Hp Hc.
        destruct (Nat.eq_dec p k) as [->|Np]; [|now apply Ia].
        intros x y Hx Hy. rewrite (@largest_child_None l k Lc c Hc) in Hy.
        discriminate. }
    destruct (@largest_child_Some l k m Lc) as (Ckm & ym & Em & Big).
    rewrite Em.
    destruct (nth_error l k) as [item|] eqn:Ek.
    2:{ intros p c Hp Hc.
        destruct (Nat.eq_dec p k) as [->|Np]; [|now apply Ia].
        intros x y Hx Hy. congruence. }
    destruct (py_le ym item) eqn:Le.
    + (* the element stays *)
      apply py_le_iff in Le. intros p c Hp Hc.
      destruct (Nat.eq_dec p k) as [->|Np]; [|now apply Ia].
      intros x y Hx Hy. rewrite Ek in Hx. injection Hx as <-.
      eapply ole_trans; [eapply Big; eauto|exact Le].
    + (* the element and its greater child change places *)
      assert (Lt : olt item ym).
      { apply not_ole_olt. intros L. apply py_le_iff in L. congruence. }
      assert (Hm : m < length l) by (apply nth_error_Some; congruence).
      assert (Hkm : k < m) by (destruct Ckm; lia).
      apply IH; [rewrite length_swap; lia|lia|].
      pose proof (fun n => @nth_error_swap l k m n _ _ Ek Em) as Sw.
      split.
      * intros p c Hp Np Hc x y Hx Hy.
        rewrite Sw in Hx, Hy.
        destruct (Nat.eqb_spec p m) as [->|_]; [congruence|].
        destruct (Nat.eqb_spec p k) as [->|Npk].
        -- injection Hx as <-.
           destruct (Nat.eqb_spec c m) as [->|Ncm].
           ++ injection Hy as <-. now apply olt_ole.
           ++ destruct (Nat.eqb_spec c k) as [->|_];
                [destruct Hc; lia|].
              eapply Big; eauto.
        -- destruct (Nat.eqb_spec c m) as [->|Ncm];
             [destruct Hc, Ckm; lia|].
           destruct (Nat.eqb_spec c k) as [->|Nck].
           ++ injection Hy as <-. eapply (Ib p m); eauto.
           ++ eapply (Ia p c); eauto.
      * intros g c Hg Hgm Hc x y Hx Hy.
        assert (g = k) as -> by (destruct Hgm, Ckm; lia).
        rewrite Sw in Hx, Hy.
        destruct (Nat.eqb_spec k m) as [->|_]; [lia|].
        rewrite Nat.eqb_refl in Hx. injection Hx as <-.
        destruct (Nat.eqb_spec c m) as [->|_]; [destruct Hc; lia|].
        destruct (Nat.eqb_spec c k) as [->|_]; [destruct Hc; lia|].
        eapply (Ia m c); eauto; lia.
Qed.

Lemma sink_heap (lo : nat) (l : heap) (k : nat) :
  lo <= k -> sink_inv lo k l -> heap_from lo (sink l k).
Proof. intros. apply sink_aux_heap; [lia|assumption|assumption]. Qed.

Lemma parent_child (k : nat) : k <> 0 -> child (parent k) k.
Proof.
  intros Hk. unfold child, parent.
  pose proof (Nat.div_mod_eq (k - 1) 2) as E.
  pose proof (Nat.mod_upper_bound (k - 1) 2 ltac:(lia)) as B.
  lia.
Qed.

(** The state of the array while the element at [k] rises: the heap order
    holds everywhere but between [k] and its parent, and the parent of [k]
    dominates the children of [k]. *)
Definition rise_inv (k : nat) (l : heap) : Prop :=
  (forall p c, c <> k -> child p c -> dominates l p c) /\
  (forall p c, child p k -> child k c -> dominates l p c).

Lemma rise_aux_heap :
  forall (fuel : nat) (l : heap) (k : nat),
  k < fuel -> rise_inv k l -> heap_ordered (rise_aux fuel l k).
Proof.
  induction fuel as [|fuel IH]; intros l k Hf [Ia Ib]; [lia|].
  cbn [rise_aux].
  destruct (Nat.eqb_spec k 0) as [->|Hk].
  { intros p c _ Hc. apply Ia; [destruct Hc; lia|assumption]. }
  pose proof (parent_child Hk) as Cpk.
  set (q := parent k) in *.
  assert (Hq : q < k) by (destruct Cpk; lia).
  destruct (nth_error l k) as [item|] eqn:Ek.
  2:{ intros p c _ Hc. destruct (Nat.eq_dec c k) as [->|Nc]; [|now apply Ia].
      intros x y Hx Hy. congruence. }
  destruct (nth_error l q) as [up|] eqn:Eq.
  2:{ intros p c _ Hc. destruct (Nat.eq_dec c k) as [->|Nc]; [|now apply Ia].
      assert (p = q) as -> by (destruct Hc, Cpk; lia).
      intros x y Hx Hy. congruence. }
  destruct (py_gt item up) eqn:G.
  - apply py_gt_iff in G.
    apply IH; [lia|].
    pose proof (fun n => @nth_error_swap l k q n _ _ Ek Eq) as Sw.
    split.
    + intros p c Nc Hc x y Hx Hy. rewrite Sw in Hx, Hy.
      destruct (Nat.eqb_spec c q) as [->|_]; [congruence|].
      destruct (Nat.eqb_spec c k) as [->|Nck].
      * assert (p = q) as -> by (destruct Hc, Cpk; lia).
        rewrite Nat.eqb_refl in Hx. injection Hx as <-. injection Hy as <-.
        now apply olt_ole.
      * destruct (Nat.eqb_spec p q) as [->|Npq].
        -- injection Hx as <-.
           eapply ole_trans; [|apply olt_ole; exact G].
           eapply (Ia q c); eauto.
        -- destruct (Nat.eqb_spec p k) as [->|Npk].
           ++ injection Hx as <-. eapply (Ib q c); eauto.
           ++ eapply (Ia p c); eauto.
    + intros g c Hgq Hc x y Hx Hy. rewrite Sw in Hx, Hy.
      destruct (Nat.eqb_spec g q) as [->|_]; [destruct Hgq; lia|].
      destruct (Nat.eqb_spec g k) as [->|_]; [destruct Hgq; lia|].
      assert (Dgq : ole up x) by (eapply (Ia g q); eauto; lia).
      destruct (Nat.eqb_spec c q) as [->|_]; [destruct Hc; lia|].
      destruct (Nat.eqb_spec c k) as [->|Nck].
      * injection Hy as <-. exact Dgq.
      * eapply ole_trans; [|exact Dgq]. eapply (Ia q c); eauto.
  - intros p c _ Hc. destruct (Nat.eq_dec c k) as [->|Nc]; [|now apply Ia].
    assert (p = q) as -> by (destruct Hc, Cpk; lia).
    intros x y Hx Hy.
    assert (x = up) as -> by congruence. assert (y = item) as -> by congruence.
    unfold ole. unfold py_gt in G. destruct (cmp item up); congruence.
Qed.

Lemma add_heap (h : heap) (x : T) :
  heap_ordered h -> heap_ordered (add h x).
Proof.
  intros Ho. unfold add, rise. apply rise_aux_heap; [lia|].
  split.
  - intros p c Nc Hc a b Ha Hb.
    assert (Lc : c < length (h ++ [x])) by (apply nth_error_Some; congruence).
    rewrite length_app in Lc. simpl in Lc.
    assert (c < length h) by lia.
    assert (p < length h) by (destruct Hc; lia).
    rewrite nth_error_app1 in Ha, Hb by assumption.
    eapply (Ho p c); eauto. lia.
  - intros p c _ Hc a b Ha Hb.
    assert (Lc : c < length (h ++ [x])) by (apply nth_error_Some; congruence).
    rewrite length_app in Lc. simpl in Lc. destruct Hc; lia.
Qed.

Lemma nth_error_removelast (l : heap) (n : nat) :
  n < length l - 1 -> nth_error (removelast l) n = nth_error l n.
Proof.
  revert n. induction l as [|a l IH]; intros n Hn; [reflexivity|].
  destruct l as [|b l]; [simpl in Hn; lia|].
  cbn [removelast]. destruct n as [|n]; [reflexivity|].
  cbn [nth_error]. apply IH. simpl in *. lia.
Qed.

Lemma length_removelast (l : heap) : length (removelast l) = length l - 1.
Proof.
  induction l as [|a l IH]; [reflexivity|].
  destruct l as [|b l]; [reflexivity|].
  cbn [removelast length] in *. lia.
Qed.

(** The root of an ordered heap is a maximum. *)
Lemma root_is_max (l : heap) (root : T) :
  heap_ordered l -> nth_error l 0 = Some root ->
  Forall (fun y => ole y root) l.
Proof.
  intros Ho Er. apply Forall_forall. intros y Hy.
  apply In_nth_error in Hy as [n En]. revert y En.
  induction n as [n IH] using lt_wf_ind. intros y En.
  destruct (Nat.eq_dec n 0) as [->|Hn].
  - assert (y = root) as -> by congruence. apply ole_refl.
  - pose proof (parent_child Hn) as Cp.
    assert (Hp : parent n < n) by (destruct Cp; lia).
    assert (Ln : n < length l) by (apply nth_error_Some; congruence).
    destruct (nth_error l (parent n)) as [x|] eqn:Ex;
      [|apply nth_error_None in Ex; lia].
    eapply ole_trans; [|exact (IH _ Hp x Ex)].
    eapply (Ho (parent n) n); eauto. lia.
Qed.

Lemma get_max_cons (root y : T) (rest : list T) :
  get_max (root :: y :: rest) =
  Ok (root, sink (upd (removelast (root :: y :: rest)) 0
                    (last (root :: y :: rest) root)) 0).
Proof. reflexivity. Qed.

Lemma get_max_heap (h : heap) (m : T) (h' : heap) :
  heap_ordered h -> get_max h = Ok (m, h') ->
  heap_ordered h' /\ Forall (fun y => ole y m) h'.
Proof.
  intros Ho G.
  assert (Fm : Forall (fun y => ole y m) h').
  { pose proof (get_max_perm _ G) as P.
    assert (Er : nth_error h 0 = Some m).
    { destruct h as [|r [|y rest]]; cbn [get_max nth_error] in *; congruence. }
    pose proof (root_is_max Ho Er) as F.
    eapply Permutation_Forall in F; [|exact P]. now inversion F. }
  split; [|exact Fm]. clear Fm.
  destruct h as [|root rest]; [discriminate|].
  destruct rest as [|y rest].
  { injection G as _ <-. intros p c _ _ a b Ha. destruct p; discriminate. }
  rewrite get_max_cons in G.
  remember (root :: y :: rest) as l eqn:El.
  assert (G' : h' = sink (upd (removelast l) 0 (last l root)) 0) by congruence.
  rewrite G'. apply sink_heap; [lia|].
  split.
  - intros p c _ Np Hc a b Ha Hb.
    rewrite nth_error_upd_other in Ha by assumption.
    rewrite nth_error_upd_other in Hb by (destruct Hc; lia).
    assert (Lc : c < length l - 1).
    { rewrite <- length_removelast. apply nth_error_Some. congruence. }
    rewrite nth_error_removelast in Ha, Hb by (destruct Hc; lia).
    eapply (Ho p c); eauto. lia.
  - intros g c _ Hg. destruct Hg; lia.
Qed.

Lemma heapify_loop_heap (i : nat) (l : heap) :
  heap_from i l -> heap_ordered (heapify_loop i l).
Proof.
  revert l. induction i as [|i IH]; intros l Hi; [exact Hi|].
  cbn [heapify_loop]. apply IH. apply sink_heap; [lia|].
  split.
  - intros p c Hp Np Hc. apply Hi; [lia|assumption].
  - intros g c Hg Hgi. destruct Hgi; lia.
Qed.

Lemma heapify_heap (points : list T) : heap_ordered (heapify points).
Proof.
  apply heapify_loop_heap. intros p c Hp _ x y Hx.
  assert (p < length points) by (apply nth_error_Some; congruence). lia.
Qed.

End WithOrd.
End MaxHeap.

(* ================================================================= *)
(** ** [hollows.py]: [MysticalHollow] *)

Module MysticalHollow.

(** The attributes of a [MysticalHollow] object: [treasures] is the list
    [gen_treasures] produced, [heap] the [MaxHeap] built from it. *)
Record hollow : Type := mkHollow {
  treasures : list Treasure;
  heap : MaxHeap.heap (T := Treasure)
}.

(** [MysticalHollow.restructure_hollow]: only [self.heap] is assigned. *)
Definition restructure_hollow (self : hollow) : hollow :=
  {| treasures := treasures self;
     heap := MaxHeap.heapify (treasures self) |}.

(** [Hollow.__init__], with the list [gen_treasures] returned. *)
Definition __init__ (generated : list Treasure) : hollow :=
  restructure_hollow {| treasures := generated; heap := [] |}.

(** [Hollow.__len__] *)
Definition __len__ (self : hollow) : nat := length (treasures self).

(** [self.heap == 0]: a [MaxHeap] object is never equal to the integer 0. *)
Definition heap_equals_zero (h : MaxHeap.heap (T := Treasure)) : bool := false.

(** The [while len(self.heap) > 0] loop: pops until a treasure fits or the
    heap is exhausted; the treasures that do not fit are appended to
    [temporary_linked_list].  Returns [chosen_treasure], the heap and the
    list. *)
Fixpoint pop_until_fits (fuel : nat) (h : MaxHeap.heap (T := Treasure))
    (backpack_capacity : Z) (temporary_linked_list : list Treasure)
    : result (option Treasure * MaxHeap.heap (T := Treasure) * list Treasure) :=
  match fuel with
  | O => Raise OutOfFuel
  | S fuel' =>
      if 0 <? MaxHeap.len h then
        p <- MaxHeap.get_max h ;;
        let '(treasure, h') := p in
        if fits_in backpack_capacity treasure
        then Ok (Some treasure, h', temporary_linked_list)
        else pop_until_fits fuel' h' backpack_capacity
               (temporary_linked_list ++ [treasure])
      else Ok (None, h, temporary_linked_list)
  end.

(** [for treasure in temporary_linked_list: self.heap.add(treasure)] *)
Definition add_back (h : MaxHeap.heap (T := Treasure))
    (temporary_linked_list : list Treasure) : MaxHeap.heap (T := Treasure) :=
  fold_left (fun h' treasure => MaxHeap.add h' treasure) temporary_linked_list h.

(** [MysticalHollow.get_optimal_treasure]: the result and the object after
    the call. *)
Definition get_optimal_treasure (self : hollow) (backpack_capacity : Z)
    : result (option Treasure * hollow) :=
  if heap_equals_zero (heap self) then Ok (None, self)
  else
    r <- pop_until_fits (S (MaxHeap.len (heap self))) (heap self)
           backpack_capacity [] ;;
    let '(chosen_treasure, h, temporary_linked_list) := r in
    let h' := add_back h temporary_linked_list in
    Ok (chosen_treasure, {| treasures := treasures self; heap := h' |}).

Lemma add_back_perm (h : MaxHeap.heap (T := Treasure)) (temp : list Treasure) :
  Permutation (add_back h temp) (temp ++ h).
Proof.
  revert h. induction temp as [|x temp IH]; intros h; [reflexivity|].
  cbn [add_back fold_left]. fold (add_back (MaxHeap.add h x) temp).
  rewrite IH, MaxHeap.add_perm. simpl. symmetry. apply Permutation_middle.
Qed.

(** The loop always ends, and the popped elements are accounted for: the
    heap before is the heap after, the buffered treasures and the chosen
    one; every buffered treasure does not fit. *)
Lemma pop_until_fits_spec (fuel : nat) (h : MaxHeap.heap (T := Treasure))
    (c : Z) (temp : list Treasure) :
  MaxHeap.len h < fuel ->
  exists chosen h' temp',
    pop_until_fits fuel h c temp = Ok (chosen, h', temp ++ temp') /\
    Forall (fun x => fits_in c x = false) temp' /\
    match chosen with
    | Some tr => fits_in c tr = true /\ Permutation h (tr :: temp' ++ h')
    | None => h' = [] /\ Permutation h temp'
    end.
Proof.
  revert h temp. induction fuel as [|fuel IH]; intros h temp Hf; [lia|].
  cbn [pop_until_fits].
  destruct (Nat.ltb_spec 0 (MaxHeap.len h)) as [Hl|Hl].
  - destruct (@MaxHeap.get_max_nonempty _ _ h) as (m & h1 & G).
    { intros ->. simpl in Hl. lia. }
    rewrite G. cbn [bind].
    pose proof (MaxHeap.get_max_perm _ G) as P.
    destruct (fits_in c m) eqn:Fm.
    + exists (Some m), h1, []. rewrite app_nil_r. repeat split; auto.
    + destruct (IH h1 (temp ++ [m])) as (chosen & h' & temp' & E & F & X).
      { apply Permutation_length in P. unfold MaxHeap.len in *.
        simpl in P. lia. }
      exists chosen, h', (m :: temp'). rewrite E, <- app_assoc.
      split; [reflexivity|]. split; [now constructor|].
      destruct chosen as [tr|].
      * destruct X as [Ft X]. split; [exact Ft|].
        rewrite P, X. simpl. apply perm_swap.
      * destruct X as [-> X]. split; [reflexivity|]. now rewrite P, X.
  - exists None, h, []. rewrite app_nil_r.
    assert (h = []) as -> by (destruct h; [reflexivity|simpl in Hl; lia]).
    repeat split; auto.
Qed.

(** What a call does: it never raises, [treasures] is untouched, and the
    heap afterwards is the popped-off rest with the buffer added back. *)
Lemma heap_call_spec (self : hollow) (c : Z) :
  exists chosen h' temp',
    pop_until_fits (S (MaxHeap.len (heap self))) (heap self) c [] =
      Ok (chosen, h', temp') /\
    get_optimal_treasure self c =
      Ok (chosen, {| treasures := treasures self;
                     heap := add_back h' temp' |}) /\
    Forall (fun x => fits_in c x = false) temp' /\
    match chosen with
    | Some tr => fits_in c tr = true /\
                 Permutation (heap self) (tr :: temp' ++ h')
    | None => h' = [] /\ Permutation (heap self) temp'
    end.
Proof.
  unfold get_optimal_treasure, heap_equals_zero.
  destruct (@pop_until_fits_spec (S (MaxHeap.len (heap self))) (heap self) c [])
    as (chosen & h' & temp' & E & F & X); [lia|].
  exists chosen, h', temp'. cbn [app] in E. rewrite E. cbn [bind]. auto.
Qed.

(** A sequence of calls with the given capacities, on one object. *)
Fixpoint calls (self : hollow) (capacities : list Z)
    : result (list (option Treasure) * hollow) :=
  match capacities with
  | [] => Ok ([], self)
  | c :: capacities' =>
      p <- get_optimal_treasure self c ;;
      let '(r, self') := p in
      q <- calls self' capacities' ;;
      let '(rs, self'') := q in
      Ok (r :: rs, self'')
  end.

(** C2: for every [MysticalHollow] and capacity, the call returns, and the
    multiset of treasures in the heap afterwards is the multiset before minus
    the returned treasure when one is returned, and exactly the multiset
    before when the result is [None]. *)
Theorem get_optimal_treasure_heap_multiset (self : hollow) (c : Z) :
  exists (r : option Treasure) (self' : hollow),
    get_optimal_treasure self c = Ok (r, self') /\
    match r with
    | Some tr => Permutation (heap self) (tr :: heap self')
    | None => Permutation (heap self) (heap self')
    end.
Proof.
  destruct (heap_call_spec self c)
    as (chosen & h' & temp' & _ & E & _ & X).
  exists chosen. eexists. split; [exact E|]. cbn [heap].
  destruct chosen as [tr|].
  - destruct X as [_ P]. rewrite P, add_back_perm. reflexivity.
  - destruct X as [-> P]. rewrite P, add_back_perm. now rewrite app_nil_r.
Qed.

Lemma get_optimal_treasure_len (self : hollow) (c : Z) :
  exists (r : option Treasure) (self' : hollow),
    get_optimal_treasure self c = Ok (r, self') /\
    treasures self' = treasures self.
Proof.
  destruct (heap_call_spec self c)
    as (chosen & h' & temp' & _ & E & _ & _).
  exists chosen. eexists. split; [exact E|reflexivity].
Qed.

Lemma calls_treasures (self : hollow) (capacities : list Z) :
  exists (rs : list (option Treasure)) (self' : hollow),
    calls self capacities = Ok (rs, self') /\
    treasures self' = treasures self.
Proof.
  revert self. induction capacities as [|c cs IH]; intros self; cbn [calls].
  - eauto.
  - destruct (get_optimal_treasure_len self c) as (r & s1 & E & T1).
    destruct (IH s1) as (rs & s2 & E2 & T2).
    rewrite E. cbn [bind]. rewrite E2. cbn [bind].
    exists (r :: rs), s2. split; [reflexivity|congruence].
Qed.

(** C10: [len()] of a [MysticalHollow] is the length of the generated
    treasure list, and stays so after every sequence of calls to
    [get_optimal_treasure], successful extractions included:
    [restructure_hollow] and [get_optimal_treasure] only ever assign
    [self.heap]. *)
Theorem len_is_generated_length (generated : list Treasure)
    (capacities : list Z) :
  __len__ (__init__ generated) = length generated /\
  exists (rs : list (option Treasure)) (self' : hollow),
    calls (__init__ generated) capacities = Ok (rs, self') /\
    __len__ self' = length generated.
Proof.
  split; [reflexivity|].
  destruct (calls_treasures (__init__ generated) capacities)
    as (rs & self' & E & Tr).
  exists rs, self'. split; [exact E|].
  unfold __len__. now rewrite Tr.
Qed.

(** *** The heap order through a call *)

Lemma pop_until_fits_heap (fuel : nat) (h : MaxHeap.heap (T := Treasure))
    (c : Z) (temp : list Treasure) chosen h' temp2 :
  MaxHeap.heap_ordered h ->
  pop_until_fits fuel h c temp = Ok (chosen, h', temp2) ->
  MaxHeap.heap_ordered h' /\
  match chosen with
  | Some tr => Forall (fun y => ole y tr) h'
  | None => True
  end.
Proof.
  revert h temp. induction fuel as [|fuel IH]; intros h temp Ho E;
    [discriminate|].
  cbn [pop_until_fits] in E.
  destruct (0 <? MaxHeap.len h).
  - destruct (MaxHeap.get_max h) as [[m h1]|e] eqn:G; [|discriminate].
    cbn [bind] in E.
    destruct (MaxHeap.get_max_heap Ho G) as [Ho1 Fm].
    destruct (fits_in c m).
    + injection E as <- <- _. auto.
    + eapply IH; eauto.
  - injection E as <- <- _. auto.
Qed.

Lemma add_back_heap (h : MaxHeap.heap (T := Treasure)) (temp : list Treasure) :
  MaxHeap.heap_ordered h -> MaxHeap.heap_ordered (add_back h temp).
Proof.
  revert h. induction temp as [|x temp IH]; intros h Ho; [exact Ho|].
  cbn [add_back fold_left]. fold (add_back (MaxHeap.add h x) temp).
  apply IH. now apply MaxHeap.add_heap.
Qed.

(** What a call does to an ordered heap of pairwise different ratios. *)
Lemma heap_call_correct (self : hollow) (c : Z) :
  MaxHeap.heap_ordered (heap self) ->
  distinct_ratios (heap self) ->
  match get_optimal_treasure self c with
  | Ok (Some tr, self') =>
      extraction_correct (heap self) c tr (heap self') /\
      MaxHeap.heap_ordered (heap self')
  | Ok (None, self') =>
      Forall (fun x => fits_in c x = false) (heap self) /\
      Permutation (heap self') (heap self) /\
      MaxHeap.heap_ordered (heap self')
  | Raise _ => False
  end.
Proof.
  intros Ho D.
  destruct (heap_call_spec self c) as (chosen & h' & temp' & L & E & F & X).
  destruct (pop_until_fits_heap _ _ _ Ho L) as [Ho' Mx].
  rewrite E. destruct chosen as [tr|]; cbn [heap].
  - destruct X as [Ft P]. split; [|now apply add_back_heap].
    assert (P' : Permutation (heap self) (tr :: add_back h' temp'))
      by now rewrite P, add_back_perm.
    repeat split.
    + eapply Permutation_in; [symmetry; exact P|]. now left.
    + exact Ft.
    + intros x Hx Fx.
      apply (Permutation_in x P) in Hx. destruct Hx as [<-|Hx];
        [apply ole_refl|].
      apply in_app_or in Hx as [Hx|Hx].
      * rewrite Forall_forall in F. rewrite (F x Hx) in Fx. discriminate.
      * rewrite Forall_forall in Mx. exact (Mx x Hx).
    + exact P'.
    + apply (@distinct_keys_head_not_in _ _ _ value_to_weight_ratio).
      eapply distinct_keys_perm; [exact P'|exact D].
  - destruct X as [-> P]. repeat split.
    + eapply Permutation_Forall; [symmetry; exact P|exact F].
    + rewrite add_back_perm, app_nil_r. now symmetry.
    + now apply add_back_heap.
Qed.

End MysticalHollow.

(* ================================================================= *)
(** ** The two stores side by side *)

Section CrossStore.

(** A tree store and a heap that hold the same treasures, of pairwise
    different ratios, answer every sequence of capacities alike. *)
Lemma calls_agree (capacities : list Z) :
  forall (s : SpookyHollow.store) (m : MysticalHollow.hollow),
  SpookyHollow.store_ok s ->
  MaxHeap.heap_ordered (MysticalHollow.heap m) ->
  Permutation (SpookyHollow.stored s) (MysticalHollow.heap m) ->
  exists rs s' m',
    SpookyHollow.calls s capacities = Ok (rs, s') /\
    MysticalHollow.calls m capacities = Ok (rs, m').
Proof.
  induction capacities as [|c cs IH]; intros s m OK Ho P;
    cbn [SpookyHollow.calls MysticalHollow.calls]; [eauto|].
  pose proof (SpookyHollow.store_ok_distinct OK) as Ds.
  assert (Dm : distinct_ratios (MysticalHollow.heap m))
    by (eapply distinct_keys_perm; eauto).
  pose proof (SpookyHollow.tree_call_spec c OK) as S1.
  pose proof (MysticalHollow.heap_call_correct m c Ho Dm) as S2.
  destruct (SpookyHollow.get_optimal_treasure s c) as [[[tr1|] s1]|e1];
    [| |contradiction];
    (destruct (MysticalHollow.get_optimal_treasure m c) as [[[tr2|] m1]|e2];
      [| |contradiction]); cbn [bind].
  - destruct S1 as [X1 OK1], S2 as [X2 Ho1].
    destruct (extraction_unique P Ds X1 X2) as [<- P1].
    destruct (IH s1 m1 OK1 Ho1 P1) as (rs & s' & m' & E1 & E2).
    rewrite E1, E2. cbn [bind]. eauto.
  - exfalso. destruct S1 as [(I1 & F1 & _) _], S2 as [U _].
    rewrite Forall_forall in U.
    rewrite (U tr1 (Permutation_in tr1 P I1)) in F1. discriminate.
  - exfalso. destruct S1 as [_ U], S2 as [(I2 & F2 & _) _].
    rewrite Forall_forall in U.
    rewrite (U tr2 (Permutation_in tr2 (Permutation_sym P) I2)) in F2.
    discriminate.
  - destruct S1 as [-> _], S2 as (_ & Pm & Ho1).
    destruct (IH s m1 OK Ho1) as (rs & s' & m' & E1 & E2).
    { now rewrite Pm. }
    rewrite E1, E2. cbn [bind]. eauto.
Qed.

(** Both stores are built, the tree from [for_tree], the heap from
    [for_heap], every call returns, and the two sequences of results
    (treasures and [None]s) are the same list [rs]. *)
Definition same_sequence (side : tie_side)
    (for_tree for_heap : list Treasure) (capacities : list Z) : Prop :=
  exists (s : SpookyHollow.store) (rs : list (option Treasure))
         (s' : SpookyHollow.store) (m' : MysticalHollow.hollow),
    SpookyHollow.restructure_hollow side for_tree = Ok s /\
    SpookyHollow.calls s capacities = Ok (rs, s') /\
    MysticalHollow.calls (MysticalHollow.__init__ for_heap) capacities
      = Ok (rs, m').

(** Where no two treasures have the same ratio the two stores agree: a
    [SpookyHollow] and a [MysticalHollow] built from the
    same treasures (as multisets), no two of which have the same ratio,
    answer every sequence of capacities with the same sequence of results,
    under either tie side of the tree. *)
Theorem same_extraction_sequence (side : tie_side)
    (treasures1 treasures2 : list Treasure) (capacities : list Z) :
  Permutation treasures1 treasures2 ->
  distinct_ratios treasures1 ->
  same_sequence side treasures1 treasures2 capacities.
Proof.
  intros P D.
  destruct (SpookyHollow.restructure_hollow_ok side D) as (s & B & OK & Ps).
  destruct (@calls_agree capacities s (MysticalHollow.__init__ treasures2))
    as (rs & s' & m' & E1 & E2).
  - exact OK.
  - apply MaxHeap.heapify_heap.
  - cbn [MysticalHollow.__init__ MysticalHollow.restructure_hollow
         MysticalHollow.heap MysticalHollow.treasures].
    now rewrite MaxHeap.heapify_perm, Ps.
  - exists s, rs, s', m'. auto.
Qed.

End CrossStore.

Lemma example_treasures_distinct :
  distinct_ratios [SpookyHollow.gem; SpookyHollow.anvil; SpookyHollow.crown].
Proof.
  unfold distinct_ratios, distinct_keys.
  repeat (constructor; [repeat (constructor; [discriminate|]); constructor|]).
  constructor.
Qed.

Lemma same_extraction_sequence_witness :
  Permutation [SpookyHollow.gem; SpookyHollow.anvil; SpookyHollow.crown]
              [SpookyHollow.crown; SpookyHollow.gem; SpookyHollow.anvil] /\
  distinct_ratios [SpookyHollow.gem; SpookyHollow.anvil; SpookyHollow.crown] /\
  same_sequence TieLeft
    [SpookyHollow.gem; SpookyHollow.anvil; SpookyHollow.crown]
    [SpookyHollow.crown; SpookyHollow.gem; SpookyHollow.anvil]
    [3; 1; 20; 20]%Z.
Proof.
  assert (P : Permutation
                [SpookyHollow.gem; SpookyHollow.anvil; SpookyHollow.crown]
                [SpookyHollow.crown; SpookyHollow.gem; SpookyHollow.anvil]).
  { apply Permutation_sym. apply (Permutation_cons_app [_; _] []). reflexivity. }
  split; [exact P|]. split; [exact example_treasures_distinct|].
  exact (@same_extraction_sequence TieLeft _ _ [3; 1; 20; 20]%Z P
           example_treasures_distinct).
Defined.

(** The stores part on equal ratios, and not for a tie-break: of two
    treasures of one ratio only [coin] fits capacity 5, so no choice among
    equals is involved.
    The tree store deletes by key and removes [ingot] when it returns [coin];
    asked again it returns [coin] once more, while the heap has nothing left
    that fits.  This holds for both tie sides of the tree and both orders of
    the list the heap is built from. *)
Lemma stores_differ_on_equal_ratios :
  ~ same_sequence TieLeft [SpookyHollow.ingot; SpookyHollow.coin]
      [SpookyHollow.ingot; SpookyHollow.coin] [5; 5]%Z /\
  ~ same_sequence TieLeft [SpookyHollow.ingot; SpookyHollow.coin]
      [SpookyHollow.coin; SpookyHollow.ingot] [5; 5]%Z /\
  ~ same_sequence TieRight [SpookyHollow.ingot; SpookyHollow.coin]
      [SpookyHollow.ingot; SpookyHollow.coin] [5; 5]%Z /\
  ~ same_sequence TieRight [SpookyHollow.ingot; SpookyHollow.coin]
      [SpookyHollow.coin; SpookyHollow.ingot] [5; 5]%Z.
Proof.
  repeat split; intros (s & rs & s' & m' & E1 & E2 & E3);
    vm_compute in E1; injection E1 as <-;
    vm_compute in E2; injection E2 as <- <-;
    vm_compute in E3; discriminate.
Qed.

(** What the two stores answer there. *)
Remark tied_stores_answers :
  (s <- SpookyHollow.restructure_hollow TieRight
          [SpookyHollow.ingot; SpookyHollow.coin] ;;
   p <- SpookyHollow.calls s [5; 5]%Z ;; Ok (fst p))
  = Ok [Some SpookyHollow.coin; Some SpookyHollow.coin] /\
  (p <- MysticalHollow.calls
          (MysticalHollow.__init__ [SpookyHollow.ingot; SpookyHollow.coin])
          [5; 5]%Z ;; Ok (fst p))
  = Ok [Some SpookyHollow.coin; None].
Proof. split; reflexivity. Qed.

(* ================================================================= *)
(** ** [maze.py]: positions, cells and the grid *)

(** [l[i] = v] for a Python [int] index. *)
Definition py_setitem {A : Type} (l : list A) (i : Z) (v : A) : result (list A) :=
  let n := Z.of_nat (length l) in
  let j := if (i <? 0)%Z then (n + i)%Z else i in
  if ((j <? 0) || (n <=? j))%Z then Raise IndexError
  else Ok (upd l (Z.to_nat j) v).

Record Position : Type := mkPosition { row : Z; col : Z }.

(** [Position.__eq__] *)
Definition Position_eqb (p q : Position) : bool :=
  ((row p =? row q) && (col p =? col q))%Z.

Lemma Position_eqb_spec (p q : Position) : reflect (p = q) (Position_eqb p q).
Proof.
  unfold Position_eqb. destruct p as [r c], q as [r' c']. simpl.
  destruct (Z.eqb_spec r r'), (Z.eqb_spec c c'); simpl; constructor;
    congruence.
Qed.

Lemma Position_eq_dec (p q : Position) : {p = q} + {p <> q}.
Proof.
  destruct (Position_eqb_spec p q); [now left|now right].
Qed.

(** The values of [config.Tiles] a cell's [tile] is compared with, and the
    blank of a fresh cell.  [config.py] is not among the sources; only the
    distinctness of the symbols matters here. *)
Inductive Tiles : Type := EMPTY | START_POSITION | EXIT | WALL.

(** [tile: str | Hollow].  A hollow is an object; the tile holds its
    address in the object store, so that several cells can share one
    [MysticalHollow]. *)
Inductive tile_value : Type :=
| TileStr (t : Tiles)
| TileHollow (address : nat).

Definition tile_is (t : Tiles) (v : tile_value) : bool :=
  match v, t with
  | TileStr EMPTY, EMPTY | TileStr START_POSITION, START_POSITION
  | TileStr EXIT, EXIT | TileStr WALL, WALL => true
  | _, _ => false
  end.

Record MazeCell : Type := mkMazeCell {
  tile : tile_value;
  position : Position;
  visited : bool
}.

Definition set_tile (c : MazeCell) (t : tile_value) : MazeCell :=
  {| tile := t; position := position c; visited := visited c |}.

Definition mark_visited (c : MazeCell) : MazeCell :=
  {| tile := tile c; position := position c; visited := true |}.

Record Maze : Type := mkMaze {
  start_position : Position;
  end_positions : list Position;
  rows : Z;
  cols : Z;
  grid : list (list MazeCell)
}.

Definition with_grid (self : Maze) (g : list (list MazeCell)) : Maze :=
  {| start_position := start_position self;
     end_positions := end_positions self;
     rows := rows self; cols := cols self; grid := g |}.

(** [grid[p.row][p.col]] *)
Definition cell_at (g : list (list MazeCell)) (p : Position) : result MazeCell :=
  r <- py_getitem g (row p) ;; py_getitem r (col p).

(** [grid[p.row][p.col] = c] and [grid[p.row][p.col].attr = v], as the
    replacement of the cell. *)
Definition put_cell (g : list (list MazeCell)) (p : Position) (c : MazeCell)
    : result (list (list MazeCell)) :=
  r <- py_getitem g (row p) ;;
  r' <- py_setitem r (col p) c ;;
  py_setitem g (row p) r'.

Definition update_cell (g : list (list MazeCell)) (p : Position)
    (f : MazeCell -> MazeCell) : result (list (list MazeCell)) :=
  c <- cell_at g p ;; put_cell g p (f c).

(** [range(n)] *)
Definition range (n : Z) : list Z := map Z.of_nat (seq 0 (Z.to_nat n)).

(** [Maze._create_grid] *)
Definition _create_grid (start : Position) (n_rows n_cols : Z)
    (walls : list Position) (hollows : list (nat * Position))
    (ends : list Position) : result (list (list MazeCell)) :=
  let grid0 :=
    map (fun i => map (fun j => mkMazeCell (TileStr EMPTY) (mkPosition i j) false)
                      (range n_cols)) (range n_rows) in
  grid1 <- put_cell grid0 start
             (mkMazeCell (TileStr START_POSITION) start false) ;;
  grid2 <- fold_left (fun acc wall =>
                        g <- acc ;;
                        update_cell g wall (fun c => set_tile c (TileStr WALL)))
                     walls (Ok grid1) ;;
  grid3 <- fold_left (fun acc hp =>
                        g <- acc ;;
                        update_cell g (snd hp)
                          (fun c => set_tile c (TileHollow (fst hp))))
                     hollows (Ok grid2) ;;
  fold_left (fun acc end_position =>
               g <- acc ;;
               update_cell g end_position (fun c => set_tile c (TileStr EXIT)))
            ends (Ok grid3).

(** [Maze.__init__] *)
Definition Maze_init (start : Position) (ends walls : list Position)
    (hollows : list (nat * Position)) (n_rows n_cols : Z) : result Maze :=
  g <- _create_grid start n_rows n_cols walls hollows ends ;;
  Ok {| start_position := start; end_positions := ends;
        rows := n_rows; cols := n_cols; grid := g |}.

(** [Maze.is_valid_position] *)
Definition is_valid_position (self : Maze) (p : Position) : result bool :=
  if ((row p <? 0) || (rows self <=? row p) ||
      (col p <? 0) || (cols self <=? col p))%Z
  then Ok false
  else
    maze_position <- cell_at (grid self) p ;;
    if tile_is WALL (tile maze_position) || visited maze_position
    then Ok false
    else Ok true.

(** The four moves in the order of the source: up, down, left, right. *)
Definition exit_postions : list (Z * Z) := [(-1, 0); (1, 0); (0, -1); (0, 1)]%Z.

Definition move (p : Position) (d : Z * Z) : Position :=
  mkPosition (row p + fst d) (col p + snd d).

(** [Maze.get_available_positions] *)
Definition get_available_positions (self : Maze) (current_position : Position)
    : result (list Position) :=
  fold_left
    (fun acc d =>
       positions_available_to_move <- acc ;;
       let positional_object := move current_position d in
       ok <- is_valid_position self positional_object ;;
       if ok then Ok (positions_available_to_move ++ [positional_object])
       else Ok positions_available_to_move)
    exit_postions (Ok []).

(* ================================================================= *)
(** ** [Maze.find_way_out] *)

(** The search state: the maze (its cells' [visited] flags change) and
    [path_found]. *)
Definition search_result : Type := (bool * Maze * list Position)%type.

(** [for possible_positions in ...: if depth_first_search(...): return True],
    then [path_found.pop(); return False].  The list of positions was
    computed before the loop and is not recomputed. *)
Fixpoint explore (dfs : Maze -> list Position -> Position -> result search_result)
    (positions : list Position) (self : Maze) (path_found : list Position)
    : result search_result :=
  match positions with
  | [] => Ok (false, self, removelast path_found)
  | possible_position :: rest =>
      r <- dfs self path_found possible_position ;;
      let '(found, self', path_found') := r in
      if found then Ok (true, self', path_found')
      else explore dfs rest self' path_found'
  end.

(** The inner function [depth_first_search] of [find_way_out].  [fuel]
    bounds the depth of the recursion. *)
Fixpoint depth_first_search (fuel : nat) (self : Maze)
    (path_found : list Position) (current_pos : Position)
    : result search_result :=
  match fuel with
  | O => Raise OutOfFuel
  | S fuel' =>
      maze_position <- cell_at (grid self) current_pos ;;
      g <- put_cell (grid self) current_pos (mark_visited maze_position) ;;
      let self1 := with_grid self g in
      let path1 := path_found ++ [current_pos] in
      if tile_is EXIT (tile maze_position) then Ok (true, self1, path1)
      else
        available <- get_available_positions self1 current_pos ;;
        explore (depth_first_search fuel') available self1 path1
  end.

(** [Maze.find_way_out]: the returned path (or [None]) and the maze after
    the search.  The recursion is never deeper than the number of cells.
    (The bound the interpreter puts on the depth is the subject of
    [find_way_out_within] below.) *)
Definition find_way_out (self : Maze)
    : result (option (list Position) * Maze) :=
  let fuel := S (Z.to_nat (rows self) * Z.to_nat (cols self)) in
  r <- depth_first_search fuel self [] (start_position self) ;;
  let '(found, self', path_found) := r in
  if found then Ok (Some path_found, self') else Ok (None, self').

(** *** What the search is about *)

Definition in_bounds (self : Maze) (p : Position) : Prop :=
  (0 <= row p < rows self)%Z /\ (0 <= col p < cols self)%Z.

Definition in_boundsb (self : Maze) (p : Position) : bool :=
  ((0 <=? row p) && (row p <? rows self) &&
   (0 <=? col p) && (col p <? cols self))%Z.

(** The grid has [rows] rows of [cols] cells. *)
Definition grid_shape (self : Maze) : Prop :=
  Z.of_nat (length (grid self)) = rows self /\
  Forall (fun r => Z.of_nat (length r) = cols self) (grid self).

Definition tile_at (self : Maze) (p : Position) : option tile_value :=
  match cell_at (grid self) p with Ok c => Some (tile c) | Raise _ => None end.

Definition visited_at (self : Maze) (p : Position) : bool :=
  match cell_at (grid self) p with Ok c => visited c | Raise _ => false end.

Definition is_wall (self : Maze) (p : Position) : bool :=
  match tile_at self p with Some t => tile_is WALL t | None => false end.

Definition is_exit (self : Maze) (p : Position) : bool :=
  match tile_at self p with Some t => tile_is EXIT t | None => false end.

(** A cell one can stand on: in bounds and not a wall. *)
Definition free (self : Maze) (p : Position) : Prop :=
  in_bounds self p /\ is_wall self p = false.

(** Orthogonally adjacent. *)
Definition adjacent (p q : Position) : Prop :=
  In q (map (move p) exit_postions).

(** Reachable from the start through non-wall cells. *)
Inductive reachable (self : Maze) : Position -> Prop :=
| reach_start : reachable self (start_position self)
| reach_step (p q : Position) :
    reachable self p -> adjacent p q -> free self q -> reachable self q.

(** Consecutive positions are adjacent, and every position after the first
    is free. *)
Fixpoint linked (self : Maze) (p : Position) (rest : list Position) : Prop :=
  match rest with
  | [] => True
  | q :: rest' => adjacent p q /\ free self q /\ linked self q rest'
  end.

(** All positions of the grid. *)
Definition all_positions (self : Maze) : list Position :=
  flat_map (fun i => map (mkPosition i) (range (cols self))) (range (rows self)).

(** A way out: pairwise distinct free positions from the start to an exit
    (a cell whose tile is [EXIT], listed in [end_positions]), each adjacent
    to the next. *)
Definition way_out (self : Maze) (path : list Position) : Prop :=
  exists rest,
    path = start_position self :: rest /\
    NoDup path /\
    free self (start_position self) /\
    linked self (start_position self) rest /\
    is_exit self (last path (start_position self)) = true /\
    In (last path (start_position self)) (end_positions self).

(** A freshly built, validated maze: the grid has the declared shape, no
    cell is visited, the start is in bounds and not a wall, and the cells
    with the [EXIT] tile are those of [end_positions]. *)
Definition fresh_maze (self : Maze) : bool :=
  (Z.of_nat (length (grid self)) =? rows self)%Z &&
  forallb (fun r => (Z.of_nat (length r) =? cols self)%Z) (grid self) &&
  forallb (fun r => forallb (fun c => negb (visited c)) r) (grid self) &&
  in_boundsb self (start_position self) &&
  negb (is_wall self (start_position self)) &&
  forallb (fun p => Bool.eqb (is_exit self p)
                      (existsb (Position_eqb p) (end_positions self)))
          (all_positions self).

(** *** Reading and writing the grid *)

Lemma py_getitem_in_range {A : Type} (l : list A) (i : Z) :
  (0 <= i < Z.of_nat (length l))%Z ->
  exists x, py_getitem l i = Ok x /\ nth_error l (Z.to_nat i) = Some x.
Proof.
  intros Hi. unfold py_getitem.
  destruct (Z.ltb_spec i 0); [lia|].
  destruct (Z.ltb_spec i 0); [lia|].
  destruct (Z.leb_spec (Z.of_nat (length l)) i); [lia|]. simpl.
  destruct (nth_error l (Z.to_nat i)) as [x|] eqn:E; [eauto|].
  apply nth_error_None in E. lia.
Qed.

Lemma py_setitem_in_range {A : Type} (l : list A) (i : Z) (v : A) :
  (0 <= i < Z.of_nat (length l))%Z ->
  py_setitem l i v = Ok (upd l (Z.to_nat i) v).
Proof.
  intros Hi. unfold py_setitem.
  destruct (Z.ltb_spec i 0); [lia|].
  destruct (Z.ltb_spec i 0); [lia|].
  destruct (Z.leb_spec (Z.of_nat (length l)) i); [lia|]. reflexivity.
Qed.

Lemma py_getitem_upd_same {A : Type} (l : list A) (i : Z) (v : A) :
  (0 <= i < Z.of_nat (length l))%Z ->
  py_getitem (upd l (Z.to_nat i) v) i = Ok v.
Proof.
  intros Hi.
  destruct (@py_getitem_in_range A (upd l (Z.to_nat i) v) i) as (x & E & N).
  { now rewrite length_upd. }
  rewrite nth_error_upd_same in N by lia. congruence.
Qed.

Lemma py_getitem_upd_other {A : Type} (l : list A) (i j : Z) (v : A) :
  (0 <= i)%Z -> (0 <= j)%Z -> i <> j ->
  py_getitem (upd l (Z.to_nat i) v) j = py_getitem l j.
Proof.
  intros Hi Hj N. unfold py_getitem. rewrite length_upd.
  destruct (Z.ltb_spec j 0); [lia|].
  rewrite nth_error_upd_other by lia. reflexivity.
Qed.

Section GridFacts.
Variable self : Maze.
Hypothesis shape : grid_shape self.

Lemma row_in_range (p : Position) :
  in_bounds self p ->
  exists r, py_getitem (grid self) (row p) = Ok r /\
            Z.of_nat (length r) = cols self.
Proof.
  intros [Hr Hc]. destruct shape as [Sr Sc].
  destruct (@py_getitem_in_range _ (grid self) (row p)) as (r & E & N); [lia|].
  exists r. split; [exact E|].
  rewrite Forall_forall in Sc. apply Sc. eapply nth_error_In; eauto.
Qed.

Lemma cell_at_in_bounds (p : Position) :
  in_bounds self p -> exists c, cell_at (grid self) p = Ok c.
Proof.
  intros Hp. destruct (row_in_range Hp) as (r & E & L).
  unfold cell_at. rewrite E. cbn [bind].
  destruct (@py_getitem_in_range _ r (col p)) as (c & Ec & _);
    [destruct Hp; lia|]. eauto.
Qed.

(** Replacing the cell at an in-bounds position. *)
Lemma put_cell_in_bounds (p : Position) (c : MazeCell) :
  in_bounds self p ->
  exists g,
    put_cell (grid self) p c = Ok g /\
    grid_shape (with_grid self g) /\
    (forall q, in_bounds self q ->
       cell_at g q = if Position_eq_dec q p then Ok c
                     else cell_at (grid self) q).
Proof.
  intros Hp. destruct (row_in_range Hp) as (r & E & L).
  destruct shape as [Sr Sc]. destruct Hp as [Hr Hc].
  unfold put_cell. rewrite E. cbn [bind].
  rewrite py_setitem_in_range by lia. cbn [bind].
  rewrite py_setitem_in_range by lia.
  eexists. split; [reflexivity|]. split.
  - split; cbn [with_grid grid rows cols].
    + now rewrite length_upd.
    + apply Forall_forall. intros r' Hr'.
      apply In_nth_error in Hr' as [n Hn].
      destruct (Nat.eq_dec n (Z.to_nat (row p))) as [->|Nn].
      * rewrite nth_error_upd_same in Hn by lia.
        injection Hn as <-. now rewrite length_upd.
      * rewrite nth_error_upd_other in Hn by assumption.
        rewrite Forall_forall in Sc. apply Sc. eapply nth_error_In; eauto.
  - intros q [Hqr Hqc]. unfold cell_at.
    destruct (Z.eq_dec (row q) (row p)) as [Er|Nr].
    + rewrite Er, py_getitem_upd_same by lia. cbn [bind]. rewrite E. cbn [bind].
      destruct (Position_eq_dec q p) as [->|Np].
      * apply py_getitem_upd_same. lia.
      * apply py_getitem_upd_other; try lia.
        intros Ec. apply Np. destruct q, p; simpl in *; congruence.
    + rewrite py_getitem_upd_other by lia.
      destruct (Position_eq_dec q p) as [->|Np]; [congruence|reflexivity].
Qed.

End GridFacts.

(** *** The search, one step at a time *)

Definition valid (self : Maze) (q : Position) : bool :=
  in_boundsb self q && negb (is_wall self q) && negb (visited_at self q).

Lemma in_boundsb_iff (self : Maze) (p : Position) :
  in_boundsb self p = true <-> in_bounds self p.
Proof.
  unfold in_boundsb, in_bounds.
  rewrite !andb_true_iff, !Z.leb_le, !Z.ltb_lt. tauto.
Qed.

Lemma is_valid_position_spec (self : Maze) (q : Position) :
  grid_shape self -> is_valid_position self q = Ok (valid self q).
Proof.
  intros shape. unfold is_valid_position, valid.
  destruct (in_boundsb self q) eqn:B.
  - pose proof (proj1 (in_boundsb_iff self q) B) as Hq.
    destruct Hq as [Hr Hc].
    destruct (Z.ltb_spec (row q) 0); [lia|].
    destruct (Z.leb_spec (rows self) (row q)); [lia|].
    destruct (Z.ltb_spec (col q) 0); [lia|].
    destruct (Z.leb_spec (cols self) (col q)); [lia|]. cbn [orb].
    destruct (@cell_at_in_bounds self shape q) as (c & E); [split; lia|].
    unfold is_wall, tile_at, visited_at. rewrite E. cbn [bind andb].
    destruct (tile_is WALL (tile c)), (visited c); reflexivity.
  - replace ((row q <? 0) || (rows self <=? row q) ||
             (col q <? 0) || (cols self <=? col q))%Z with true; [reflexivity|].
    unfold in_boundsb in B. symmetry.
    destruct (Z.leb_spec 0 (row q)), (Z.ltb_spec (row q) (rows self)),
             (Z.leb_spec 0 (col q)), (Z.ltb_spec (col q) (cols self));
      try discriminate;
      repeat match goal with
             | |- context [(?a <? ?b)%Z] => destruct (Z.ltb_spec a b); try lia
             | |- context [(?a <=? ?b)%Z] => destruct (Z.leb_spec a b); try lia
             end; reflexivity.
Qed.

Lemma get_available_positions_spec (self : Maze) (p : Position) :
  grid_shape self ->
  get_available_positions self p =
  Ok (filter (valid self) (map (move p) exit_postions)).
Proof.
  intros shape. unfold get_available_positions, exit_postions.
  cbn [fold_left map bind filter].
  rewrite !(is_valid_position_spec _ shape). cbn [bind].
  repeat match goal with
         | |- context [valid self ?q] => destruct (valid self q); cbn [bind app]
         end; reflexivity.
Qed.

Lemma In_range (n i : Z) : In i (range n) <-> (0 <= i < n)%Z.
Proof.
  unfold range. rewrite in_map_iff. split.
  - intros (k & <- & Hk). apply in_seq in Hk. lia.
  - intros Hi. exists (Z.to_nat i). split; [lia|]. apply in_seq. lia.
Qed.

Lemma In_all_positions (self : Maze) (p : Position) :
  In p (all_positions self) <-> in_bounds self p.
Proof.
  unfold all_positions, in_bounds. rewrite in_flat_map. split.
  - intros (i & Hi & Hp). apply in_map_iff in Hp as (j & <- & Hj).
    apply In_range in Hi, Hj. simpl. lia.
  - intros [Hr Hc]. exists (row p). split; [now apply In_range|].
    apply in_map_iff. exists (col p). split; [now destruct p|now apply In_range].
Qed.

Lemma length_range (n : Z) : length (range n) = Z.to_nat n.
Proof. unfold range. now rewrite length_map, length_seq. Qed.

Lemma length_flat_map_rows {A B C : Type} (f : A -> B -> C)
    (l1 : list A) (l2 : list B) :
  length (flat_map (fun i => map (f i) l2) l1) = length l1 * length l2.
Proof.
  induction l1 as [|a l1 IH]; [reflexivity|].
  cbn [flat_map length]. rewrite length_app, IH, length_map. lia.
Qed.

Lemma length_all_positions (self : Maze) :
  length (all_positions self) = Z.to_nat (rows self) * Z.to_nat (cols self).
Proof.
  unfold all_positions. now rewrite length_flat_map_rows, !length_range.
Qed.

(** Pairwise distinct positions of the grid are at most as many as its
    cells. *)
Lemma distinct_positions_bound (self : Maze) (l : list Position) :
  NoDup l -> (forall x, In x l -> in_bounds self x) ->
  length l <= Z.to_nat (rows self) * Z.to_nat (cols self).
Proof.
  intros N B. rewrite <- length_all_positions.
  apply NoDup_incl_length; [exact N|].
  intros x Hx. apply In_all_positions. now apply B.
Qed.

Lemma last_cons_any {A : Type} (x d : A) (l : list A) :
  last (x :: l) d = last l x.
Proof.
  revert x d. induction l as [|y l IH]; intros x d; [reflexivity|].
  change (last (x :: y :: l) d) with (last (y :: l) d).
  now rewrite !IH.
Qed.

Section Search.
Variable m0 : Maze.

(** [m] is the maze [m0] up to the [visited] flags. *)
Definition layout (m : Maze) : Prop :=
  start_position m = start_position m0 /\
  rows m = rows m0 /\ cols m = cols m0 /\
  grid_shape m /\
  forall q, in_bounds m0 q -> tile_at m q = tile_at m0 q.

Definition Vis (m : Maze) (q : Position) : Prop := visited_at m q = true.

Definition grows (m m' : Maze) : Prop :=
  forall q, in_bounds m0 q -> Vis m q -> Vis m' q.

(** Every visited cell off the current path is finished: it is no exit and
    all its free neighbours are visited. *)
Definition closed (m : Maze) (path : list Position) : Prop :=
  forall x, in_bounds m0 x -> Vis m x -> ~ In x path ->
    is_exit m0 x = false /\
    forall y, adjacent x y -> free m0 y -> Vis m y.

Lemma layout_in_bounds (m : Maze) (q : Position) :
  layout m -> (in_bounds m q <-> in_bounds m0 q).
Proof. intros (_ & Er & Ec & _). unfold in_bounds. now rewrite Er, Ec. Qed.

Lemma layout_valid (m : Maze) (q : Position) :
  layout m ->
  (valid m q = true <-> free m0 q /\ ~ Vis m q).
Proof.
  intros L. pose proof (layout_in_bounds q L) as B.
  destruct L as (_ & _ & _ & _ & Tl).
  unfold valid, free, Vis.
  rewrite !andb_true_iff, !negb_true_iff, in_boundsb_iff, B.
  split.
  - intros [[Hq W] V]. unfold is_wall in *. rewrite <- (Tl q Hq).
    split; [split; assumption|]. rewrite V. discriminate.
  - intros [[Hq W] V]. unfold is_wall in *. rewrite (Tl q Hq).
    split; [split; assumption|]. now destruct (visited_at m q).
Qed.

(** Marking the current cell. *)
Lemma mark_step (m : Maze) (cur : Position) :
  layout m -> in_bounds m0 cur ->
  exists c g,
    cell_at (grid m) cur = Ok c /\
    put_cell (grid m) cur (mark_visited c) = Ok g /\
    tile_at m0 cur = Some (tile c) /\
    layout (with_grid m g) /\
    Vis (with_grid m g) cur /\
    grows m (with_grid m g) /\
    (forall q, in_bounds m0 q -> q <> cur -> Vis (with_grid m g) q -> Vis m q).
Proof.
  intros L Hc. pose proof (proj2 (layout_in_bounds cur L) Hc) as Hc'.
  destruct L as (Es & Er & Ec & Sh & Tl).
  destruct (@cell_at_in_bounds m Sh cur Hc') as (c & E).
  destruct (@put_cell_in_bounds m Sh cur (mark_visited c) Hc')
    as (g & Pg & Sh' & Cells).
  assert (Cells' : forall q, in_bounds m0 q ->
            cell_at g q = if Position_eq_dec q cur then Ok (mark_visited c)
                          else cell_at (grid m) q).
  { intros q Hq. apply Cells. unfold in_bounds in *. now rewrite Er, Ec. }
  exists c, g. split; [exact E|]. split; [exact Pg|]. split.
  { rewrite <- (Tl cur Hc). unfold tile_at. now rewrite E. }
  split.
  { split; [exact Es|]. split; [exact Er|]. split; [exact Ec|].
    split; [exact Sh'|].
    intros q Hq. rewrite <- (Tl q Hq). unfold tile_at.
    cbn [with_grid grid]. rewrite (Cells' q Hq).
    destruct (Position_eq_dec q cur) as [->|]; [now rewrite E|reflexivity]. }
  split.
  { unfold Vis, visited_at. cbn [with_grid grid]. rewrite (Cells' cur Hc).
    destruct (Position_eq_dec cur cur); [reflexivity|congruence]. }
  split.
  - intros q Hq V. unfold Vis, visited_at in *. cbn [with_grid grid].
    rewrite (Cells' q Hq).
    destruct (Position_eq_dec q cur); [reflexivity|exact V].
  - intros q Hq Nq V. unfold Vis, visited_at in *. cbn [with_grid grid] in V.
    rewrite (Cells' q Hq) in V.
    destruct (Position_eq_dec q cur); [congruence|exact V].
Qed.

Lemma grows_refl (m : Maze) : grows m m.
Proof. intros q _ V. exact V. Qed.

Lemma grows_trans (m1 m2 m3 : Maze) : grows m1 m2 -> grows m2 m3 -> grows m1 m3.
Proof. intros G1 G2 q Hq V. apply G2, G1; assumption. Qed.

(** The cells [get_available_positions] offers. *)
Lemma available_spec (m : Maze) (cur p : Position) :
  layout m ->
  (In p (filter (valid m) (map (move cur) exit_postions)) <->
   adjacent cur p /\ free m0 p /\ ~ Vis m p).
Proof.
  intros L. rewrite filter_In, (layout_valid p L). unfold adjacent. tauto.
Qed.

Definition cells : nat := Z.to_nat (rows m0) * Z.to_nat (cols m0).

Definition dfs_pre (m : Maze) (path : list Position) (cur : Position) : Prop :=
  layout m /\ in_bounds m0 cur /\ NoDup path /\
  (forall x, In x path -> in_bounds m0 x /\ Vis m x) /\
  ~ In cur path /\ closed m path.

Definition dfs_post (m : Maze) (path : list Position) (cur : Position)
    (r : search_result) : Prop :=
  let '(found, m', path') := r in
  layout m' /\ grows m m' /\ Vis m' cur /\
  if found
  then exists rest,
         path' = path ++ cur :: rest /\ NoDup path' /\
         linked m0 cur rest /\
         is_exit m0 (last rest cur) = true
  else path' = path /\ closed m' path.

Definition explore_post (m : Maze) (path : list Position)
    (positions : list Position) (r : search_result) : Prop :=
  let '(found, m', path') := r in
  layout m' /\ grows m m' /\
  if found
  then exists p rest,
         In p positions /\
         path' = path ++ p :: rest /\ NoDup path' /\
         linked m0 p rest /\
         is_exit m0 (last rest p) = true
  else path' = removelast path /\ closed m' path /\
       forall p, In p positions -> Vis m' p.

(** The loop over the available positions, given that the recursive calls
    behave on the current path. *)
Lemma explore_spec
    (dfs : Maze -> list Position -> Position -> result search_result)
    (path : list Position) :
  (forall m cur, dfs_pre m path cur ->
     exists r, dfs m path cur = Ok r /\ dfs_post m path cur r) ->
  forall (positions : list Position) (m : Maze),
  layout m -> NoDup path ->
  (forall x, In x path -> in_bounds m0 x /\ Vis m x) ->
  closed m path ->
  (forall p, In p positions -> in_bounds m0 p /\ ~ In p path) ->
  exists r, explore dfs positions m path = Ok r /\
            explore_post m path positions r.
Proof.
  intros Hdfs. induction positions as [|p rest IH];
    intros m L N Pv C Hpos.
  - eexists. split; [reflexivity|]. cbn [explore_post].
    split; [exact L|]. split; [apply grows_refl|].
    split; [reflexivity|]. split; [exact C|]. intros p [].
  - cbn [explore].
    destruct (Hdfs m p) as ([[found m1] path1] & E & Post).
    { destruct (Hpos p (or_introl eq_refl)) as [Hp Np].
      unfold dfs_pre. auto 10. }
    rewrite E. cbn [bind]. cbn [dfs_post] in Post.
    destruct Post as (L1 & G1 & V1 & Post).
    destruct found.
    + destruct Post as (tail & -> & N1 & Lk & Ex).
      eexists. split; [reflexivity|]. cbn [explore_post].
      split; [exact L1|]. split; [exact G1|].
      exists p, tail. repeat split; auto. now left.
    + destruct Post as [-> C1].
      destruct (IH m1 L1 N) as ([[found m2] path2] & E2 & Post2).
      * intros x Hx. destruct (Pv x Hx) as [Bx Vx]. split; [exact Bx|].
        now apply G1.
      * exact C1.
      * intros q Hq. apply Hpos. now right.
      * rewrite E2. eexists. split; [reflexivity|].
        cbn [explore_post] in *. destruct Post2 as (L2 & G2 & Post2).
        split; [exact L2|]. split; [eapply grows_trans; eauto|].
        destruct found.
        -- destruct Post2 as (q & tail & Hq & -> & N2 & Lk & Ex).
           exists q, tail. repeat split; auto. now right.
        -- destruct Post2 as (-> & C2 & Vs).
           split; [reflexivity|]. split; [exact C2|].
           intros q [<-|Hq]; [|now apply Vs].
           apply G2; [|exact V1]. apply (Hpos p). now left.
Qed.

(** The search proper: it returns, and either finds a way to an exit or
    leaves every cell it visited finished. *)
Lemma dfs_spec :
  forall (fuel : nat) (m : Maze) (path : list Position) (cur : Position),
  dfs_pre m path cur -> cells < length path + fuel ->
  exists r, depth_first_search fuel m path cur = Ok r /\
            dfs_post m path cur r.
Proof.
  induction fuel as [|fuel IH];
    intros m path cur (L & Hc & N & Pv & Nc & C) Hf.
  - exfalso.
    assert (B : length (cur :: path) <= cells).
    { apply distinct_positions_bound; [now constructor|].
      intros x [<-|Hx]; [exact Hc|now apply Pv]. }
    simpl in B. lia.
  - cbn [depth_first_search].
    destruct (@mark_step m cur L Hc)
      as (c & g & Ec & Eg & Tc & L1 & V1 & G1 & Back).
    rewrite Ec. cbn [bind]. rewrite Eg. cbn [bind].
    set (m1 := with_grid m g) in *.
    assert (N1 : NoDup (path ++ [cur])).
    { apply NoDup_app; repeat split; auto.
      - repeat constructor. intros [].
      - intros x Hx [<-|[]]. contradiction. }
    assert (Pv1 : forall x, In x (path ++ [cur]) -> in_bounds m0 x /\ Vis m1 x).
    { intros x Hx. apply in_app_or in Hx as [Hx|[<-|[]]]; [|auto].
      destruct (Pv x Hx). split; [assumption|]. now apply G1. }
    destruct (tile_is EXIT (tile c)) eqn:Ex.
    + eexists. split; [reflexivity|]. cbn [dfs_post].
      split; [exact L1|]. split; [exact G1|]. split; [exact V1|].
      exists []. split; [reflexivity|]. split; [exact N1|].
      split; [exact I|].
      cbn [last]. unfold is_exit. now rewrite Tc.
    + assert (Nx : is_exit m0 cur = false) by (unfold is_exit; now rewrite Tc).
      assert (Sh1 : grid_shape m1) by apply L1.
      rewrite (@get_available_positions_spec m1 cur Sh1).
      cbn [bind].
      set (available := filter (valid m1) (map (move cur) exit_postions)).
      assert (C1 : closed m1 (path ++ [cur])).
      { intros x Hx Vx Nin.
        assert (x <> cur) by (intros ->; apply Nin, in_or_app; right; now left).
        assert (Vm : Vis m x) by (apply Back; assumption).
        destruct (C x Hx Vm) as [Ne Nb].
        { intros Hin. apply Nin, in_or_app. now left. }
        split; [exact Ne|]. intros y Ay Fy. apply G1; [apply Fy|].
        now apply Nb. }
      assert (Av : forall p, In p available ->
                 adjacent cur p /\ free m0 p /\ ~ Vis m1 p).
      { intros p Hp. now apply (available_spec cur p L1). }
      destruct (@explore_spec (depth_first_search fuel) (path ++ [cur]))
        with (positions := available) (m := m1)
        as ([[found m2] path2] & E2 & Post2); auto.
      { intros m' cur' Pre. apply IH; [exact Pre|].
        rewrite length_app. simpl. lia. }
      { intros p Hp. destruct (Av p Hp) as (_ & Fp & Nv).
        split; [apply Fp|]. intros Hin. apply Nv. now apply Pv1. }
      rewrite E2. eexists. split; [reflexivity|].
      cbn [explore_post dfs_post] in *.
      destruct Post2 as (L2 & G2 & Post2).
      split; [exact L2|]. split; [eapply grows_trans; eauto|].
      split; [apply G2; assumption|].
      destruct found.
      * destruct Post2 as (p & tail & Hp & -> & N2 & Lk & Exit).
        destruct (Av p Hp) as (Ap & Fp & _).
        exists (p :: tail). rewrite <- app_assoc. cbn [app].
        split; [reflexivity|]. split; [now rewrite <- app_assoc in N2|].
        split; [cbn [linked]; auto|].
        now rewrite last_cons_any.
      * destruct Post2 as (-> & C2 & Vs).
        split; [apply removelast_last|].
        intros x Hx Vx Nin.
        destruct (Position_eq_dec x cur) as [->|Nxc].
        -- split; [exact Nx|]. intros y Ay Fy.
           destruct (visited_at m1 y) eqn:Vy.
           ++ apply G2; [apply Fy|exact Vy].
           ++ apply Vs. apply (available_spec cur y L1).
              repeat split; auto; try apply Fy.
              unfold Vis. rewrite Vy. discriminate.
        -- apply C2; auto. intros Hin.
           apply in_app_or in Hin as [Hin|[->|[]]]; congruence.
Qed.

End Search.

(** *** [find_way_out] on a fresh maze *)

Lemma cell_at_In (g : list (list MazeCell)) (q : Position) (c : MazeCell) :
  (0 <= row q)%Z -> (0 <= col q)%Z -> cell_at g q = Ok c ->
  exists r, In r g /\ In c r.
Proof.
  intros Hr Hc. unfold cell_at.
  destruct (py_getitem g (row q)) as [r|] eqn:Er; [|discriminate].
  cbn [bind]. intros Ec. exists r. split.
  - apply (nth_error_In g (Z.to_nat (row q))).
    now apply py_getitem_Ok_inv.
  - apply (nth_error_In r (Z.to_nat (col q))).
    now apply py_getitem_Ok_inv.
Qed.

Lemma existsb_Position_eqb (p : Position) (l : list Position) :
  existsb (Position_eqb p) l = true <-> In p l.
Proof.
  rewrite existsb_exists. split.
  - intros (x & Hx & E). now destruct (Position_eqb_spec p x); subst.
  - intros Hp. exists p. split; [exact Hp|].
    now destruct (Position_eqb_spec p p).
Qed.

Lemma fresh_maze_facts (self : Maze) :
  fresh_maze self = true ->
  grid_shape self /\
  in_bounds self (start_position self) /\
  is_wall self (start_position self) = false /\
  (forall q, in_bounds self q ->
     (is_exit self q = true <-> In q (end_positions self))) /\
  forall q, in_bounds self q -> visited_at self q = false.
Proof.
  unfold fresh_maze. rewrite !andb_true_iff, negb_true_iff, in_boundsb_iff.
  intros (((((Sr & Sc) & Un) & Hs) & Ws) & Ex).
  apply Z.eqb_eq in Sr. rewrite forallb_forall in Sc, Un, Ex.
  assert (shape : grid_shape self).
  { split; [exact Sr|]. apply Forall_forall. intros r Hr.
    apply Z.eqb_eq. now apply Sc. }
  split; [exact shape|]. split; [exact Hs|]. split; [exact Ws|].
  split.
  { intros q Hq. rewrite <- existsb_Position_eqb.
    specialize (Ex q (proj2 (In_all_positions self q) Hq)).
    apply Bool.eqb_prop in Ex. now rewrite Ex. }
  intros q Hq. unfold visited_at.
  destruct (@cell_at_in_bounds self shape q Hq) as (c & E). rewrite E.
  destruct (@cell_at_In (grid self) q c) as (r & Hr & Hcr);
    [apply Hq|apply Hq|exact E|].
  specialize (Un r Hr). rewrite forallb_forall in Un.
  specialize (Un c Hcr). now apply negb_true_iff in Un.
Qed.

Lemma layout_refl (self : Maze) : grid_shape self -> layout self self.
Proof. intros shape. repeat split; auto; apply shape. Qed.

Lemma linked_reachable (self : Maze) (rest : list Position) :
  forall p, reachable self p -> linked self p rest ->
            reachable self (last rest p).
Proof.
  induction rest as [|q rest IH]; intros p Rp Lk; [exact Rp|].
  destruct Lk as (A & F & Lk).
  rewrite last_cons_any. apply IH; [|exact Lk].
  eapply reach_step; eauto.
Qed.

(** After a failed search from the start every reachable cell has been
    visited and is no exit. *)
Lemma closed_covers_reachable (self m' : Maze) :
  in_bounds self (start_position self) ->
  closed self m' [] -> Vis m' (start_position self) ->
  forall x, reachable self x ->
    in_bounds self x /\ Vis m' x /\ is_exit self x = false.
Proof.
  intros Hs C Vs x R. induction R as [|p q R IH A F].
  - repeat split; auto; try apply Hs. now apply (C _ Hs Vs).
  - destruct IH as (Hp & Vp & _).
    destruct (C p Hp Vp) as [_ Nb]; [intros []|].
    assert (Vq : Vis m' q) by now apply Nb.
    repeat split; try apply F; auto.
    now apply (C q (proj1 F) Vq).
Qed.

Lemma linked_free (self : Maze) (rest : list Position) :
  forall p, linked self p rest -> Forall (free self) rest.
Proof.
  induction rest as [|q rest IH]; intros p Lk; [constructor|].
  destruct Lk as (_ & F & Lk). constructor; [exact F|]. eapply IH; eauto.
Qed.

Lemma exists_last_In {A : Type} (l : list A) (d : A) :
  l <> [] -> In (last l d) l.
Proof.
  induction l as [|x l IH]; [congruence|]. intros _.
  destruct l as [|y l]; [now left|].
  right. apply IH. discriminate.
Qed.

(** What one search on a fresh maze does. *)
Lemma find_way_out_spec (self : Maze) :
  fresh_maze self = true ->
  exists r self',
    find_way_out self = Ok (r, self') /\
    layout self self' /\
    match r with
    | Some path => way_out self path
    | None => forall x, reachable self x -> is_exit self x = false
    end.
Proof.
  intros Fresh.
  destruct (fresh_maze_facts self Fresh) as (shape & Hs & Ws & Exits & Un).
  destruct (@dfs_spec self (S (cells self)) self [] (start_position self))
    as ([[found m'] path] & E & Post).
  { split; [now apply layout_refl|]. split; [exact Hs|].
    split; [constructor|]. split; [intros x []|]. split; [intros []|].
    intros x Hx Vx. unfold Vis in Vx. rewrite (Un x Hx) in Vx. discriminate. }
  { simpl. lia. }
  unfold find_way_out. fold (cells self). rewrite E. cbn [bind].
  cbn [dfs_post] in Post. destruct Post as (L & G & Vs & Post).
  destruct found.
  - destruct Post as (rest & -> & N & Lk & Ex). cbn [app] in *.
    eexists. eexists. split; [reflexivity|]. split; [exact L|].
    exists rest. split; [reflexivity|]. split; [exact N|].
    split; [split; assumption|]. split; [exact Lk|].
    rewrite last_cons_any. split; [exact Ex|].
    apply Exits; [|exact Ex].
    assert (Fa : Forall (in_bounds self) (start_position self :: rest)).
    { constructor; [exact Hs|].
      eapply Forall_impl; [|eapply linked_free; eauto]. now intros q [Hq _]. }
    rewrite Forall_forall in Fa. apply Fa.
    rewrite <- (last_cons_any (start_position self) (start_position self)).
    apply (@exists_last_In _ (start_position self :: rest)). discriminate.
  - destruct Post as [-> C].
    eexists. eexists. split; [reflexivity|]. split; [exact L|].
    intros x Rx.
    now destruct (@closed_covers_reachable self m' Hs C Vs x Rx) as (_ & _ & Ne).
Qed.

Lemma way_out_reaches_exit (self : Maze) (path : list Position) :
  way_out self path ->
  exists e, reachable self e /\ is_exit self e = true.
Proof.
  intros (rest & -> & _ & _ & Lk & Ex & _).
  exists (last (start_position self :: rest) (start_position self)).
  split; [|exact Ex]. rewrite last_cons_any.
  apply linked_reachable; [constructor|exact Lk].
Qed.


(* ================================================================= *)
(** ** [Maze.take_treasures] *)

(** The hollow objects of a maze.  A tile refers to its hollow by address,
    so the cells that share the [MysticalHollow] share its heap. *)
Inductive hollow_object : Type :=
| SpookyHollowObj (treasures : SpookyHollow.store)
| MysticalHollowObj (self : MysticalHollow.hollow).

Definition object_store : Type := list hollow_object.

(** What the elements of the [path] argument may be at run time: the
    parameter is annotated [List[MazeCell]], [find_way_out] returns
    [List[Position]]. *)
Inductive path_element : Type :=
| PositionObj (p : Position)
| MazeCellObj (c : MazeCell).

(** [cell.tile]: a [Position] has no such attribute. *)
Definition get_tile (cell : path_element) : result tile_value :=
  match cell with
  | MazeCellObj c => Ok (tile c)
  | PositionObj _ => Raise AttributeError
  end.

(** The state of the loop: the hollows, [backpack_capacity] and
    [treasures_collected]. *)
Definition harvest_state : Type := (object_store * Z * list Treasure)%type.

(** [backpack_capacity -= treasure.weight; treasures_collected.append(treasure)]
    when [treasure is not None]. *)
Definition collect (store : object_store) (backpack_capacity : Z)
    (treasures_collected : list Treasure) (treasure : option Treasure)
    : harvest_state :=
  match treasure with
  | Some tr => (store, (backpack_capacity - Z.pos (weight tr))%Z,
                treasures_collected ++ [tr])
  | None => (store, backpack_capacity, treasures_collected)
  end.

(** [if isinstance(cell.tile, SpookyHollow): ...] *)
Definition visit_spooky (st : harvest_state) (cell : path_element)
    : result harvest_state :=
  let '(store, backpack_capacity, treasures_collected) := st in
  t <- get_tile cell ;;
  match t with
  | TileHollow address =>
      match nth_error store address with
      | Some (SpookyHollowObj hollow) =>
          r <- SpookyHollow.get_optimal_treasure hollow backpack_capacity ;;
          let '(treasure, hollow') := r in
          Ok (collect (upd store address (SpookyHollowObj hollow'))
                backpack_capacity treasures_collected treasure)
      | _ => Ok st
      end
  | TileStr _ => Ok st
  end.

(** [if isinstance(cell.tile, MysticalHollow): ...] *)
Definition visit_mystical (st : harvest_state) (cell : path_element)
    : result harvest_state :=
  let '(store, backpack_capacity, treasures_collected) := st in
  t <- get_tile cell ;;
  match t with
  | TileHollow address =>
      match nth_error store address with
      | Some (MysticalHollowObj hollow) =>
          r <- MysticalHollow.get_optimal_treasure hollow backpack_capacity ;;
          let '(treasure, hollow') := r in
          Ok (collect (upd store address (MysticalHollowObj hollow'))
                backpack_capacity treasures_collected treasure)
      | _ => Ok st
      end
  | TileStr _ => Ok st
  end.

(** [for cell in path: ...] *)
Fixpoint take_treasures_loop (path : list path_element) (st : harvest_state)
    : result harvest_state :=
  match path with
  | [] => Ok st
  | cell :: path' =>
      st1 <- visit_spooky st cell ;;
      st2 <- visit_mystical st1 cell ;;
      take_treasures_loop path' st2
  end.

(** [Maze.take_treasures]: the returned list (or [None]) and the hollows
    after the walk. *)
Definition take_treasures (store : object_store) (path : list path_element)
    (backpack_capacity : Z) : result (option (list Treasure) * object_store) :=
  st <- take_treasures_loop path (store, backpack_capacity, []) ;;
  let '(store', _, treasures_collected) := st in
  if length treasures_collected =? 0 then Ok (None, store')
  else Ok (Some treasures_collected, store').

(** *** The harvest as the spec words it (4.5) *)

(** "Call that hollow's constrained_max_extract(remaining_capacity)": the
    one capability both hollow kinds offer. *)
Definition constrained_max_extract (h : hollow_object) (remaining_capacity : Z)
    : result (option Treasure * hollow_object) :=
  match h with
  | SpookyHollowObj s =>
      r <- SpookyHollow.get_optimal_treasure s remaining_capacity ;;
      Ok (fst r, SpookyHollowObj (snd r))
  | MysticalHollowObj m =>
      r <- MysticalHollow.get_optimal_treasure m remaining_capacity ;;
      Ok (fst r, MysticalHollowObj (snd r))
  end.

(** "For each cell in path order, if it carries a hollow, call ...  On a
    returned item: append it to the result list and subtract its weight from
    the remaining capacity before continuing to the next cell." *)
Definition harvest_step (acc : result harvest_state) (cell : MazeCell)
    : result harvest_state :=
  st <- acc ;;
  let '(store, remaining_capacity, collected) := st in
  match tile cell with
  | TileHollow address =>
      match nth_error store address with
      | Some h =>
          r <- constrained_max_extract h remaining_capacity ;;
          let store' := upd store address (snd r) in
          match fst r with
          | Some item =>
              Ok (store', (remaining_capacity - Z.pos (weight item))%Z,
                  collected ++ [item])
          | None => Ok (store', remaining_capacity, collected)
          end
      | None => Ok st
      end
  | TileStr _ => Ok st
  end.

(** "Return the accumulated list, or an explicit nothing-collected result if
    it is empty." *)
Definition harvest (store : object_store) (path : list MazeCell)
    (capacity : Z) : result (option (list Treasure) * object_store) :=
  st <- fold_left harvest_step path (Ok (store, capacity, [])) ;;
  let '(store', _, collected) := st in
  match collected with
  | [] => Ok (None, store')
  | _ => Ok (Some collected, store')
  end.

Lemma fold_harvest_Raise (path : list MazeCell) (e : exn) :
  fold_left harvest_step path (Raise e) = Raise e.
Proof. induction path as [|c path IH]; [reflexivity|exact IH]. Qed.

(** One iteration of the loop body is one step of the fold. *)
Lemma visit_cell_step (st : harvest_state) (c : MazeCell) :
  (st1 <- visit_spooky st (MazeCellObj c) ;;
   visit_mystical st1 (MazeCellObj c))
  = harvest_step (Ok st) c.
Proof.
  destruct st as [[store cap] coll].
  unfold visit_spooky, harvest_step. cbn [get_tile bind].
  destruct (tile c) as [t|a] eqn:Et.
  - cbn [bind]. unfold visit_mystical. cbn [get_tile bind]. now rewrite Et.
  - destruct (nth_error store a) as [[s|m]|] eqn:Ea.
    + cbn [constrained_max_extract].
      destruct (SpookyHollow.get_optimal_treasure s cap) as [[treasure s']|e];
        [|reflexivity].
      cbn [bind fst snd].
      assert (La : a < length store) by (apply nth_error_Some; congruence).
      destruct treasure as [tr|]; cbn [collect];
        unfold visit_mystical; cbn [get_tile bind]; rewrite Et;
        rewrite nth_error_upd_same by assumption; reflexivity.
    + cbn [bind]. unfold visit_mystical. cbn [get_tile bind].
      rewrite Et, Ea. cbn [constrained_max_extract].
      destruct (MysticalHollow.get_optimal_treasure m cap) as [[treasure m']|e];
        [|reflexivity].
      cbn [bind fst snd]. now destruct treasure.
    + cbn [bind]. unfold visit_mystical. cbn [get_tile bind].
      now rewrite Et, Ea.
Qed.

Lemma take_treasures_loop_fold (path : list MazeCell) (st : harvest_state) :
  take_treasures_loop (map MazeCellObj path) st
  = fold_left harvest_step path (Ok st).
Proof.
  revert st. induction path as [|c path IH]; intros st; [reflexivity|].
  cbn [map take_treasures_loop fold_left].
  rewrite <- visit_cell_step.
  destruct (visit_spooky st (MazeCellObj c)) as [st1|e]; cbn [bind];
    [|now rewrite fold_harvest_Raise].
  destruct (visit_mystical st1 (MazeCellObj c)) as [st2|e]; cbn [bind];
    [apply IH|now rewrite fold_harvest_Raise].
Qed.

(** [len(treasures_collected) == 0] is the test for the empty list. *)
Lemma finish_harvest (r : result harvest_state) :
  (st <- r ;;
   let '(store', _, treasures_collected) := st in
   if length treasures_collected =? 0 then Ok (None, store')
   else Ok (Some treasures_collected, store'))
  = (st <- r ;;
     let '(store', _, collected) := st in
     match collected with
     | [] => Ok (None, store')
     | _ => Ok (Some collected, store')
     end).
Proof.
  destruct r as [[[store' cap'] coll]|e]; [|reflexivity].
  cbn [bind]. now destruct coll.
Qed.

(** C5: for every path of cells, every state of the hollows and every
    starting capacity, [take_treasures] is the left fold that visits the
    cells in path order, calls the extraction of the hollow a cell carries
    with the capacity remaining after all earlier cells, appends a returned
    treasure and subtracts its weight before the next cell; the result is
    the accumulated list, or [None] when it is empty. *)
Theorem take_treasures_is_fold (store : object_store) (path : list MazeCell)
    (backpack_capacity : Z) :
  take_treasures store (map MazeCellObj path) backpack_capacity
  = harvest store path backpack_capacity.
Proof.
  unfold take_treasures, harvest. rewrite take_treasures_loop_fold.
  apply finish_harvest.
Qed.

(** A path that starts with a [Position] object makes the harvester fail
    at once, on [cell.tile]. *)
Lemma take_treasures_on_positions (store : object_store) (p : Position)
    (rest : list Position) (backpack_capacity : Z) :
  take_treasures store (map PositionObj (p :: rest)) backpack_capacity
  = Raise AttributeError.
Proof. reflexivity. Qed.

(* ================================================================= *)
(** ** From the found path to the harvest *)

Lemma way_out_in_bounds (self : Maze) (path : list Position) :
  way_out self path -> Forall (in_bounds self) path.
Proof.
  intros (rest & -> & _ & Fs & Lk & _).
  constructor; [apply Fs|].
  eapply Forall_impl; [|eapply linked_free; eauto]. now intros q [Hq _].
Qed.




(** *** A 3 x 3 example: start (0,0), exit (2,2), a wall at (0,1) and a
    [SpookyHollow] at (1,1) holding [gem] and [anvil]. *)

Definition sample_maze : Maze :=
  Eval vm_compute in
    match Maze_init (mkPosition 0 0) [mkPosition 2 2] [mkPosition 0 1]
                    [(0, mkPosition 1 1)] 3 3 with
    | Ok m => m
    | Raise _ => mkMaze (mkPosition 0 0) [] 0 0 []
    end.

Definition sample_hollows : object_store :=
  Eval vm_compute in
    match SpookyHollow.restructure_hollow TieRight
            [SpookyHollow.gem; SpookyHollow.anvil] with
    | Ok s => [SpookyHollowObj s]
    | Raise _ => []
    end.

Definition sample_path : list Position :=
  Eval vm_compute in
    match find_way_out sample_maze with
    | Ok (Some path, _) => path
    | _ => []
    end.

Definition sample_maze_after : Maze :=
  Eval vm_compute in
    match find_way_out sample_maze with
    | Ok (_, m) => m
    | _ => sample_maze
    end.

Definition sample_cells : list MazeCell :=
  Eval vm_compute in
    flat_map (fun p => match cell_at (grid sample_maze_after) p with
                       | Ok c => [c]
                       | Raise _ => []
                       end) sample_path.

Lemma sample_maze_built :
  Maze_init (mkPosition 0 0) [mkPosition 2 2] [mkPosition 0 1]
            [(0, mkPosition 1 1)] 3 3 = Ok sample_maze.
Proof. reflexivity. Qed.

Lemma sample_search :
  find_way_out sample_maze = Ok (Some sample_path, sample_maze_after).
Proof. reflexivity. Qed.

(** The end-to-end property of the spec (8): with capacity 3 the harvest on
    the cells of the found path is the weight-2 treasure alone. *)
Example sample_harvest :
  sample_path =
    [mkPosition 0 0; mkPosition 1 0; mkPosition 2 0; mkPosition 2 1;
     mkPosition 1 1; mkPosition 1 2; mkPosition 2 2] /\
  (r <- take_treasures sample_hollows (map MazeCellObj sample_cells) 3 ;;
   Ok (fst r)) = Ok (Some [SpookyHollow.gem]).
Proof. split; reflexivity. Qed.




(* ================================================================= *)
(** ** [Maze.__init__] builds a fresh maze *)

Section CreateGrid.
Variables (start : Position) (ends : list Position) (n_rows n_cols : Z).

Definition maze_of (g : list (list MazeCell)) : Maze :=
  {| start_position := start; end_positions := ends;
     rows := n_rows; cols := n_cols; grid := g |}.

Definition inside (p : Position) : Prop :=
  (0 <= row p < n_rows)%Z /\ (0 <= col p < n_cols)%Z.

(** The grid has the declared shape and the cell at every position [q]
    satisfies [P q]. *)
Definition cells_sat (P : Position -> MazeCell -> Prop)
    (g : list (list MazeCell)) : Prop :=
  grid_shape (maze_of g) /\
  forall q, inside q -> exists c, cell_at g q = Ok c /\ P q c.

Lemma update_cell_sat (P P' : Position -> MazeCell -> Prop)
    (g : list (list MazeCell)) (p : Position) (f : MazeCell -> MazeCell) :
  cells_sat P g -> inside p ->
  (forall q c, q <> p -> P q c -> P' q c) ->
  (forall c, P p c -> P' p (f c)) ->
  exists g', update_cell g p f = Ok g' /\ cells_sat P' g'.
Proof.
  intros [Sh Cells] Hp Other Here.
  destruct (Cells p Hp) as (c & Ec & Pc).
  destruct (@put_cell_in_bounds (maze_of g) Sh p (f c) Hp)
    as (g' & Pg & Sh' & Cells').
  cbn [maze_of grid] in *. unfold update_cell. rewrite Ec. cbn [bind].
  exists g'. split; [exact Pg|]. split; [exact Sh'|].
  intros q Hq. rewrite (Cells' q Hq).
  destruct (Position_eq_dec q p) as [->|Nq].
  - exists (f c). split; [reflexivity|]. now apply Here.
  - destruct (Cells q Hq) as (c' & Ec' & Pc'). exists c'.
    split; [exact Ec'|]. now apply Other.
Qed.

(** A loop of updates; [P done] is what holds of the cells after the updates
    of [done]. *)
Lemma fold_updates_sat {A : Type}
    (P : list A -> Position -> MazeCell -> Prop)
    (pos : A -> Position) (f : A -> MazeCell -> MazeCell) (ok : A -> Prop) :
  (forall x, ok x -> inside (pos x)) ->
  (forall done x q c, ok x -> q <> pos x ->
     P done q c -> P (done ++ [x]) q c) ->
  (forall done x c, ok x ->
     P done (pos x) c -> P (done ++ [x]) (pos x) (f x c)) ->
  forall (l done : list A) (g : list (list MazeCell)),
  (forall x, In x l -> ok x) -> cells_sat (P done) g ->
  exists g',
    fold_left (fun acc x => g0 <- acc ;; update_cell g0 (pos x) (f x)) l (Ok g)
    = Ok g' /\ cells_sat (P (done ++ l)) g'.
Proof.
  intros Hin Other Here. induction l as [|x l IH]; intros done g Hok Sat.
  - exists g. rewrite app_nil_r. split; [reflexivity|exact Sat].
  - cbn [fold_left bind].
    assert (Ox : ok x) by (apply Hok; now left).
    destruct (@update_cell_sat (P done) (P (done ++ [x])) g (pos x) (f x) Sat)
      as (g1 & E1 & Sat1); auto.
    rewrite E1.
    destruct (IH (done ++ [x]) g1) as (g' & E' & Sat'); auto.
    { intros y Hy. apply Hok. now right. }
    exists g'. split; [exact E'|]. now rewrite <- app_assoc in Sat'.
Qed.

Lemma blank_grid_shape :
  (0 <= n_rows)%Z -> (0 <= n_cols)%Z ->
  grid_shape
    (maze_of (map (fun i => map (fun j => mkMazeCell (TileStr EMPTY)
                                           (mkPosition i j) false)
                                (range n_cols)) (range n_rows))).
Proof.
  intros Hr Hc. split; cbn [maze_of grid rows cols].
  - rewrite length_map, length_range. lia.
  - apply Forall_forall. intros r Hin. apply in_map_iff in Hin as (i & <- & _).
    rewrite length_map, length_range. lia.
Qed.

Lemma blank_grid_cell (q : Position) :
  inside q ->
  cell_at (map (fun i => map (fun j => mkMazeCell (TileStr EMPTY)
                                         (mkPosition i j) false)
                              (range n_cols)) (range n_rows)) q
  = Ok (mkMazeCell (TileStr EMPTY) q false).
Proof.
  intros [Hr Hc]. unfold cell_at.
  assert (Nth : forall n i, (0 <= i < n)%Z ->
            nth_error (range n) (Z.to_nat i) = Some i).
  { intros n i Hi. unfold range.
    rewrite nth_error_map, nth_error_seq.
    destruct (Nat.ltb_spec (Z.to_nat i) (Z.to_nat n)); [|lia].
    simpl. f_equal. lia. }
  rewrite <- (Z2Nat.id (row q)) at 1 by lia.
  erewrite py_getitem_nth_error;
    [|rewrite nth_error_map, (Nth n_rows (row q) Hr); reflexivity].
  cbn [bind].
  rewrite <- (Z2Nat.id (col q)) at 1 by lia.
  erewrite py_getitem_nth_error;
    [|rewrite nth_error_map, (Nth n_cols (col q) Hc); reflexivity].
  now destruct q.
Qed.

(** Before the exits are written: no cell is visited, none is an exit, and
    the start is not a wall. *)
Definition no_exit_yet (q : Position) (c : MazeCell) : Prop :=
  visited c = false /\ tile_is EXIT (tile c) = false /\
  (q = start -> tile_is WALL (tile c) = false).

(** While the exits are written: the cells with the [EXIT] tile are the
    exits written so far. *)
Definition exits_written (done : list Position) (q : Position) (c : MazeCell)
    : Prop :=
  visited c = false /\
  (q = start -> tile_is WALL (tile c) = false) /\
  (tile_is EXIT (tile c) = true <-> In q done).

Lemma bool_eqb_iff (a b : bool) : (a = true <-> b = true) -> Bool.eqb a b = true.
Proof. destruct a, b; simpl; intros [H1 H2]; auto. Qed.

Lemma cells_sat_fresh (g : list (list MazeCell)) :
  cells_sat (exits_written ends) g -> inside start ->
  fresh_maze (maze_of g) = true.
Proof.
  intros [Sh Cells] Hs.
  assert (ShE : grid_shape (maze_of g)) by exact Sh.
  destruct Sh as [Sr Sc]. cbn [maze_of grid rows cols] in Sr, Sc.
  unfold fresh_maze. cbn [maze_of grid rows cols start_position end_positions].
  rewrite !andb_true_iff, negb_true_iff.
  split; [split; [split; [split; [split|]|]|]|].
  - now apply Z.eqb_eq.
  - apply forallb_forall. intros r Hr. apply Z.eqb_eq.
    rewrite Forall_forall in Sc. now apply Sc.
  - apply forallb_forall. intros r Hr. apply forallb_forall. intros c Hc.
    apply negb_true_iff.
    apply In_nth_error in Hr as [i Ei]. apply In_nth_error in Hc as [j Ej].
    assert (Li : i < length g) by (apply nth_error_Some; congruence).
    assert (Lj : j < length r) by (apply nth_error_Some; congruence).
    assert (Lr : Z.of_nat (length r) = n_cols).
    { rewrite Forall_forall in Sc. apply Sc. eapply nth_error_In; eauto. }
    destruct (Cells (mkPosition (Z.of_nat i) (Z.of_nat j)))
      as (c' & Ec' & Vc' & _).
    { split; cbn [row col]; lia. }
    unfold cell_at in Ec'. cbn [row col] in Ec'.
    rewrite (py_getitem_nth_error _ _ Ei) in Ec'. cbn [bind] in Ec'.
    rewrite (py_getitem_nth_error _ _ Ej) in Ec'. congruence.
  - apply in_boundsb_iff. exact Hs.
  - destruct (Cells start Hs) as (c & Ec & _ & Wc & _).
    unfold is_wall, tile_at. cbn [maze_of grid]. rewrite Ec. now apply Wc.
  - apply forallb_forall. intros p Hp.
    apply In_all_positions in Hp.
    destruct (Cells p Hp) as (c & Ec & _ & _ & Xc).
    apply bool_eqb_iff. rewrite existsb_Position_eqb.
    unfold is_exit, tile_at. cbn [maze_of grid]. now rewrite Ec.
Qed.

End CreateGrid.

(** X11: [Maze.__init__] on validated input (the start, the walls, the
    hollows and the exits inside the grid, no wall on the start) never
    raises and builds a maze ready to be searched: the grid has [rows] rows
    of [cols] cells, no cell is visited, the start is not a wall, and the
    cells with the [EXIT] tile are exactly those of [end_positions]. *)
Lemma Maze_init_fresh (start : Position) (ends walls : list Position)
    (hollows : list (nat * Position)) (n_rows n_cols : Z) :
  inside n_rows n_cols start ->
  (forall w, In w walls -> inside n_rows n_cols w /\ w <> start) ->
  (forall h, In h hollows -> inside n_rows n_cols (snd h)) ->
  (forall e, In e ends -> inside n_rows n_cols e) ->
  exists m,
    Maze_init start ends walls hollows n_rows n_cols = Ok m /\
    fresh_maze m = true.
Proof.
  intros Hs Hw Hh He.
  unfold Maze_init, _create_grid.
  set (grid0 := map _ (range n_rows)).
  assert (Sh0 : grid_shape (maze_of start ends n_rows n_cols grid0))
    by (apply blank_grid_shape; destruct Hs; lia).
  destruct (@put_cell_in_bounds _ Sh0 start
              (mkMazeCell (TileStr START_POSITION) start false) Hs)
    as (grid1 & E1 & Sh1 & Cells1).
  cbn [maze_of grid] in E1. rewrite E1. cbn [bind].
  assert (Sat1 : cells_sat start ends n_rows n_cols (no_exit_yet start) grid1).
  { split; [exact Sh1|]. intros q Hq. rewrite (Cells1 q Hq).
    destruct (Position_eq_dec q start) as [->|Nq].
    - eexists. split; [reflexivity|]. repeat split.
    - cbn [maze_of grid]. unfold grid0.
      rewrite blank_grid_cell by exact Hq.
      eexists. split; [reflexivity|]. repeat split. }
  destruct (@fold_updates_sat start ends n_rows n_cols Position
              (fun _ => no_exit_yet start) (fun w => w)
              (fun _ c => set_tile c (TileStr WALL))
              (fun w => inside n_rows n_cols w /\ w <> start))
    with (l := walls) (done := @nil Position) (g := grid1)
    as (grid2 & E2 & Sat2); auto.
  { now intros w [Hin _]. }
  { intros _ w c [_ Nw] (V & X & S). repeat split; auto; congruence. }
  cbn beta in E2. rewrite E2. cbn [bind].
  destruct (@fold_updates_sat start ends n_rows n_cols (nat * Position)
              (fun _ => no_exit_yet start) snd
              (fun hp c => set_tile c (TileHollow (fst hp)))
              (fun hp => inside n_rows n_cols (snd hp)))
    with (l := hollows) (done := @nil (nat * Position)) (g := grid2)
    as (grid3 & E3 & Sat3); auto.
  { intros _ h c _ (V & X & S). repeat split; auto. }
  cbn beta in E3. rewrite E3. cbn [bind].
  destruct (@fold_updates_sat start ends n_rows n_cols Position
              (exits_written start) (fun e => e)
              (fun _ c => set_tile c (TileStr EXIT))
              (inside n_rows n_cols))
    with (l := ends) (done := @nil Position) (g := grid3)
    as (grid4 & E4 & Sat4); auto.
  { intros done e q c _ Nq (V & S & X). repeat split; auto.
    - intros Hx. apply in_or_app. left. now apply X.
    - intros Hin. apply X. apply in_app_or in Hin as [Hin|[<-|[]]]; congruence. }
  { intros done e c _ (V & S & X). repeat split; auto.
    intros _. apply in_or_app. right. now left. }
  { destruct Sat3 as [Sh3 Cells3]. split; [exact Sh3|].
    intros q Hq. destruct (Cells3 q Hq) as (c & Ec & V & X & S).
    exists c. split; [exact Ec|].
    split; [exact V|]. split; [exact S|].
    split; [rewrite X; discriminate | intros []]. }
  cbn beta in E4. rewrite E4. cbn [bind].
  eexists. split; [reflexivity|].
  now apply (@cells_sat_fresh start ends n_rows n_cols grid4 Sat4).
Qed.

(* ================================================================= *)
(** * Further properties *)

(** ** [betterbst.py]: the shape of the built tree *)

Section BetterBSTShape.
Context {K I : Type} `{Ord K}.

(** A tree of height [h] has at most [2 ^ h - 1] nodes. *)
Lemma size_below_pow2 (t : tree K I) : length (inorder t) + 1 <= 2 ^ height t.
Proof.
  induction t as [|k i l IHl r IHr]; [simpl; lia|].
  cbn [inorder height]. rewrite length_app. cbn [length].
  rewrite Nat.pow_succ_r'.
  assert (Hl : 2 ^ height l <= 2 ^ Nat.max (height l) (height r))
    by (apply Nat.pow_le_mono_r; lia).
  assert (Hr : 2 ^ height r <= 2 ^ Nat.max (height l) (height r))
    by (apply Nat.pow_le_mono_r; lia).
  lia.
Qed.

(** Two strictly ascending lists with the same elements are the same list. *)
Lemma strictly_ascending_perm_eq {A : Type} (key : A -> K) (l1 l2 : list A) :
  strictly_ascending key l1 -> strictly_ascending key l2 ->
  Permutation l1 l2 -> l1 = l2.
Proof.
  unfold strictly_ascending. intros S1. revert l2.
  induction S1 as [|a l1 S1 IH F1]; intros l2 S2 P.
  - now apply Permutation_nil in P.
  - destruct S2 as [|b l2 S2 F2].
    + symmetry in P. now apply Permutation_nil in P.
    + rewrite Forall_forall in F1, F2.
      assert (E : a = b).
      { assert (Ha : In a (b :: l2))
          by (apply (Permutation_in a P); now left).
        assert (Hb : In b (a :: l1))
          by (apply (Permutation_in b (Permutation_sym P)); now left).
        destruct Ha as [Ha|Ha]; [now symmetry|].
        destruct Hb as [Hb|Hb]; [exact Hb|]. exfalso.
        apply (olt_irrefl (x := key a)).
        eapply olt_trans; [apply (F1 b Hb)|apply (F2 a Ha)]. }
      subst b. f_equal. apply IH; [exact S2|].
      now apply Permutation_cons_inv in P.
Qed.

Variables side side' : tie_side.

(** X1: with pairwise distinct keys, inserting the midpoints one after the
    other (as [_build_balanced_tree_aux] does, through the tree's insertion)
    builds exactly the tree that has the middle element of the sorted list
    at the root, the tree of the lower half as left child and the tree of
    the upper half as right child, recursively; no call raises. *)
Theorem BetterBST_is_midpoint_tree (elements : list (K * I)) :
  distinct_keys fst elements ->
  BetterBST side elements =
  Ok (midpoint_tree (S (length elements)) (mergesort fst elements)
        0 (Z.of_nat (length elements) - 1)).
Proof. apply BetterBST_distinct_midpoint. Qed.

(** X2: with pairwise distinct keys the built tree has the least height a
    binary tree of [n] nodes can have: its height is [ceil (log2 (n + 1))],
    and no tree with as many nodes is lower. *)
Theorem BetterBST_height_minimal (elements : list (K * I)) :
  distinct_keys fst elements ->
  exists t : tree K I,
    BetterBST side elements = Ok t /\
    height t = Nat.log2_up (length elements + 1) /\
    forall t' : tree K I,
      length (inorder t') = length elements -> height t <= height t'.
Proof.
  intros D. pose proof (BetterBST_distinct_midpoint side D) as B.
  set (n := length elements) in *.
  remember (midpoint_tree (S n) (mergesort fst elements) 0 (Z.of_nat n - 1))
    as t eqn:Et.
  exists t. split; [exact B|].
  assert (E : length (inorder t) = n).
  { pose proof (midpoint_tree_whole_inorder (mergesort fst elements)) as W.
    rewrite (mergesort_length fst elements) in W. fold n in W.
    rewrite Et, W. apply mergesort_length. }
  assert (Up : height t <= Nat.log2_up (n + 1)).
  { pose proof (@midpoint_tree_height _ _ (mergesort fst elements)
                  (S n) 0 n (Nat.log2_up (n + 1))) as Hh.
    cbn [Nat.add Z.of_nat] in Hh. rewrite Et. apply Hh; [lia|].
    destruct n as [|m]; [simpl; lia|].
    apply Nat.log2_up_spec. lia. }
  assert (Lo : forall t' : tree K I,
             length (inorder t') = n -> Nat.log2_up (n + 1) <= height t').
  { intros t' L. apply Nat.log2_up_le_pow2; [lia|].
    rewrite <- L. apply size_below_pow2. }
  split.
  - apply Nat.le_antisymm; [exact Up|]. now apply Lo.
  - intros t' L. specialize (Lo t' L). lia.
Qed.

(** X3: with pairwise distinct keys the built tree depends neither on the
    order in which the elements are given nor on the side equal keys would
    descend to: two lists with the same elements give the same tree. *)
Theorem BetterBST_order_independent (elements elements' : list (K * I)) :
  distinct_keys fst elements -> Permutation elements elements' ->
  BetterBST side elements = BetterBST side' elements'.
Proof.
  intros D P.
  assert (D' : distinct_keys fst elements')
    by (eapply distinct_keys_perm; eauto).
  rewrite (BetterBST_distinct_midpoint side D),
          (BetterBST_distinct_midpoint side' D').
  rewrite (Permutation_length P).
  assert (E : mergesort fst elements = mergesort fst elements').
  { apply (strictly_ascending_perm_eq (key := fst)).
    - now apply mergesort_strict.
    - now apply mergesort_strict.
    - rewrite !mergesort_perm. exact P. }
  now rewrite E.
Qed.

End BetterBSTShape.

Lemma BetterBST_is_midpoint_tree_witness :
  distinct_keys fst five_keys /\
  BetterBST TieLeft five_keys =
  Ok (midpoint_tree (S (length five_keys)) (mergesort fst five_keys)
        0 (Z.of_nat (length five_keys) - 1)).
Proof.
  split; [exact five_keys_distinct|].
  exact (BetterBST_is_midpoint_tree TieLeft five_keys_distinct).
Defined.

Lemma BetterBST_height_minimal_witness :
  distinct_keys fst five_keys /\
  exists t : tree Z nat,
    BetterBST TieRight five_keys = Ok t /\
    height t = Nat.log2_up (length five_keys + 1) /\
    forall t' : tree Z nat,
      length (inorder t') = length five_keys -> height t <= height t'.
Proof.
  split; [exact five_keys_distinct|].
  exact (BetterBST_height_minimal TieRight five_keys_distinct).
Defined.

Lemma BetterBST_order_independent_witness :
  distinct_keys fst five_keys /\
  Permutation five_keys (rev five_keys) /\
  BetterBST TieLeft five_keys = BetterBST TieRight (rev five_keys).
Proof.
  split; [exact five_keys_distinct|].
  split; [apply Permutation_rev|].
  exact (BetterBST_order_independent TieLeft TieRight five_keys_distinct
           (Permutation_rev five_keys)).
Defined.

(* ================================================================= *)
(** ** [hollows.py]: what every call guarantees *)

(** The treasures a sequence of calls returned, in order. *)
Definition taken (results : list (option Treasure)) : list Treasure :=
  flat_map (fun r => match r with Some tr => [tr] | None => [] end) results.

Lemma BetterBST_distinct_height {K I : Type} `{Ord K} (side : tie_side)
    (elements : list (K * I)) :
  distinct_keys fst elements ->
  exists t : tree K I,
    BetterBST side elements = Ok t /\
    inorder t = mergesort fst elements /\
    height t <= Nat.log2_up (length elements + 1).
Proof.
  intros D. pose proof (BetterBST_distinct_midpoint side D) as B.
  set (n := length elements) in *.
  eexists. split; [exact B|]. split.
  - pose proof (midpoint_tree_whole_inorder (mergesort fst elements)) as W.
    rewrite (mergesort_length fst elements) in W. exact W.
  - pose proof (@midpoint_tree_height _ _ (mergesort fst elements)
                  (S n) 0 n (Nat.log2_up (n + 1))) as Hh.
    cbn [Nat.add Z.of_nat] in Hh. apply Hh; [lia|].
    destruct n as [|m]; [simpl; lia|].
    apply Nat.log2_up_spec. lia.
Qed.

(** X4: [SpookyHollow.restructure_hollow] on treasures of pairwise
    different ratios never raises; the new [treasures] attribute is a search
    tree keyed by ratio that holds exactly the given treasures, and its
    height is at most [ceil (log2 (n + 1))]. *)
Theorem restructure_hollow_balanced_store (side : tie_side)
    (treasures : list Treasure) :
  distinct_ratios treasures ->
  exists s : SpookyHollow.store,
    SpookyHollow.restructure_hollow side treasures = Ok s /\
    SpookyHollow.store_ok s /\
    Permutation (SpookyHollow.stored s) treasures /\
    height s <= Nat.log2_up (length treasures + 1).
Proof.
  intros D.
  destruct (SpookyHollow.restructure_hollow_ok side D) as (s & B & OK & P).
  exists s. split; [exact B|]. split; [exact OK|]. split; [exact P|].
  unfold SpookyHollow.restructure_hollow in B.
  destruct (BetterBST_distinct_height side
              (SpookyHollow.distinct_ratios_numbers D)) as (t & B' & _ & Hh).
  rewrite B in B'. injection B' as <-. now rewrite length_map in Hh.
Qed.

Lemma restructure_hollow_balanced_store_witness :
  distinct_ratios [SpookyHollow.gem; SpookyHollow.anvil; SpookyHollow.crown] /\
  exists s : SpookyHollow.store,
    SpookyHollow.restructure_hollow TieLeft
      [SpookyHollow.gem; SpookyHollow.anvil; SpookyHollow.crown] = Ok s /\
    SpookyHollow.store_ok s /\
    Permutation (SpookyHollow.stored s)
      [SpookyHollow.gem; SpookyHollow.anvil; SpookyHollow.crown] /\
    height s <= Nat.log2_up
      (length [SpookyHollow.gem; SpookyHollow.anvil; SpookyHollow.crown] + 1).
Proof.
  split; [exact example_treasures_distinct|].
  exact (restructure_hollow_balanced_store TieLeft example_treasures_distinct).
Defined.

(** The node a successful call returns: the last node in in-order whose
    treasure fits; the tree afterwards is what deleting its key gives. *)
Lemma spooky_result_node (t : SpookyHollow.store) (c : Z)
    (tr : Treasure) (t' : SpookyHollow.store) :
  SpookyHollow.get_optimal_treasure t c = Ok (Some tr, t') ->
  exists k l1 l2,
    inorder t = l1 ++ (k, tr) :: l2 /\
    fits_in c tr = true /\
    Forall (fun x => fits_in c (snd x) = false) l2 /\
    delitem t k = Ok t'.
Proof.
  unfold SpookyHollow.get_optimal_treasure.
  destruct (tree_nil_dec t) as [->|N]; [intros X; discriminate X|].
  replace (is_empty t) with false
    by (destruct t; [congruence|reflexivity]).
  destruct (get_maximal_inorder N) as (front & [bk bi] & E & G). rewrite G.
  destruct (fits_in c bi) eqn:Fb.
  - destruct (delitem t bk) as [t1|] eqn:D; [|intros X; discriminate X].
    cbn [bind]. intros [= <- <-]. exists bk, front, []. auto.
  - rewrite SpookyHollow.scan_order. cbn [bind].
    destruct (find _ (rev (inorder t))) as [[r tr']|] eqn:Ef;
      [|intros X; discriminate X].
    destruct (delitem t r) as [t1|] eqn:D; [|intros X; discriminate X].
    cbn [bind]. intros [= <- <-].
    apply SpookyHollow.find_rev_Some in Ef as (l1 & l2 & E' & Ft & F2).
    exists r, l1, l2. auto.
Qed.

(** X5: whatever the tree, a treasure [SpookyHollow.get_optimal_treasure]
    returns was stored in the hollow and is not heavier than the capacity.
    If the tree is ordered by ratio (equal ratios allowed), the returned
    treasure has the largest ratio among the stored treasures that fit. *)
Theorem spooky_result_best (t : SpookyHollow.store) (c : Z)
    (tr : Treasure) (t' : SpookyHollow.store) :
  SpookyHollow.get_optimal_treasure t c = Ok (Some tr, t') ->
  In tr (SpookyHollow.stored t) /\
  fits_in c tr = true /\
  (bst_weak t -> SpookyHollow.keyed_by_ratio (inorder t) ->
   forall x, In x (SpookyHollow.stored t) -> fits_in c x = true ->
             ole (value_to_weight_ratio x) (value_to_weight_ratio tr)).
Proof.
  intros E. destruct (spooky_result_node _ _ E) as (k & l1 & l2 & Et & Ft & F2 & _).
  unfold SpookyHollow.stored. rewrite Et.
  split; [apply in_map_iff; exists (k, tr); split; [reflexivity|apply in_elt]|].
  split; [exact Ft|].
  unfold bst_weak, ascending, SpookyHollow.keyed_by_ratio. rewrite Et.
  intros Bw Kr x Hx Fx.
  apply StronglySorted_mid_iff in Bw as (_ & _ & B1 & _).
  rewrite Forall_forall in Kr, B1, F2.
  apply in_map_iff in Hx as (e' & <- & He').
  assert (Kt : k = value_to_weight_ratio tr)
    by (apply (Kr (k, tr)), in_elt).
  rewrite <- Kt, <- (Kr e' He').
  apply in_app_or in He' as [He'|[<-|He']].
  - exact (B1 e' He').
  - apply ole_refl.
  - rewrite (F2 e' He') in Fx. discriminate.
Qed.

Lemma spooky_result_best_witness :
  SpookyHollow.get_optimal_treasure SpookyHollow.tied_store_left 5
  = Ok (Some SpookyHollow.coin,
        TreeNode (2 # 1)%Q SpookyHollow.coin Nil Nil) /\
  In SpookyHollow.coin (SpookyHollow.stored SpookyHollow.tied_store_left) /\
  fits_in 5 SpookyHollow.coin = true /\
  (bst_weak SpookyHollow.tied_store_left ->
   SpookyHollow.keyed_by_ratio (inorder SpookyHollow.tied_store_left) ->
   forall x, In x (SpookyHollow.stored SpookyHollow.tied_store_left) ->
             fits_in 5 x = true ->
             ole (value_to_weight_ratio x)
                 (value_to_weight_ratio SpookyHollow.coin)).
Proof.
  split; [reflexivity|].
  exact (@spooky_result_best SpookyHollow.tied_store_left 5 SpookyHollow.coin
           (TreeNode (2 # 1)%Q SpookyHollow.coin Nil Nil) eq_refl).
Defined.

(** The call without the shortcut through [get_maximal]: the nodes are
    scanned in descending in-order, the first treasure that fits is chosen
    and its key is deleted. *)
Definition get_optimal_treasure_by_scan (treasures : SpookyHollow.store)
    (backpack_capacity : Z) : result (option Treasure * SpookyHollow.store) :=
  if is_empty treasures then Ok (None, treasures)
  else
    match find (fun node => fits_in backpack_capacity (snd node))
               (rev (inorder treasures)) with
    | None => Ok (None, treasures)
    | Some (treasure_to_delete, chosen_treasure) =>
        treasures' <- delitem treasures treasure_to_delete ;;
        Ok (Some chosen_treasure, treasures')
    end.

(** X6: the early return of [SpookyHollow.get_optimal_treasure] (the node
    [get_maximal] finds, when its treasure fits) never changes the answer:
    on every tree and capacity the call does what the descending scan alone
    does, and pushing the in-order nodes through the stack is reversing
    them. *)
Theorem spooky_shortcut_is_scan (t : SpookyHollow.store) (c : Z) :
  SpookyHollow.get_optimal_treasure t c = get_optimal_treasure_by_scan t c.
Proof.
  unfold SpookyHollow.get_optimal_treasure, get_optimal_treasure_by_scan.
  destruct (tree_nil_dec t) as [->|N]; [reflexivity|].
  replace (is_empty t) with false
    by (destruct t; [congruence|reflexivity]).
  destruct (get_maximal_inorder N) as (front & [bk bi] & E & G). rewrite G.
  destruct (fits_in c bi) eqn:Fb.
  - rewrite E, rev_unit. cbn [find snd]. now rewrite Fb.
  - rewrite SpookyHollow.scan_order. reflexivity.
Qed.

(** X7: [MysticalHollow.get_optimal_treasure] never raises, whatever the
    heap holds.  A returned treasure was in the heap and is not heavier than
    the capacity; the answer is [None] exactly when no treasure in the heap
    fits (in particular on an empty heap). *)
Theorem mystical_result_fits (self : MysticalHollow.hollow) (c : Z) :
  exists (r : option Treasure) (self' : MysticalHollow.hollow),
    MysticalHollow.get_optimal_treasure self c = Ok (r, self') /\
    match r with
    | Some tr => In tr (MysticalHollow.heap self) /\ fits_in c tr = true
    | None => Forall (fun x => fits_in c x = false) (MysticalHollow.heap self)
    end.
Proof.
  destruct (MysticalHollow.heap_call_spec self c)
    as (chosen & h' & temp' & _ & E & F & X).
  exists chosen. eexists. split; [exact E|].
  destruct chosen as [tr|].
  - destruct X as [Ft P]. split; [|exact Ft].
    apply (Permutation_in tr (Permutation_sym P)). now left.
  - destruct X as [_ P].
    eapply Permutation_Forall; [symmetry; exact P|exact F].
Qed.

(** X8: on a heap that satisfies the max-heap order (equal ratios allowed),
    a returned treasure has the largest ratio among the treasures in the
    heap that fit, and the heap satisfies the order again after the call,
    the buffered treasures having been added back. *)
Theorem mystical_result_best (self : MysticalHollow.hollow) (c : Z) :
  MaxHeap.heap_ordered (MysticalHollow.heap self) ->
  exists (r : option Treasure) (self' : MysticalHollow.hollow),
    MysticalHollow.get_optimal_treasure self c = Ok (r, self') /\
    MaxHeap.heap_ordered (MysticalHollow.heap self') /\
    match r with
    | Some tr =>
        forall x, In x (MysticalHollow.heap self) -> fits_in c x = true ->
                  ole (value_to_weight_ratio x) (value_to_weight_ratio tr)
    | None => True
    end.
Proof.
  intros Ho.
  destruct (MysticalHollow.heap_call_spec self c)
    as (chosen & h' & temp' & L & E & F & X).
  destruct (MysticalHollow.pop_until_fits_heap _ _ _ Ho L) as [Ho' Mx].
  exists chosen. eexists. split; [exact E|].
  cbn [MysticalHollow.heap].
  split; [now apply MysticalHollow.add_back_heap|].
  destruct chosen as [tr|]; [|exact I].
  destruct X as [_ P]. intros x Hx Fx.
  apply (Permutation_in x P) in Hx. destruct Hx as [<-|Hx]; [apply ole_refl|].
  apply in_app_or in Hx as [Hx|Hx].
  - rewrite Forall_forall in F. rewrite (F x Hx) in Fx. discriminate.
  - rewrite Forall_forall in Mx. exact (Mx x Hx).
Qed.

Lemma mystical_result_best_witness :
  MaxHeap.heap_ordered
    (MysticalHollow.heap
       (MysticalHollow.__init__ [SpookyHollow.ingot; SpookyHollow.coin])) /\
  exists (r : option Treasure) (self' : MysticalHollow.hollow),
    MysticalHollow.get_optimal_treasure
      (MysticalHollow.__init__ [SpookyHollow.ingot; SpookyHollow.coin]) 5
    = Ok (r, self') /\
    MaxHeap.heap_ordered (MysticalHollow.heap self') /\
    match r with
    | Some tr =>
        forall x,
          In x (MysticalHollow.heap
                  (MysticalHollow.__init__
                     [SpookyHollow.ingot; SpookyHollow.coin])) ->
          fits_in 5 x = true ->
          ole (value_to_weight_ratio x) (value_to_weight_ratio tr)
    | None => True
    end.
Proof.
  assert (Ho : MaxHeap.heap_ordered
                 (MysticalHollow.heap
                    (MysticalHollow.__init__
                       [SpookyHollow.ingot; SpookyHollow.coin])))
    by apply MaxHeap.heapify_heap.
  split; [exact Ho|].
  exact (mystical_result_best
           (MysticalHollow.__init__ [SpookyHollow.ingot; SpookyHollow.coin])
           5 Ho).
Defined.

Lemma mystical_calls_account (capacities : list Z) :
  forall self : MysticalHollow.hollow,
  exists (rs : list (option Treasure)) (self' : MysticalHollow.hollow),
    MysticalHollow.calls self capacities = Ok (rs, self') /\
    length rs = length capacities /\
    Permutation (MysticalHollow.heap self)
                (taken rs ++ MysticalHollow.heap self').
Proof.
  induction capacities as [|c cs IH]; intros self; cbn [MysticalHollow.calls].
  - exists [], self. repeat split; reflexivity.
  - destruct (MysticalHollow.heap_call_spec self c)
      as (chosen & h' & temp' & _ & E & _ & X).
    rewrite E. cbn [bind].
    destruct (IH {| MysticalHollow.treasures := MysticalHollow.treasures self;
                    MysticalHollow.heap := MysticalHollow.add_back h' temp' |})
      as (rs & self' & E' & Ln & P).
    rewrite E'. cbn [bind]. cbn [MysticalHollow.heap] in P.
    exists (chosen :: rs), self'. split; [reflexivity|].
    split; [simpl; now rewrite Ln|].
    unfold taken in *. cbn [flat_map]. rewrite <- app_assoc, <- P.
    rewrite MysticalHollow.add_back_perm.
    destruct chosen as [tr|]; cbn [app].
    + now destruct X as [_ ->].
    + destruct X as [-> ->]. now rewrite app_nil_r.
Qed.

(** X9: through any sequence of calls on a [MysticalHollow], no call
    raises, there is one answer per call, and treasures are neither lost
    nor duplicated: the returned treasures together with the heap left
    behind are exactly the generated treasures. *)
Theorem mystical_calls_conserve (generated : list Treasure)
    (capacities : list Z) :
  exists (rs : list (option Treasure)) (self' : MysticalHollow.hollow),
    MysticalHollow.calls (MysticalHollow.__init__ generated) capacities
    = Ok (rs, self') /\
    length rs = length capacities /\
    Permutation generated (taken rs ++ MysticalHollow.heap self').
Proof.
  destruct (mystical_calls_account capacities
              (MysticalHollow.__init__ generated)) as (rs & self' & E & Ln & P).
  exists rs, self'. split; [exact E|]. split; [exact Ln|].
  rewrite <- P. symmetry. apply MaxHeap.heapify_perm.
Qed.

Lemma spooky_calls_account (capacities : list Z) :
  forall s : SpookyHollow.store,
  SpookyHollow.store_ok s ->
  exists (rs : list (option Treasure)) (s' : SpookyHollow.store),
    SpookyHollow.calls s capacities = Ok (rs, s') /\
    length rs = length capacities /\
    SpookyHollow.store_ok s' /\
    Permutation (SpookyHollow.stored s) (taken rs ++ SpookyHollow.stored s').
Proof.
  induction capacities as [|c cs IH]; intros s OK; cbn [SpookyHollow.calls].
  - exists [], s. repeat split; auto; apply OK.
  - pose proof (SpookyHollow.tree_call_spec c OK) as S.
    destruct (SpookyHollow.get_optimal_treasure s c) as [[[tr|] s1]|e];
      [| |contradiction]; cbn [bind].
    + destruct S as [(_ & _ & _ & P1 & _) OK1].
      destruct (IH s1 OK1) as (rs & s' & E' & Ln & OK' & P).
      rewrite E'. cbn [bind]. exists (Some tr :: rs), s'.
      split; [reflexivity|]. split; [simpl; now rewrite Ln|].
      split; [exact OK'|].
      unfold taken in *. cbn [flat_map app]. now rewrite P1, P.
    + destruct S as [-> _].
      destruct (IH s OK) as (rs & s' & E' & Ln & OK' & P).
      rewrite E'. cbn [bind]. exists (None :: rs), s'.
      split; [reflexivity|]. split; [simpl; now rewrite Ln|].
      split; [exact OK'|exact P].
Qed.

(** X10: through any sequence of calls on a [SpookyHollow] built from
    treasures of pairwise different ratios, no call raises (every deletion
    finds its key), the tree stays a search tree keyed by ratio, and the
    returned treasures together with the treasures left in the tree are
    exactly the given ones. *)
Theorem spooky_calls_conserve (side : tie_side) (treasures : list Treasure)
    (capacities : list Z) :
  distinct_ratios treasures ->
  exists (s : SpookyHollow.store) (rs : list (option Treasure))
         (s' : SpookyHollow.store),
    SpookyHollow.restructure_hollow side treasures = Ok s /\
    SpookyHollow.calls s capacities = Ok (rs, s') /\
    length rs = length capacities /\
    SpookyHollow.store_ok s' /\
    Permutation treasures (taken rs ++ SpookyHollow.stored s').
Proof.
  intros D.
  destruct (SpookyHollow.restructure_hollow_ok side D) as (s & B & OK & P).
  destruct (spooky_calls_account capacities OK) as (rs & s' & E & Ln & OK' & P').
  exists s, rs, s'. split; [exact B|]. split; [exact E|].
  split; [exact Ln|]. split; [exact OK'|]. now rewrite <- P, P'.
Qed.

Lemma spooky_calls_conserve_witness :
  distinct_ratios [SpookyHollow.gem; SpookyHollow.anvil; SpookyHollow.crown] /\
  exists (s : SpookyHollow.store) (rs : list (option Treasure))
         (s' : SpookyHollow.store),
    SpookyHollow.restructure_hollow TieRight
      [SpookyHollow.gem; SpookyHollow.anvil; SpookyHollow.crown] = Ok s /\
    SpookyHollow.calls s [3; 1; 20]%Z = Ok (rs, s') /\
    length rs = length [3; 1; 20]%Z /\
    SpookyHollow.store_ok s' /\
    Permutation [SpookyHollow.gem; SpookyHollow.anvil; SpookyHollow.crown]
                (taken rs ++ SpookyHollow.stored s').
Proof.
  split; [exact example_treasures_distinct|].
  exact (spooky_calls_conserve TieRight [3; 1; 20]%Z
           example_treasures_distinct).
Defined.

(* ================================================================= *)
(** ** [maze.py]: the grid [Maze.__init__] builds *)

Lemma Maze_init_fresh_witness :
  inside 3 3 (mkPosition 0 0) /\
  (forall w, In w [mkPosition 0 1] ->
             inside 3 3 w /\ w <> mkPosition 0 0) /\
  (forall h, In h [(0, mkPosition 1 1)] -> inside 3 3 (snd h)) /\
  (forall e, In e [mkPosition 2 2] -> inside 3 3 e) /\
  exists m,
    Maze_init (mkPosition 0 0) [mkPosition 2 2] [mkPosition 0 1]
              [(0, mkPosition 1 1)] 3 3 = Ok m /\
    fresh_maze m = true.
Proof.
  assert (Hs : inside 3 3 (mkPosition 0 0)) by (split; simpl; lia).
  assert (Hw : forall w, In w [mkPosition 0 1] ->
                         inside 3 3 w /\ w <> mkPosition 0 0).
  { intros w [<-|[]]. split; [split; simpl; lia|discriminate]. }
  assert (Hh : forall h, In h [(0, mkPosition 1 1)] -> inside 3 3 (snd h)).
  { intros h [<-|[]]. split; simpl; lia. }
  assert (He : forall e, In e [mkPosition 2 2] -> inside 3 3 e).
  { intros e [<-|[]]. split; simpl; lia. }
  split; [exact Hs|]. split; [exact Hw|]. split; [exact Hh|].
  split; [exact He|].
  exact (@Maze_init_fresh (mkPosition 0 0) [mkPosition 2 2] [mkPosition 0 1]
           [(0, mkPosition 1 1)] 3 3 Hs Hw Hh He).
Defined.

(** The tiles the three loops of [_create_grid] leave behind, later writes
    over earlier ones: a wall replaces the start or the blank, the hollow
    listed last at a position replaces whatever is there, an exit replaces
    everything. *)
Definition tile_after_walls (start : Position) (walls : list Position)
    (q : Position) : tile_value :=
  if existsb (Position_eqb q) walls then TileStr WALL
  else if Position_eqb q start then TileStr START_POSITION
  else TileStr EMPTY.

Definition tile_after_hollows (start : Position) (walls : list Position)
    (hollows : list (nat * Position)) (q : Position) : tile_value :=
  match find (fun hp : nat * Position => Position_eqb q (snd hp))
             (rev hollows) with
  | Some hp => TileHollow (fst hp)
  | None => tile_after_walls start walls q
  end.

Definition tile_built (start : Position) (walls : list Position)
    (hollows : list (nat * Position)) (ends : list Position)
    (q : Position) : tile_value :=
  if existsb (Position_eqb q) ends then TileStr EXIT
  else tile_after_hollows start walls hollows q.

Lemma existsb_snoc (q : Position) (done : list Position) (x : Position) :
  existsb (Position_eqb q) (done ++ [x])
  = existsb (Position_eqb q) done || Position_eqb q x.
Proof. rewrite existsb_app. simpl. now rewrite orb_false_r. Qed.

Lemma Position_eqb_refl (q : Position) : Position_eqb q q = true.
Proof. now destruct (Position_eqb_spec q q). Qed.

Lemma Position_eqb_neq (p q : Position) : p <> q -> Position_eqb p q = false.
Proof. intros N. now destruct (Position_eqb_spec p q). Qed.

(** X12: [Maze.__init__] on positions inside the grid never raises, keeps
    its arguments in the attributes, and fills the grid so that the cell at
    every position [q] is unvisited, carries [q] as its position, and has
    the tile of the last write at [q]: [EXIT] if [q] is an end position,
    else the hollow listed last at [q], else [WALL] if [q] is a wall, else
    the start marker at the start, else the blank. *)
Theorem Maze_init_cells (start : Position) (ends walls : list Position)
    (hollows : list (nat * Position)) (n_rows n_cols : Z) :
  inside n_rows n_cols start ->
  (forall w, In w walls -> inside n_rows n_cols w) ->
  (forall h, In h hollows -> inside n_rows n_cols (snd h)) ->
  (forall e, In e ends -> inside n_rows n_cols e) ->
  exists m,
    Maze_init start ends walls hollows n_rows n_cols = Ok m /\
    start_position m = start /\ end_positions m = ends /\
    rows m = n_rows /\ cols m = n_cols /\
    grid_shape m /\
    forall q, in_bounds m q ->
      cell_at (grid m) q
      = Ok (mkMazeCell (tile_built start walls hollows ends q) q false).
Proof.
  intros Hs Hw Hh He.
  unfold Maze_init, _create_grid.
  set (grid0 := map _ (range n_rows)).
  assert (Sh0 : grid_shape (maze_of start ends n_rows n_cols grid0))
    by (apply blank_grid_shape; destruct Hs; lia).
  destruct (@put_cell_in_bounds _ Sh0 start
              (mkMazeCell (TileStr START_POSITION) start false) Hs)
    as (grid1 & E1 & Sh1 & Cells1).
  cbn [maze_of grid] in E1. rewrite E1. cbn [bind].
  pose (Pw := fun (done : list Position) (q : Position) (c : MazeCell) =>
                c = mkMazeCell (tile_after_walls start done q) q false).
  pose (Ph := fun (done : list (nat * Position)) (q : Position)
                  (c : MazeCell) =>
                c = mkMazeCell (tile_after_hollows start walls done q) q false).
  pose (Pe := fun (done : list Position) (q : Position) (c : MazeCell) =>
                c = mkMazeCell (tile_built start walls hollows done q) q false).
  assert (Sat1 : cells_sat start ends n_rows n_cols (Pw []) grid1).
  { split; [exact Sh1|]. intros q Hq. rewrite (Cells1 q Hq).
    unfold Pw, tile_after_walls. cbn [existsb].
    destruct (Position_eq_dec q start) as [->|Nq].
    - eexists. split; [reflexivity|]. now rewrite Position_eqb_refl.
    - cbn [maze_of grid]. unfold grid0.
      rewrite blank_grid_cell by exact Hq.
      eexists. split; [reflexivity|]. now rewrite Position_eqb_neq. }
  destruct (@fold_updates_sat start ends n_rows n_cols Position
              Pw (fun w => w) (fun _ c => set_tile c (TileStr WALL))
              (inside n_rows n_cols))
    with (l := walls) (done := @nil Position) (g := grid1)
    as (grid2 & E2 & Sat2); auto.
  { intros done w q c _ Nq ->. unfold Pw, tile_after_walls.
    rewrite existsb_snoc, (Position_eqb_neq Nq). now rewrite orb_false_r. }
  { intros done w c _ ->. unfold Pw, tile_after_walls, set_tile. cbn.
    now rewrite existsb_snoc, Position_eqb_refl, orb_true_r. }
  cbn beta in E2. rewrite E2. cbn [bind].
  destruct (@fold_updates_sat start ends n_rows n_cols (nat * Position)
              Ph snd (fun hp c => set_tile c (TileHollow (fst hp)))
              (fun hp => inside n_rows n_cols (snd hp)))
    with (l := hollows) (done := @nil (nat * Position)) (g := grid2)
    as (grid3 & E3 & Sat3); auto.
  { intros done h q c _ Nq ->. unfold Ph, tile_after_hollows.
    rewrite rev_unit. cbn [find]. now rewrite (Position_eqb_neq Nq). }
  { intros done h c _ ->. unfold Ph, tile_after_hollows, set_tile. cbn.
    rewrite rev_unit. cbn [find]. now rewrite Position_eqb_refl. }
  cbn beta in E3. rewrite E3. cbn [bind].
  destruct (@fold_updates_sat start ends n_rows n_cols Position
              Pe (fun e => e) (fun _ c => set_tile c (TileStr EXIT))
              (inside n_rows n_cols))
    with (l := ends) (done := @nil Position) (g := grid3)
    as (grid4 & E4 & Sat4); auto.
  { intros done e q c _ Nq ->. unfold Pe, tile_built.
    rewrite existsb_snoc, (Position_eqb_neq Nq). now rewrite orb_false_r. }
  { intros done e c _ ->. unfold Pe, tile_built, set_tile. cbn.
    now rewrite existsb_snoc, Position_eqb_refl, orb_true_r. }
  cbn beta in E4. rewrite E4. cbn [bind].
  eexists. split; [reflexivity|].
  cbn [start_position end_positions rows cols grid].
  destruct Sat4 as [Sh4 Cells4].
  repeat (split; [reflexivity|]). split; [exact Sh4|].
  intros q Hq. destruct (Cells4 q Hq) as (c & Ec & ->). exact Ec.
Qed.

Lemma Maze_init_cells_witness :
  inside 3 3 (mkPosition 0 0) /\
  (forall w, In w [mkPosition 0 1; mkPosition 1 1] -> inside 3 3 w) /\
  (forall h, In h [(0, mkPosition 1 1); (1, mkPosition 2 2)] ->
             inside 3 3 (snd h)) /\
  (forall e, In e [mkPosition 2 2] -> inside 3 3 e) /\
  exists m,
    Maze_init (mkPosition 0 0) [mkPosition 2 2]
              [mkPosition 0 1; mkPosition 1 1]
              [(0, mkPosition 1 1); (1, mkPosition 2 2)] 3 3 = Ok m /\
    start_position m = mkPosition 0 0 /\
    end_positions m = [mkPosition 2 2] /\
    rows m = 3%Z /\ cols m = 3%Z /\
    grid_shape m /\
    forall q, in_bounds m q ->
      cell_at (grid m) q
      = Ok (mkMazeCell
              (tile_built (mkPosition 0 0) [mkPosition 0 1; mkPosition 1 1]
                 [(0, mkPosition 1 1); (1, mkPosition 2 2)]
                 [mkPosition 2 2] q) q false).
Proof.
  assert (Hs : inside 3 3 (mkPosition 0 0)) by (split; simpl; lia).
  assert (Hw : forall w, In w [mkPosition 0 1; mkPosition 1 1] ->
                         inside 3 3 w).
  { intros w [<-|[<-|[]]]; split; simpl; lia. }
  assert (Hh : forall h, In h [(0, mkPosition 1 1); (1, mkPosition 2 2)] ->
                         inside 3 3 (snd h)).
  { intros h [<-|[<-|[]]]; split; simpl; lia. }
  assert (He : forall e, In e [mkPosition 2 2] -> inside 3 3 e).
  { intros e [<-|[]]. split; simpl; lia. }
  split; [exact Hs|]. split; [exact Hw|]. split; [exact Hh|].
  split; [exact He|].
  exact (@Maze_init_cells (mkPosition 0 0) [mkPosition 2 2]
           [mkPosition 0 1; mkPosition 1 1]
           [(0, mkPosition 1 1); (1, mkPosition 2 2)] 3 3 Hs Hw Hh He).
Defined.

Lemma py_getitem_outside {A : Type} (l : list A) (i : Z) :
  ~ (- Z.of_nat (length l) <= i < Z.of_nat (length l))%Z ->
  py_getitem l i = Raise IndexError.
Proof.
  intros Hi. unfold py_getitem.
  destruct (Z.ltb_spec i 0).
  - destruct (Z.ltb_spec (Z.of_nat (length l) + i) 0); [reflexivity|lia].
  - destruct (Z.ltb_spec i 0); [lia|].
    destruct (Z.leb_spec (Z.of_nat (length l)) i); [reflexivity|lia].
Qed.

Lemma py_setitem_outside {A : Type} (l : list A) (i : Z) (v : A) :
  ~ (- Z.of_nat (length l) <= i < Z.of_nat (length l))%Z ->
  py_setitem l i v = Raise IndexError.
Proof.
  intros Hi. unfold py_setitem.
  destruct (Z.ltb_spec i 0).
  - destruct (Z.ltb_spec (Z.of_nat (length l) + i) 0); [reflexivity|lia].
  - destruct (Z.ltb_spec i 0); [lia|].
    destruct (Z.leb_spec (Z.of_nat (length l)) i); [reflexivity|lia].
Qed.

(** What [l[i]] returns is an element of [l], also when it is addressed from
    the end by a negative index. *)
Lemma py_getitem_In {A : Type} (l : list A) (i : Z) (x : A) :
  py_getitem l i = Ok x -> In x l.
Proof.
  unfold py_getitem.
  destruct (_ || _); [discriminate|].
  destruct (nth_error l _) as [y|] eqn:E; [|discriminate].
  intros [= <-]. eapply nth_error_In; eauto.
Qed.

(** X13: [_create_grid] does not check its positions.  A start position
    outside the index range of the grid ([-rows <= row < rows] and
    [-cols <= col < cols], Python's negative indices included) makes
    [Maze.__init__] raise [IndexError], whatever the other arguments. *)
Theorem Maze_init_start_outside (start : Position) (ends walls : list Position)
    (hollows : list (nat * Position)) (n_rows n_cols : Z) :
  (0 <= n_rows)%Z -> (0 <= n_cols)%Z ->
  ~ ((- n_rows <= row start < n_rows)%Z /\
     (- n_cols <= col start < n_cols)%Z) ->
  Maze_init start ends walls hollows n_rows n_cols = Raise IndexError.
Proof.
  intros Hr Hc Out. unfold Maze_init, _create_grid.
  set (grid0 := map _ (range n_rows)).
  destruct (blank_grid_shape start ends Hr Hc) as [Sr Sc].
  cbn [maze_of grid rows cols] in Sr, Sc. fold grid0 in Sr, Sc.
  assert (P : put_cell grid0 start
                (mkMazeCell (TileStr START_POSITION) start false)
              = Raise IndexError).
  { unfold put_cell.
    destruct (py_getitem grid0 (row start)) as [r|e] eqn:Er.
    - cbn [bind].
      assert (Lr : Z.of_nat (length r) = n_cols).
      { rewrite Forall_forall in Sc. apply Sc. eapply py_getitem_In; eauto. }
      rewrite py_setitem_outside; [reflexivity|].
      rewrite Lr. intros Hcol. apply Out. split; [|exact Hcol].
      destruct (Z_lt_le_dec (row start) (- n_rows)) as [Lo|Lo].
      + rewrite py_getitem_outside in Er by lia. discriminate.
      + destruct (Z_lt_le_dec (row start) n_rows) as [Hi|Hi]; [lia|].
        rewrite py_getitem_outside in Er by lia. discriminate.
    - cbn [bind]. unfold py_getitem in Er.
      destruct (_ || _); [congruence|].
      destruct (nth_error grid0 _); [discriminate|congruence]. }
  rewrite P. reflexivity.
Qed.

Lemma Maze_init_start_outside_witness :
  (0 <= 3)%Z /\ (0 <= 3)%Z /\
  ~ ((- 3 <= row (mkPosition 3 0) < 3)%Z /\
     (- 3 <= col (mkPosition 3 0) < 3)%Z) /\
  Maze_init (mkPosition 3 0) [mkPosition 2 2] [] [] 3 3 = Raise IndexError.
Proof.
  assert (Out : ~ ((- 3 <= row (mkPosition 3 0) < 3)%Z /\
                   (- 3 <= col (mkPosition 3 0) < 3)%Z))
    by (simpl; lia).
  split; [lia|]. split; [lia|]. split; [exact Out|].
  exact (@Maze_init_start_outside (mkPosition 3 0) [mkPosition 2 2] [] [] 3 3
           ltac:(lia) ltac:(lia) Out).
Defined.

(* ================================================================= *)
(** ** [maze.py]: moving and searching *)

(** X14: on a grid of the declared shape [is_valid_position] never raises,
    for any position whatsoever: the bounds test comes first, so a position
    outside the grid (negative coordinates included, which would otherwise
    index from the end) is answered [False]; inside the grid the answer is
    [True] exactly for a cell that is neither a wall nor visited. *)
Theorem is_valid_position_decides (self : Maze) (q : Position) :
  grid_shape self ->
  exists b : bool,
    is_valid_position self q = Ok b /\
    (b = true <->
     in_bounds self q /\ is_wall self q = false /\ visited_at self q = false).
Proof.
  intros shape. exists (valid self q).
  split; [now apply is_valid_position_spec|].
  unfold valid. rewrite !andb_true_iff, !negb_true_iff, in_boundsb_iff. tauto.
Qed.

Lemma sample_maze_shape : grid_shape sample_maze.
Proof.
  split; [reflexivity|].
  repeat (constructor; [reflexivity|]). constructor.
Qed.

Lemma is_valid_position_decides_witness :
  grid_shape sample_maze /\
  exists b : bool,
    is_valid_position sample_maze (mkPosition (-1) 0) = Ok b /\
    (b = true <->
     in_bounds sample_maze (mkPosition (-1) 0) /\
     is_wall sample_maze (mkPosition (-1) 0) = false /\
     visited_at sample_maze (mkPosition (-1) 0) = false).
Proof.
  split; [exact sample_maze_shape|].
  exact (is_valid_position_decides (mkPosition (-1) 0) sample_maze_shape).
Defined.

Lemma moves_from (p : Position) :
  map (move p) exit_postions =
  [mkPosition (row p - 1) (col p); mkPosition (row p + 1) (col p);
   mkPosition (row p) (col p - 1); mkPosition (row p) (col p + 1)].
Proof.
  unfold exit_postions, move. cbn [map fst snd].
  repeat f_equal; lia.
Qed.

(** X15: on a grid of the declared shape [get_available_positions] never
    raises and returns, in the order up, down, left, right, exactly those
    of the four orthogonal neighbours that are inside the grid, not a wall
    and not visited; the current position itself is never among them. *)
Theorem get_available_positions_neighbours (self : Maze) (p : Position) :
  grid_shape self ->
  exists l : list Position,
    get_available_positions self p = Ok l /\
    l = filter
          (fun q => in_boundsb self q && negb (is_wall self q) &&
                    negb (visited_at self q))
          [mkPosition (row p - 1) (col p); mkPosition (row p + 1) (col p);
           mkPosition (row p) (col p - 1); mkPosition (row p) (col p + 1)] /\
    length l <= 4 /\ ~ In p l.
Proof.
  intros shape. eexists. split; [now apply get_available_positions_spec|].
  rewrite moves_from. fold (valid self). split; [reflexivity|]. split.
  - etransitivity; [apply filter_length_le|]. simpl. lia.
  - intros Hp. apply filter_In in Hp as [Hp _].
    destruct p as [r c]. cbn [row col] in Hp.
    destruct Hp as [E|[E|[E|[E|[]]]]]; injection E; lia.
Qed.

Lemma get_available_positions_neighbours_witness :
  grid_shape sample_maze /\
  exists l : list Position,
    get_available_positions sample_maze (mkPosition 1 1) = Ok l /\
    l = filter
          (fun q => in_boundsb sample_maze q && negb (is_wall sample_maze q) &&
                    negb (visited_at sample_maze q))
          [mkPosition (row (mkPosition 1 1) - 1) (col (mkPosition 1 1));
           mkPosition (row (mkPosition 1 1) + 1) (col (mkPosition 1 1));
           mkPosition (row (mkPosition 1 1)) (col (mkPosition 1 1) - 1);
           mkPosition (row (mkPosition 1 1)) (col (mkPosition 1 1) + 1)] /\
    length l <= 4 /\ ~ In (mkPosition 1 1) l.
Proof.
  split; [exact sample_maze_shape|].
  exact (get_available_positions_neighbours (mkPosition 1 1) sample_maze_shape).
Defined.






(** X17: a path [find_way_out] returns on a freshly built maze lies inside
    the grid and has at least one and at most [rows * cols] positions. *)
Theorem find_way_out_path_length (self self' : Maze) (path : list Position) :
  fresh_maze self = true ->
  find_way_out self = Ok (Some path, self') ->
  Forall (in_bounds self) path /\
  1 <= length path <= Z.to_nat (rows self) * Z.to_nat (cols self).
Proof.
  intros Fresh E.
  destruct (find_way_out_spec self Fresh) as (r & m' & E' & _ & Post).
  rewrite E in E'. injection E' as <- <-.
  pose proof (way_out_in_bounds Post) as Fb.
  split; [exact Fb|].
  destruct Post as (rest & -> & N & _). split; [simpl; lia|].
  apply distinct_positions_bound; [exact N|].
  now apply Forall_forall.
Qed.

Lemma find_way_out_path_length_witness :
  fresh_maze sample_maze = true /\
  find_way_out sample_maze = Ok (Some sample_path, sample_maze_after) /\
  Forall (in_bounds sample_maze) sample_path /\
  1 <= length sample_path
    <= Z.to_nat (rows sample_maze) * Z.to_nat (cols sample_maze).
Proof.
  split; [reflexivity|]. split; [exact sample_search|].
  exact (@find_way_out_path_length sample_maze sample_maze_after sample_path
           eq_refl sample_search).
Defined.

(** X18: when the start cell itself carries the [EXIT] tile, the search
    ends at once: the path is the start position alone, whatever the rest
    of the grid and its [visited] flags. *)
Theorem find_way_out_start_is_exit (self : Maze) :
  grid_shape self -> in_bounds self (start_position self) ->
  is_exit self (start_position self) = true ->
  exists self' : Maze,
    find_way_out self = Ok (Some [start_position self], self').
Proof.
  intros shape Hs Ex. unfold find_way_out. cbn [depth_first_search].
  destruct (@cell_at_in_bounds self shape _ Hs) as (c & Ec).
  destruct (@put_cell_in_bounds self shape _ (mark_visited c) Hs)
    as (g & Pg & _).
  rewrite Ec. cbn [bind]. rewrite Pg. cbn [bind].
  unfold is_exit, tile_at in Ex. rewrite Ec in Ex. rewrite Ex.
  cbn [bind app]. eauto.
Qed.

(** A 1 x 2 maze whose start is also an end position. *)
Definition start_exit_maze : Maze :=
  Eval vm_compute in
    match Maze_init (mkPosition 0 0) [mkPosition 0 0] [] [] 1 2 with
    | Ok m => m
    | Raise _ => mkMaze (mkPosition 0 0) [] 0 0 []
    end.

Lemma find_way_out_start_is_exit_witness :
  grid_shape start_exit_maze /\
  in_bounds start_exit_maze (start_position start_exit_maze) /\
  is_exit start_exit_maze (start_position start_exit_maze) = true /\
  exists self' : Maze,
    find_way_out start_exit_maze
    = Ok (Some [start_position start_exit_maze], self').
Proof.
  assert (Sh : grid_shape start_exit_maze).
  { split; [reflexivity|]. repeat (constructor; [reflexivity|]). constructor. }
  assert (Hs : in_bounds start_exit_maze (start_position start_exit_maze))
    by (split; simpl; lia).
  split; [exact Sh|]. split; [exact Hs|]. split; [reflexivity|].
  exact (find_way_out_start_is_exit Sh Hs eq_refl).
Defined.

(* ================================================================= *)
(** ** [maze.py]: the harvest and the backpack *)

(** The weight of a list of treasures. *)
Definition total_weight (l : list Treasure) : Z :=
  fold_right (fun tr acc => (Z.pos (weight tr) + acc)%Z) 0%Z l.

Lemma total_weight_app (l1 l2 : list Treasure) :
  total_weight (l1 ++ l2) = (total_weight l1 + total_weight l2)%Z.
Proof.
  induction l1 as [|x l1 IH]; [reflexivity|].
  cbn [app total_weight fold_right]. fold (total_weight (l1 ++ l2)).
  fold (total_weight l1). rewrite IH. lia.
Qed.

(** What the loop keeps true of [backpack_capacity] and
    [treasures_collected], for the capacity [c0] the walk started with:
    what was collected weighs what the capacity went down by, and once
    something was collected the capacity is not negative. *)
Definition within_budget (c0 : Z) (st : harvest_state) : Prop :=
  let '(_, backpack_capacity, treasures_collected) := st in
  (backpack_capacity + total_weight treasures_collected = c0)%Z /\
  (treasures_collected = [] \/ (0 <= backpack_capacity)%Z).

Lemma collect_within_budget (c0 : Z) (store store' : object_store)
    (cap : Z) (coll : list Treasure) (treasure : option Treasure) :
  within_budget c0 (store, cap, coll) ->
  (forall tr, treasure = Some tr -> fits_in cap tr = true) ->
  within_budget c0 (collect store' cap coll treasure).
Proof.
  intros [Eq Nn] Fits. destruct treasure as [tr|]; cbn [collect within_budget].
  - specialize (Fits tr eq_refl). unfold fits_in in Fits.
    apply Z.leb_le in Fits. rewrite total_weight_app.
    cbn [total_weight fold_right]. split; [lia|right; lia].
  - split; assumption.
Qed.

Lemma mystical_result_some_fits (self : MysticalHollow.hollow) (c : Z)
    (tr : Treasure) (self' : MysticalHollow.hollow) :
  MysticalHollow.get_optimal_treasure self c = Ok (Some tr, self') ->
  fits_in c tr = true.
Proof.
  intros E.
  destruct (MysticalHollow.heap_call_spec self c)
    as (chosen & h' & temp' & _ & E' & _ & X).
  rewrite E in E'. injection E' as <- _. apply X.
Qed.

Lemma visit_spooky_within_budget (c0 : Z) (st st' : harvest_state)
    (cell : path_element) :
  visit_spooky st cell = Ok st' ->
  within_budget c0 st -> within_budget c0 st'.
Proof.
  destruct st as [[store cap] coll]. unfold visit_spooky.
  destruct (get_tile cell) as [[t|a]|e]; cbn [bind];
    [now intros [= <-]| |discriminate].
  destruct (nth_error store a) as [[s|m]|]; try (now intros [= <-]).
  destruct (SpookyHollow.get_optimal_treasure s cap) as [[treasure s']|e] eqn:G;
    [|discriminate].
  cbn [bind]. intros [= <-] Inv.
  eapply collect_within_budget; [exact Inv|].
  intros tr ->. now destruct (spooky_result_node _ _ G) as (_ & _ & _ & _ & F & _).
Qed.

Lemma visit_mystical_within_budget (c0 : Z) (st st' : harvest_state)
    (cell : path_element) :
  visit_mystical st cell = Ok st' ->
  within_budget c0 st -> within_budget c0 st'.
Proof.
  destruct st as [[store cap] coll]. unfold visit_mystical.
  destruct (get_tile cell) as [[t|a]|e]; cbn [bind];
    [now intros [= <-]| |discriminate].
  destruct (nth_error store a) as [[s|m]|]; try (now intros [= <-]).
  destruct (MysticalHollow.get_optimal_treasure m cap) as [[treasure m']|e] eqn:G;
    [|discriminate].
  cbn [bind]. intros [= <-] Inv.
  eapply collect_within_budget; [exact Inv|].
  intros tr ->. exact (mystical_result_some_fits _ _ G).
Qed.

Lemma take_treasures_loop_within_budget (c0 : Z) (path : list path_element) :
  forall st st' : harvest_state,
    take_treasures_loop path st = Ok st' ->
    within_budget c0 st -> within_budget c0 st'.
Proof.
  induction path as [|cell path IH]; intros st st' E Inv.
  - cbn [take_treasures_loop] in E. now injection E as <-.
  - cbn [take_treasures_loop] in E.
    destruct (visit_spooky st cell) as [st1|e] eqn:E1; [|discriminate].
    cbn [bind] in E.
    destruct (visit_mystical st1 cell) as [st2|e] eqn:E2; [|discriminate].
    cbn [bind] in E.
    apply (IH _ _ E).
    apply (@visit_mystical_within_budget c0 _ _ _ E2).
    apply (@visit_spooky_within_budget c0 _ _ _ E1). exact Inv.
Qed.

(** X19: whatever the hollows hold and whatever the path, the treasures
    [take_treasures] returns weigh together no more than
    [backpack_capacity]; a returned list is never empty (the empty harvest
    is [None]). *)
Theorem take_treasures_within_capacity (store store' : object_store)
    (path : list path_element) (backpack_capacity : Z)
    (collected : list Treasure) :
  take_treasures store path backpack_capacity = Ok (Some collected, store') ->
  collected <> [] /\ (total_weight collected <= backpack_capacity)%Z.
Proof.
  unfold take_treasures.
  destruct (take_treasures_loop path (store, backpack_capacity, []))
    as [[[store1 cap1] coll1]|e] eqn:E; [|discriminate].
  cbn [bind].
  destruct coll1 as [|x coll1]; [discriminate|].
  cbn [length Nat.eqb]. intros [= <- <-].
  split; [discriminate|].
  destruct (@take_treasures_loop_within_budget backpack_capacity _ _ _ E)
    as [Eq [Em|Nn]]; [split; [simpl; lia|now left]|discriminate|lia].
Qed.

Lemma take_treasures_within_capacity_witness :
  take_treasures sample_hollows (map MazeCellObj sample_cells) 3
  = Ok (Some [SpookyHollow.gem],
        [SpookyHollowObj
           (TreeNode (5 # 5)%Q SpookyHollow.anvil Nil Nil)]) /\
  [SpookyHollow.gem] <> [] /\ (total_weight [SpookyHollow.gem] <= 3)%Z.
Proof.
  split; [reflexivity|].
  exact (@take_treasures_within_capacity sample_hollows _
           (map MazeCellObj sample_cells) 3 [SpookyHollow.gem] eq_refl).
Defined.

Lemma take_treasures_loop_plain (cells : list MazeCell) (st : harvest_state) :
  Forall (fun cell => exists t, tile cell = TileStr t) cells ->
  take_treasures_loop (map MazeCellObj cells) st = Ok st.
Proof.
  induction 1 as [|cell cells [t Et] _ IH]; [reflexivity|].
  cbn [map take_treasures_loop].
  destruct st as [[store cap] coll].
  unfold visit_spooky, visit_mystical. cbn [get_tile bind].
  rewrite Et. cbn [bind]. exact IH.
Qed.

(** X20: on a path none of whose cells carries a hollow (the empty path
    included) [take_treasures] returns [None], not an empty list, and
    leaves every hollow of the maze as it was. *)
Theorem take_treasures_no_hollow (store : object_store)
    (cells : list MazeCell) (backpack_capacity : Z) :
  Forall (fun cell => exists t, tile cell = TileStr t) cells ->
  take_treasures store (map MazeCellObj cells) backpack_capacity
  = Ok (None, store).
Proof.
  intros F. unfold take_treasures.
  now rewrite (take_treasures_loop_plain _ F).
Qed.

Lemma take_treasures_no_hollow_witness :
  Forall (fun cell => exists t, tile cell = TileStr t)
         [mkMazeCell (TileStr START_POSITION) (mkPosition 0 0) true;
          mkMazeCell (TileStr EXIT) (mkPosition 0 1) true] /\
  take_treasures sample_hollows
    (map MazeCellObj
       [mkMazeCell (TileStr START_POSITION) (mkPosition 0 0) true;
        mkMazeCell (TileStr EXIT) (mkPosition 0 1) true]) 10
  = Ok (None, sample_hollows).
Proof.
  assert (F : Forall (fun cell => exists t, tile cell = TileStr t)
                [mkMazeCell (TileStr START_POSITION) (mkPosition 0 0) true;
                 mkMazeCell (TileStr EXIT) (mkPosition 0 1) true]).
  { repeat constructor; eexists; reflexivity. }
  split; [exact F|].
  exact (take_treasures_no_hollow sample_hollows 10 F).
Defined.

(** *** Nothing is lost on the way *)

(** The treasures a hollow object holds, and those of all hollows of the
    maze (a [MysticalHollow] shared by several cells is one object and
    counts once). *)
Definition contents (h : hollow_object) : list Treasure :=
  match h with
  | SpookyHollowObj s => SpookyHollow.stored s
  | MysticalHollowObj m => MysticalHollow.heap m
  end.

Definition store_treasures (store : object_store) : list Treasure :=
  flat_map contents store.

(** Every [SpookyHollow] is a search tree keyed by ratio, of pairwise
    different ratios. *)
Definition hollows_ok (store : object_store) : Prop :=
  Forall (fun h => match h with
                   | SpookyHollowObj s => SpookyHollow.store_ok s
                   | MysticalHollowObj _ => True
                   end) store.

Lemma Forall_upd {A : Type} (P : A -> Prop) (l : list A) (i : nat) (v : A) :
  Forall P l -> P v -> Forall P (upd l i v).
Proof.
  intros F Pv. revert i. induction F as [|x l Px F IH]; intros [|i]; simpl;
    constructor; auto.
Qed.

Lemma store_treasures_upd (store : object_store) (a : nat)
    (h h' : hollow_object) (extra : list Treasure) :
  nth_error store a = Some h ->
  Permutation (contents h) (extra ++ contents h') ->
  Permutation (store_treasures store)
              (extra ++ store_treasures (upd store a h')).
Proof.
  revert a. induction store as [|x store IH]; intros [|a] E P;
    simpl in E; try discriminate.
  - injection E as ->. unfold store_treasures. cbn [upd flat_map].
    rewrite P. now rewrite app_assoc.
  - unfold store_treasures in *. cbn [upd flat_map].
    rewrite (IH a E P). rewrite !app_assoc.
    apply Permutation_app_tail. apply Permutation_app_comm.
Qed.

Lemma mystical_call_account (m : MysticalHollow.hollow) (c : Z) :
  exists (r : option Treasure) (m' : MysticalHollow.hollow),
    MysticalHollow.get_optimal_treasure m c = Ok (r, m') /\
    Permutation (MysticalHollow.heap m) (taken [r] ++ MysticalHollow.heap m').
Proof.
  destruct (MysticalHollow.heap_call_spec m c)
    as (chosen & h' & temp' & _ & E & _ & X).
  exists chosen. eexists. split; [exact E|].
  cbn [MysticalHollow.heap]. rewrite MysticalHollow.add_back_perm.
  unfold taken. cbn [flat_map]. rewrite app_nil_r.
  destruct chosen as [tr|]; cbn [app].
  - apply X.
  - destruct X as [-> P]. now rewrite app_nil_r.
Qed.

(** One cell of the walk. *)
Lemma visit_cell_account (store : object_store) (cap : Z)
    (coll : list Treasure) (cell : MazeCell) :
  hollows_ok store ->
  exists st1 store' cap' new,
    visit_spooky (store, cap, coll) (MazeCellObj cell) = Ok st1 /\
    visit_mystical st1 (MazeCellObj cell) = Ok (store', cap', coll ++ new) /\
    hollows_ok store' /\ length store' = length store /\
    Permutation (store_treasures store) (new ++ store_treasures store') /\
    length new <= 1.
Proof.
  intros OK. unfold visit_spooky. cbn [get_tile bind].
  assert (Same : exists st1 store' cap' new,
            Ok (store, cap, coll) = Ok st1 /\
            Ok st1 = Ok (store', cap', coll ++ new) /\
            hollows_ok store' /\ length store' = length store /\
            Permutation (store_treasures store) (new ++ store_treasures store') /\
            length new <= 1).
  { exists (store, cap, coll), store, cap, []. rewrite app_nil_r.
    repeat split; auto. }
  destruct (tile cell) as [t|a] eqn:Et.
  { unfold visit_mystical. cbn [get_tile bind].
    destruct Same as (st1 & store' & cap' & new & [= <-] & R).
    exists (store, cap, coll), store', cap', new. rewrite Et.
    split; [reflexivity|exact R]. }
  destruct (nth_error store a) as [[s|m]|] eqn:Ea.
  - (* a SpookyHollow *)
    assert (La : a < length store) by (apply nth_error_Some; congruence).
    assert (OKs : SpookyHollow.store_ok s).
    { unfold hollows_ok in OK. rewrite Forall_forall in OK.
      apply (OK (SpookyHollowObj s)). eapply nth_error_In; eauto. }
    pose proof (SpookyHollow.tree_call_spec cap OKs) as S.
    destruct (SpookyHollow.get_optimal_treasure s cap) as [[treasure s']|e];
      [|contradiction].
    cbn [bind].
    assert (Acc : SpookyHollow.store_ok s' /\
                  Permutation (SpookyHollow.stored s)
                    (taken [treasure] ++ SpookyHollow.stored s')).
    { destruct treasure as [tr|].
      - destruct S as [(_ & _ & _ & P & _) OK']. split; [exact OK'|exact P].
      - destruct S as [-> _]. split; [exact OKs|reflexivity]. }
    destruct Acc as [OK' P].
    exists (collect (upd store a (SpookyHollowObj s')) cap coll treasure),
           (upd store a (SpookyHollowObj s')),
           (match treasure with
            | Some tr => (cap - Z.pos (weight tr))%Z
            | None => cap
            end),
           (taken [treasure]).
    split; [reflexivity|]. split.
    { unfold visit_mystical.
      destruct treasure as [tr|]; cbn [collect get_tile bind]; rewrite Et;
        rewrite nth_error_upd_same by exact La;
        [reflexivity|now rewrite app_nil_r]. }
    split; [now apply Forall_upd|]. split; [apply length_upd|].
    split; [exact (@store_treasures_upd store a _ (SpookyHollowObj s') _ Ea P)|].
    destruct treasure; simpl; lia.
  - (* a MysticalHollow *)
    destruct (mystical_call_account m cap) as (r & m' & E & P).
    exists (store, cap, coll), (upd store a (MysticalHollowObj m')),
           (match r with
            | Some tr => (cap - Z.pos (weight tr))%Z
            | None => cap
            end),
           (taken [r]).
    split; [reflexivity|]. split.
    { unfold visit_mystical. cbn [get_tile bind]. rewrite Et, Ea, E.
      cbn [bind].
      destruct r as [tr|]; cbn [collect]; [reflexivity|now rewrite app_nil_r]. }
    split; [now apply Forall_upd|]. split; [apply length_upd|].
    split; [exact (@store_treasures_upd store a _ (MysticalHollowObj m') _ Ea P)|].
    destruct r; simpl; lia.
  - (* no object at this address *)
    unfold visit_mystical. cbn [get_tile bind].
    destruct Same as (st1 & store' & cap' & new & [= <-] & R).
    exists (store, cap, coll), store', cap', new. rewrite Et, Ea.
    split; [reflexivity|exact R].
Qed.

Lemma take_treasures_loop_account (cells : list MazeCell) :
  forall (store : object_store) (cap : Z) (coll : list Treasure),
  hollows_ok store ->
  exists store' cap' new,
    take_treasures_loop (map MazeCellObj cells) (store, cap, coll)
    = Ok (store', cap', coll ++ new) /\
    hollows_ok store' /\ length store' = length store /\
    Permutation (store_treasures store) (new ++ store_treasures store') /\
    length new <= length cells.
Proof.
  induction cells as [|cell cells IH]; intros store cap coll OK.
  - exists store, cap, []. rewrite app_nil_r. repeat split; auto.
  - cbn [map take_treasures_loop].
    destruct (visit_cell_account cap coll cell OK)
      as (st1 & store1 & cap1 & new1 & E1 & E2 & OK1 & L1 & P1 & N1).
    rewrite E1. cbn [bind]. rewrite E2. cbn [bind].
    destruct (IH store1 cap1 (coll ++ new1) OK1)
      as (store' & cap' & new & E & OK' & L & P & N).
    exists store', cap', (new1 ++ new). rewrite E, app_assoc.
    split; [reflexivity|]. split; [exact OK'|]. split; [congruence|].
    split; [now rewrite P1, P, app_assoc|].
    rewrite length_app. simpl. lia.
Qed.

(** X21: when every [SpookyHollow] of the maze is a search tree of
    pairwise different ratios, [take_treasures] on a path of cells never
    raises, collects at most one treasure per cell, and loses or duplicates
    nothing: the collected treasures together with what the hollows hold
    afterwards are exactly what the hollows held before.  A treasure taken
    through one cell of the shared [MysticalHollow] is gone for every other
    cell that carries it. *)
Theorem take_treasures_conserves (store : object_store)
    (cells : list MazeCell) (backpack_capacity : Z) :
  hollows_ok store ->
  exists (r : option (list Treasure)) (store' : object_store),
    take_treasures store (map MazeCellObj cells) backpack_capacity
    = Ok (r, store') /\
    hollows_ok store' /\ length store' = length store /\
    Permutation (store_treasures store)
      (match r with Some collected => collected | None => [] end
       ++ store_treasures store') /\
    length (match r with Some collected => collected | None => [] end)
    <= length cells.
Proof.
  intros OK. unfold take_treasures.
  destruct (take_treasures_loop_account cells backpack_capacity [] OK)
    as (store' & cap' & new & E & OK' & L & P & N).
  rewrite E. cbn [bind app].
  destruct new as [|x new].
  - exists None, store'. repeat split; auto.
  - exists (Some (x :: new)), store'. repeat split; auto.
Qed.

(** Two cells that carry the one [MysticalHollow] of address 0, which holds
    [gem] and [crown]. *)
Definition shared_hollows : object_store :=
  [MysticalHollowObj (MysticalHollow.__init__
                        [SpookyHollow.gem; SpookyHollow.crown])].

Definition shared_cells : list MazeCell :=
  [mkMazeCell (TileHollow 0) (mkPosition 0 0) true;
   mkMazeCell (TileHollow 0) (mkPosition 0 1) true;
   mkMazeCell (TileHollow 0) (mkPosition 0 2) true].

Lemma take_treasures_conserves_witness :
  hollows_ok shared_hollows /\
  exists (r : option (list Treasure)) (store' : object_store),
    take_treasures shared_hollows (map MazeCellObj shared_cells) 20
    = Ok (r, store') /\
    hollows_ok store' /\ length store' = length shared_hollows /\
    Permutation (store_treasures shared_hollows)
      (match r with Some collected => collected | None => [] end
       ++ store_treasures store') /\
    length (match r with Some collected => collected | None => [] end)
    <= length shared_cells.
Proof.
  assert (OK : hollows_ok shared_hollows) by (repeat constructor).
  split; [exact OK|].
  exact (take_treasures_conserves shared_cells 20 OK).
Defined.

(** On these cells, with capacity 20, the walk takes [crown] at the first
    cell and [gem] at the second; the third finds the shared heap empty. *)
Example shared_hollow_harvest :
  (r <- take_treasures shared_hollows (map MazeCellObj shared_cells) 20 ;;
   Ok (fst r, map contents (snd r)))
  = Ok (Some [SpookyHollow.crown; SpookyHollow.gem], [[]]).
Proof. reflexivity. Qed.

(* ================================================================= *)
(** ** [maze.py]: the [visited] flags, on any grid *)

(** The list index a Python index denotes, if any. *)
Definition py_index (n : nat) (i : Z) : option nat :=
  let j := if (i <? 0)%Z then (Z.of_nat n + i)%Z else i in
  if ((j <? 0) || (Z.of_nat n <=? j))%Z then None else Some (Z.to_nat j).

Lemma py_index_lt (n : nat) (i : Z) (k : nat) :
  py_index n i = Some k -> k < n.
Proof.
  unfold py_index.
  destruct (Z.ltb_spec i 0);
    match goal with
    | |- context [((?j <? 0) || (?m <=? ?j))%Z] =>
        destruct (Z.ltb_spec j 0), (Z.leb_spec m j)
    end; simpl; try discriminate; intros [= <-]; lia.
Qed.

Lemma py_getitem_index {A : Type} (l : list A) (i : Z) :
  py_getitem l i =
  match py_index (length l) i with
  | Some k => match nth_error l k with
              | Some x => Ok x
              | None => Raise IndexError
              end
  | None => Raise IndexError
  end.
Proof.
  unfold py_getitem, py_index. cbv zeta. now destruct (_ || _).
Qed.

Lemma py_setitem_index {A : Type} (l : list A) (i : Z) (v : A) :
  py_setitem l i v =
  match py_index (length l) i with
  | Some k => Ok (upd l k v)
  | None => Raise IndexError
  end.
Proof.
  unfold py_setitem, py_index. cbv zeta. now destruct (_ || _).
Qed.

(** Reading after one write through Python indices. *)
Lemma py_getitem_upd {A : Type} (l : list A) (k : nat) (v : A) (i : Z) :
  k < length l ->
  py_getitem (upd l k v) i =
  match py_index (length l) i with
  | Some k' => if Nat.eq_dec k' k then Ok v else py_getitem l i
  | None => Raise IndexError
  end.
Proof.
  intros Hk. rewrite !py_getitem_index, length_upd.
  destruct (py_index (length l) i) as [k'|] eqn:Ei; [|reflexivity].
  destruct (Nat.eq_dec k' k) as [->|Nk].
  - now rewrite nth_error_upd_same.
  - now rewrite nth_error_upd_other.
Qed.

(** Marking a cell leaves every marked cell marked and marks the cell. *)
Lemma put_mark_keeps (g g' : list (list MazeCell)) (q : Position)
    (c : MazeCell) :
  cell_at g q = Ok c ->
  put_cell g q (mark_visited c) = Ok g' ->
  (exists c', cell_at g' q = Ok c' /\ visited c' = true) /\
  forall p c0, cell_at g p = Ok c0 -> visited c0 = true ->
    exists c1, cell_at g' p = Ok c1 /\ visited c1 = true.
Proof.
  unfold cell_at, put_cell. rewrite (py_getitem_index g (row q)).
  destruct (py_index (length g) (row q)) as [kr|] eqn:Er; [|discriminate].
  pose proof (@py_index_lt _ _ _ Er) as Lr.
  destruct (nth_error g kr) as [r|] eqn:Nr; [|discriminate].
  cbn [bind]. rewrite (py_getitem_index r (col q)), py_setitem_index.
  destruct (py_index (length r) (col q)) as [kc|] eqn:Ec; [|discriminate].
  pose proof (@py_index_lt _ _ _ Ec) as Lc.
  destruct (nth_error r kc) as [c'|] eqn:Nc; [|discriminate].
  intros [= ->]. cbn [bind]. rewrite py_setitem_index, Er. intros [= <-].
  split.
  - rewrite (@py_getitem_upd _ _ _ _ _ Lr), Er.
    destruct (Nat.eq_dec kr kr); [|congruence]. cbn [bind].
    rewrite (@py_getitem_upd _ _ _ _ _ Lc), Ec.
    destruct (Nat.eq_dec kc kc); [|congruence]. eauto.
  - intros p c0. rewrite (@py_getitem_upd _ _ _ _ _ Lr).
    rewrite (py_getitem_index g (row p)).
    destruct (py_index (length g) (row p)) as [kr'|] eqn:Er'; [|discriminate].
    destruct (Nat.eq_dec kr' kr) as [->|Nk].
    + rewrite Nr. cbn [bind]. rewrite (@py_getitem_upd _ _ _ _ _ Lc).
      destruct (py_index (length r) (col p)) as [kc'|] eqn:Ec'.
      * destruct (Nat.eq_dec kc' kc) as [->|Nk]; [eauto|].
        intros E V. eauto.
      * rewrite py_getitem_index, Ec'. discriminate.
    + intros E V. eauto.
Qed.

Lemma visited_at_true (m : Maze) (p : Position) :
  visited_at m p = true <->
  exists c, cell_at (grid m) p = Ok c /\ visited c = true.
Proof.
  unfold visited_at. split.
  - destruct (cell_at (grid m) p) as [c|e]; [eauto|discriminate].
  - intros (c & -> & V). exact V.
Qed.

(** Every cell marked in [m] is marked in [m']. *)
Definition keeps_marks (m m' : Maze) : Prop :=
  forall p, visited_at m p = true -> visited_at m' p = true.

(** What a call of [depth_first_search] at [cur] leaves behind. *)
Definition dfs_marks (m : Maze) (path : list Position) (cur : Position)
    (r : search_result) : Prop :=
  let '(found, m', path') := r in
  keeps_marks m m' /\ visited_at m' cur = true /\
  if found
  then exists rest,
         path' = path ++ cur :: rest /\
         Forall (fun p => visited_at m' p = true) rest
  else path' = path.

Lemma explore_marks
    (dfs : Maze -> list Position -> Position -> result search_result) :
  (forall m path cur r, dfs m path cur = Ok r -> dfs_marks m path cur r) ->
  forall positions m path found m' path',
    explore dfs positions m path = Ok (found, m', path') ->
    keeps_marks m m' /\
    if found
    then exists rest,
           path' = path ++ rest /\
           Forall (fun p => visited_at m' p = true) rest
    else path' = removelast path.
Proof.
  intros Hd. induction positions as [|p ps IH];
    intros m path found m' path' E; cbn [explore] in E.
  - injection E as <- <- <-. split; [intros q V; exact V|reflexivity].
  - destruct (dfs m path p) as [[[found1 m1] path1]|e] eqn:Ed; [|discriminate].
    cbn [bind] in E. pose proof (Hd _ _ _ _ Ed) as (K1 & V1 & R1).
    destruct found1.
    + injection E as <- <- <-. split; [exact K1|].
      destruct R1 as (rest & -> & F). exists (p :: rest).
      split; [reflexivity|]. constructor; assumption.
    + subst path1. destruct (IH _ _ _ _ _ E) as (K2 & R2).
      split; [|exact R2]. intros q V. apply K2, K1, V.
Qed.

Lemma depth_first_search_marks (fuel : nat) :
  forall m path cur r,
    depth_first_search fuel m path cur = Ok r -> dfs_marks m path cur r.
Proof.
  induction fuel as [|fuel IH]; intros m path cur r E; [discriminate|].
  cbn [depth_first_search] in E.
  destruct (cell_at (grid m) cur) as [c|e] eqn:Ec; [|discriminate].
  cbn [bind] in E.
  destruct (put_cell (grid m) cur (mark_visited c)) as [g|e] eqn:Pg;
    [|discriminate].
  cbn [bind] in E.
  destruct (put_mark_keeps _ _ Ec Pg) as [Vc Keep].
  assert (K1 : keeps_marks m (with_grid m g)).
  { intros p V. apply visited_at_true in V as (c0 & E0 & V0).
    apply visited_at_true. cbn [with_grid grid]. eauto. }
  assert (V1 : visited_at (with_grid m g) cur = true)
    by (apply visited_at_true; exact Vc).
  destruct (tile_is EXIT (tile c)).
  - injection E as <-. split; [exact K1|]. split; [exact V1|].
    exists []. split; [reflexivity|constructor].
  - destruct (get_available_positions (with_grid m g) cur) as [av|e];
      [|discriminate].
    cbn [bind] in E. destruct r as [[found m'] path'].
    destruct (@explore_marks _ IH _ _ _ _ _ _ E) as (K2 & R2).
    split; [intros q V; apply K2, K1, V|]. split; [apply K2, V1|].
    destruct found.
    + destruct R2 as (rest & -> & F). exists rest.
      split; [now rewrite <- app_assoc|exact F].
    + rewrite R2. apply removelast_last.
Qed.

(** X22: on any maze whatsoever, a search that returns never clears a
    [visited] flag: every cell that was marked is still marked, the start is
    marked, and so is every position of a returned path, which begins with
    the start.  (The flags are not reset at the end of the search either.) *)
Theorem find_way_out_marks (self self' : Maze)
    (r : option (list Position)) :
  find_way_out self = Ok (r, self') ->
  keeps_marks self self' /\
  visited_at self' (start_position self) = true /\
  match r with
  | Some path =>
      (exists rest, path = start_position self :: rest) /\
      Forall (fun p => visited_at self' p = true) path
  | None => True
  end.
Proof.
  unfold find_way_out.
  destruct (depth_first_search _ self [] (start_position self))
    as [[[found m1] path1]|e] eqn:Ed; [|discriminate].
  cbn [bind]. apply depth_first_search_marks in Ed as (K & V & R).
  destruct found; intros [= <- <-].
  - split; [exact K|]. split; [exact V|].
    destruct R as (rest & -> & F). cbn [app].
    split; [eauto|]. constructor; assumption.
  - split; [exact K|]. split; [exact V|exact I].
Qed.

Lemma find_way_out_marks_witness :
  find_way_out sample_maze = Ok (Some sample_path, sample_maze_after) /\
  keeps_marks sample_maze sample_maze_after /\
  visited_at sample_maze_after (start_position sample_maze) = true /\
  (exists rest, sample_path = start_position sample_maze :: rest) /\
  Forall (fun p => visited_at sample_maze_after p = true) sample_path.
Proof.
  split; [exact sample_search|].
  exact (@find_way_out_marks sample_maze sample_maze_after (Some sample_path)
           sample_search).
Defined.

Lemma adjacent_neq (p q : Position) : adjacent p q -> q <> p.
Proof.
  unfold adjacent. rewrite moves_from. destruct p as [r c]. cbn [row col].
  intros [E|[E|[E|[E|[]]]]] ->; injection E; lia.
Qed.

(** X23: a start that is boxed in.  On a grid of the declared shape, if
    the start cell is no exit and none of its four neighbours is a cell
    inside the grid that is neither a wall nor visited, [find_way_out]
    returns [None], and the only cell it writes is the start (which it
    marks). *)
Theorem find_way_out_dead_end (self : Maze) :
  grid_shape self -> in_bounds self (start_position self) ->
  is_exit self (start_position self) = false ->
  (forall q, adjacent (start_position self) q -> valid self q = false) ->
  exists self' : Maze,
    find_way_out self = Ok (None, self') /\
    visited_at self' (start_position self) = true /\
    forall q, in_bounds self q -> q <> start_position self ->
              cell_at (grid self') q = cell_at (grid self) q.
Proof.
  intros shape Hs Ex Dead. unfold find_way_out. cbn [depth_first_search].
  destruct (@cell_at_in_bounds self shape _ Hs) as (c & Ec).
  destruct (@put_cell_in_bounds self shape _ (mark_visited c) Hs)
    as (g & Pg & Sh' & Cells).
  rewrite Ec. cbn [bind]. rewrite Pg. cbn [bind].
  unfold is_exit, tile_at in Ex. rewrite Ec in Ex. rewrite Ex.
  rewrite (get_available_positions_spec _ Sh'). cbn [bind].
  assert (Other : forall q, in_bounds self q -> q <> start_position self ->
                            cell_at g q = cell_at (grid self) q).
  { intros q Hq Nq. rewrite (Cells q Hq).
    destruct (Position_eq_dec q (start_position self)); [contradiction|].
    reflexivity. }
  rewrite (@filter_none _ (valid (with_grid self g))).
  - cbn [explore bind app removelast].
    eexists. split; [reflexivity|]. split; [|exact Other].
    unfold visited_at. cbn [with_grid grid]. rewrite (Cells _ Hs).
    destruct (Position_eq_dec (start_position self) (start_position self));
      [reflexivity|congruence].
  - apply Forall_forall. intros q Hq.
    pose proof (adjacent_neq Hq) as Nq. specialize (Dead q Hq).
    unfold valid in *.
    destruct (in_boundsb self q) eqn:B; cbn [with_grid].
    + change (in_boundsb (with_grid self g) q) with (in_boundsb self q).
      rewrite B. apply in_boundsb_iff in B.
      unfold is_wall, tile_at, visited_at in *. cbn [with_grid grid].
      rewrite (Other q B Nq). exact Dead.
    + change (in_boundsb (with_grid self g) q) with (in_boundsb self q).
      now rewrite B.
Qed.

(** A 3 x 3 maze whose start (0,0) is boxed in by the walls at (0,1) and
    (1,0). *)
Definition boxed_maze : Maze :=
  Eval vm_compute in
    match Maze_init (mkPosition 0 0) [mkPosition 2 2]
                    [mkPosition 0 1; mkPosition 1 0] [] 3 3 with
    | Ok m => m
    | Raise _ => mkMaze (mkPosition 0 0) [] 0 0 []
    end.

Lemma find_way_out_dead_end_witness :
  grid_shape boxed_maze /\
  in_bounds boxed_maze (start_position boxed_maze) /\
  is_exit boxed_maze (start_position boxed_maze) = false /\
  (forall q, adjacent (start_position boxed_maze) q ->
             valid boxed_maze q = false) /\
  exists self' : Maze,
    find_way_out boxed_maze = Ok (None, self') /\
    visited_at self' (start_position boxed_maze) = true /\
    forall q, in_bounds boxed_maze q -> q <> start_position boxed_maze ->
              cell_at (grid self') q = cell_at (grid boxed_maze) q.
Proof.
  assert (Sh : grid_shape boxed_maze).
  { split; [reflexivity|]. repeat (constructor; [reflexivity|]). constructor. }
  assert (Hs : in_bounds boxed_maze (start_position boxed_maze))
    by (split; simpl; lia).
  assert (Dead : forall q, adjacent (start_position boxed_maze) q ->
                           valid boxed_maze q = false).
  { intros q [<-|[<-|[<-|[<-|[]]]]]; reflexivity. }
  split; [exact Sh|]. split; [exact Hs|]. split; [reflexivity|].
  split; [exact Dead|].
  exact (find_way_out_dead_end Sh Hs eq_refl Dead).
Defined.

(* ================================================================= *)
(** * Equal keys: where the code misses what it sets out to do *)

(** C7: [BetterBST] at three elements of one key.  The sorted list is the
    input itself; [_build_balanced_tree_aux] inserts its midpoint first and
    the other two elements through the tree's insertion, which sends both
    to the same side of it, so the in-order traversal is not the sorted
    list, whichever the tie side.  Linking the midpoint's children directly,
    as the docstring describes the build, gives the sorted list back. *)
Theorem BetterBST_equal_keys_inorder :
  mergesort fst three_equal_keys = [(1%Z, 0); (1%Z, 1); (1%Z, 2)] /\
  (exists t : tree Z nat,
     BetterBST TieLeft three_equal_keys = Ok t /\
     inorder t = [(1%Z, 2); (1%Z, 0); (1%Z, 1)]) /\
  (exists t : tree Z nat,
     BetterBST TieRight three_equal_keys = Ok t /\
     inorder t = [(1%Z, 1); (1%Z, 0); (1%Z, 2)]) /\
  inorder (midpoint_tree 4 (mergesort fst three_equal_keys) 0 2)
  = [(1%Z, 0); (1%Z, 1); (1%Z, 2)].
Proof.
  split; [reflexivity|].
  split; [eexists; split; reflexivity|].
  split; [eexists; split; reflexivity|reflexivity].
Qed.

(** C8: the same three elements end up on one branch of three levels,
    whichever the tie side, where [ceil (log2 (3 + 1))] is 2 and the tree
    with the midpoint's children linked directly has two levels. *)
Theorem BetterBST_equal_keys_height :
  (exists t : tree Z nat,
     BetterBST TieLeft three_equal_keys = Ok t /\ height t = 3) /\
  (exists t : tree Z nat,
     BetterBST TieRight three_equal_keys = Ok t /\ height t = 3) /\
  Nat.log2_up (length three_equal_keys + 1) = 2 /\
  height (midpoint_tree 4 (mergesort fst three_equal_keys) 0 2) = 2.
Proof.
  split; [eexists; split; reflexivity|].
  split; [eexists; split; reflexivity|].
  split; reflexivity.
Qed.

(** C1: a [SpookyHollow] of two treasures of one ratio, [ingot] (value 20,
    weight 10) and [coin] (value 2, weight 1), asked with capacity 5.  Only
    [coin] fits and is returned, but [del self.treasures[ratio]] removes the
    node the key leads to, which is [ingot]: afterwards the hollow holds
    [coin], the treasure it has just handed out, and [ingot] is gone. *)
Theorem get_optimal_treasure_equal_ratios :
  (SpookyHollow.restructure_hollow TieLeft
     [SpookyHollow.ingot; SpookyHollow.coin] = Ok SpookyHollow.tied_store_left /\
   SpookyHollow.stored SpookyHollow.tied_store_left
   = [SpookyHollow.coin; SpookyHollow.ingot] /\
   exists s' : SpookyHollow.store,
     SpookyHollow.get_optimal_treasure SpookyHollow.tied_store_left 5
     = Ok (Some SpookyHollow.coin, s') /\
     SpookyHollow.stored s' = [SpookyHollow.coin]) /\
  (SpookyHollow.restructure_hollow TieRight
     [SpookyHollow.ingot; SpookyHollow.coin] = Ok SpookyHollow.tied_store_right /\
   SpookyHollow.stored SpookyHollow.tied_store_right
   = [SpookyHollow.ingot; SpookyHollow.coin] /\
   exists s' : SpookyHollow.store,
     SpookyHollow.get_optimal_treasure SpookyHollow.tied_store_right 5
     = Ok (Some SpookyHollow.coin, s') /\
     SpookyHollow.stored s' = [SpookyHollow.coin]).
Proof.
  split; (split; [reflexivity|]); (split; [reflexivity|]);
    eexists; split; reflexivity.
Qed.

(** C6: the two stores built from [ingot] and [coin], asked twice with
    capacity 5.  The heap hands out [coin] and then has nothing that fits;
    the tree hands out [coin], loses [ingot] by the deletion of C1, and
    hands out [coin] a second time. *)
Theorem stores_equal_ratios :
  (s <- SpookyHollow.restructure_hollow TieLeft
          [SpookyHollow.ingot; SpookyHollow.coin] ;;
   p <- SpookyHollow.calls s [5; 5]%Z ;; Ok (fst p))
  = Ok [Some SpookyHollow.coin; Some SpookyHollow.coin] /\
  (s <- SpookyHollow.restructure_hollow TieRight
          [SpookyHollow.ingot; SpookyHollow.coin] ;;
   p <- SpookyHollow.calls s [5; 5]%Z ;; Ok (fst p))
  = Ok [Some SpookyHollow.coin; Some SpookyHollow.coin] /\
  (p <- MysticalHollow.calls
          (MysticalHollow.__init__ [SpookyHollow.ingot; SpookyHollow.coin])
          [5; 5]%Z ;;
   Ok (fst p, MysticalHollow.heap (snd p)))
  = Ok ([Some SpookyHollow.coin; None], [SpookyHollow.ingot]).
Proof. repeat split; reflexivity. Qed.

(* ================================================================= *)
(** * [maze.py]: the search under the interpreter's bound on recursion *)

(** [depth_first_search] is a plain recursive function: every step of the
    path is one more nested call, and the interpreter raises
    [RecursionError] when calls nest deeper than it allows (CPython: the
    recursion limit, 1000 frames unless changed, of which the callers of
    [find_way_out], [find_way_out] itself and the calls a
    [depth_first_search] makes to [get_available_positions] and
    [is_valid_position] take their share).  Nothing in [find_way_out]
    catches it.  [recursion_depth] is the number of nested calls of
    [depth_first_search] the interpreter allows when [find_way_out] is
    called: it is the fuel of the recursion, and running out of it is the
    [RecursionError].  Under CPython's default limit it is below 1000. *)
Definition find_way_out_within (recursion_depth : nat) (self : Maze)
    : result (option (list Position) * Maze) :=
  match depth_first_search recursion_depth self [] (start_position self) with
  | Ok (found, self', path_found) =>
      if found then Ok (Some path_found, self') else Ok (None, self')
  | Raise OutOfFuel => Raise RecursionError
  | Raise e => Raise e
  end.

(** A search that returns within some depth returns the same within any
    greater depth. *)
Lemma explore_more_depth
    (dfs dfs' : Maze -> list Position -> Position -> result search_result) :
  (forall m path cur r, dfs m path cur = Ok r -> dfs' m path cur = Ok r) ->
  forall positions m path r,
    explore dfs positions m path = Ok r ->
    explore dfs' positions m path = Ok r.
Proof.
  intros Hd. induction positions as [|p ps IH]; intros m path r E;
    cbn [explore] in *; [exact E|].
  destruct (dfs m path p) as [[[found m1] path1]|e] eqn:Ed; [|discriminate].
  rewrite (Hd _ _ _ _ Ed). cbn [bind] in *.
  destruct found; [exact E|]. now apply IH.
Qed.

Lemma depth_first_search_more_depth (fuel : nat) :
  forall fuel' m path cur r,
    fuel <= fuel' ->
    depth_first_search fuel m path cur = Ok r ->
    depth_first_search fuel' m path cur = Ok r.
Proof.
  induction fuel as [|fuel IH]; intros fuel' m path cur r Hf E;
    [discriminate|].
  destruct fuel' as [|fuel']; [lia|].
  cbn [depth_first_search] in *.
  destruct (cell_at (grid m) cur) as [c|e]; [|discriminate].
  cbn [bind] in *.
  destruct (put_cell (grid m) cur (mark_visited c)) as [g|e]; [|discriminate].
  cbn [bind] in *.
  destruct (tile_is EXIT (tile c)); [exact E|].
  destruct (get_available_positions (with_grid m g) cur) as [av|e];
    [|discriminate].
  cbn [bind] in *.
  apply (@explore_more_depth (depth_first_search fuel)
           (depth_first_search fuel')); [|exact E].
  intros m' path' cur' r'. apply IH. lia.
Qed.

(** A search that does not return within some depth does not return within
    any smaller depth. *)
Lemma find_way_out_within_less (recursion_depth recursion_depth' : nat)
    (self : Maze) (e : exn) :
  recursion_depth <= recursion_depth' ->
  find_way_out_within recursion_depth' self = Raise e ->
  forall r, find_way_out_within recursion_depth self <> Ok r.
Proof.
  intros Le E' r E. unfold find_way_out_within in *.
  destruct (depth_first_search recursion_depth self [] (start_position self))
    as [[[found m'] path]|e0] eqn:Ed; [|destruct e0; discriminate].
  rewrite (@depth_first_search_more_depth _ recursion_depth' _ _ _ _ Le Ed)
    in E'.
  destruct found; discriminate.
Qed.

(** With more nested calls allowed than the maze has cells, the search under
    the bound is [find_way_out], whenever that returns. *)
Lemma find_way_out_within_enough (recursion_depth : nat) (self : Maze)
    (r : option (list Position) * Maze) :
  Z.to_nat (rows self) * Z.to_nat (cols self) < recursion_depth ->
  find_way_out self = Ok r ->
  find_way_out_within recursion_depth self = Ok r.
Proof.
  intros Hd. unfold find_way_out, find_way_out_within.
  destruct (depth_first_search (S _) self [] (start_position self))
    as [[[found m'] path]|e] eqn:E; [|discriminate].
  cbn [bind].
  assert (Le : S (Z.to_nat (rows self) * Z.to_nat (cols self))
               <= recursion_depth) by lia.
  rewrite (@depth_first_search_more_depth _ recursion_depth _ _ _ _ Le E).
  trivial.
Qed.

(** C4 (amended): on a freshly built maze (validated, no cell visited yet)
    that has fewer cells than the interpreter allows nested calls, if some
    exit is reachable from the start through non-wall cells, [find_way_out]
    returns a list of pairwise distinct positions that starts at the start,
    ends at an exit position, and in which consecutive positions are
    orthogonally adjacent, in bounds and not walls; if no exit is reachable
    it returns [None]. *)
Theorem find_way_out_correct (recursion_depth : nat) (self : Maze) :
  fresh_maze self = true ->
  Z.to_nat (rows self) * Z.to_nat (cols self) < recursion_depth ->
  ((exists e, reachable self e /\ is_exit self e = true) ->
   exists path self',
     find_way_out_within recursion_depth self = Ok (Some path, self') /\
     way_out self path) /\
  (~ (exists e, reachable self e /\ is_exit self e = true) ->
   exists self', find_way_out_within recursion_depth self = Ok (None, self')).
Proof.
  intros Fresh Hd.
  destruct (find_way_out_spec self Fresh) as ([path|] & self' & E & _ & Post);
    apply (find_way_out_within_enough _ Hd) in E.
  - split.
    + intros _. exists path, self'. auto.
    + intros No. exfalso. apply No. now apply (way_out_reaches_exit Post).
  - split.
    + intros (e & Re & Xe). rewrite (Post e Re) in Xe. discriminate.
    + intros _. exists self'. exact E.
Qed.

Lemma find_way_out_correct_witness :
  fresh_maze sample_maze = true /\
  Z.to_nat (rows sample_maze) * Z.to_nat (cols sample_maze) < 900 /\
  ((exists e, reachable sample_maze e /\ is_exit sample_maze e = true) ->
   exists path self',
     find_way_out_within 900 sample_maze = Ok (Some path, self') /\
     way_out sample_maze path) /\
  (~ (exists e, reachable sample_maze e /\ is_exit sample_maze e = true) ->
   exists self', find_way_out_within 900 sample_maze = Ok (None, self')).
Proof.
  assert (Hd : Z.to_nat (rows sample_maze) * Z.to_nat (cols sample_maze) < 900)
    by (simpl; lia).
  split; [reflexivity|]. split; [exact Hd|].
  exact (@find_way_out_correct 900 sample_maze eq_refl Hd).
Defined.

(** A corridor of one row and 1001 cells, the start at one end and the exit
    at the other. *)
Definition deep_corridor : Maze :=
  Eval vm_compute in
    match Maze_init (mkPosition 0 0) [mkPosition 0 1000] [] [] 1 1001 with
    | Ok m => m
    | Raise _ => mkMaze (mkPosition 0 0) [] 0 0 []
    end.

Lemma deep_corridor_built :
  Maze_init (mkPosition 0 0) [mkPosition 0 1000] [] [] 1 1001
  = Ok deep_corridor.
Proof. vm_compute. reflexivity. Qed.

Lemma deep_corridor_fresh : fresh_maze deep_corridor = true.
Proof. vm_compute. reflexivity. Qed.

Lemma deep_corridor_exit_reachable :
  exists e, reachable deep_corridor e /\ is_exit deep_corridor e = true.
Proof.
  destruct (find_way_out_spec deep_corridor deep_corridor_fresh)
    as ([path|] & self' & E & _ & Post).
  - exact (way_out_reaches_exit Post).
  - exfalso. vm_compute in E. discriminate E.
Qed.

Lemma sample_maze_after_exit_reachable :
  exists e, reachable sample_maze_after e /\ is_exit sample_maze_after e = true.
Proof.
  exists (mkPosition 2 2). split; [|reflexivity].
  apply (@linked_reachable sample_maze_after
           [mkPosition 1 0; mkPosition 2 0; mkPosition 2 1; mkPosition 2 2]
           (mkPosition 0 0)); [apply reach_start|].
  cbn [linked]. unfold adjacent, free, in_bounds. cbn.
  repeat split; auto; lia.
Qed.

Lemma deep_corridor_too_deep :
  find_way_out_within 1000 deep_corridor = Raise RecursionError.
Proof. vm_compute. reflexivity. Qed.

(** C4 as stated fails, in two ways.  On a maze that was searched before the
    [visited] flags are still set: the sample maze after its search has the
    exit reachable through non-wall cells, and [find_way_out] returns
    [None], whatever the depth allowed.  On a fresh corridor of 1001 cells the exit is reachable, the
    search needs 1001 nested calls, and with 1000 allowed it raises
    [RecursionError]; with fewer allowed, as under CPython's default limit,
    it does not return either. *)
Lemma find_way_out_fails_as_stated :
  ((exists e, reachable sample_maze_after e /\
              is_exit sample_maze_after e = true) /\
   forall recursion_depth, 0 < recursion_depth ->
     exists self' : Maze,
       find_way_out_within recursion_depth sample_maze_after
       = Ok (None, self')) /\
  (fresh_maze deep_corridor = true /\
   (exists e, reachable deep_corridor e /\ is_exit deep_corridor e = true) /\
   find_way_out_within 1000 deep_corridor = Raise RecursionError /\
   forall recursion_depth r,
     recursion_depth <= 1000 ->
     find_way_out_within recursion_depth deep_corridor <> Ok r).
Proof.
  split.
  - split; [exact sample_maze_after_exit_reachable|].
    intros d Hd.
    assert (E1 : exists m,
              depth_first_search 1 sample_maze_after []
                (start_position sample_maze_after) = Ok (false, m, []))
      by (eexists; vm_compute; reflexivity).
    destruct E1 as (m & E1). exists m. unfold find_way_out_within.
    now rewrite (@depth_first_search_more_depth 1 d _ _ _ _ Hd E1).
  - split; [exact deep_corridor_fresh|].
    split; [exact deep_corridor_exit_reachable|].
    split; [exact deep_corridor_too_deep|].
    intros d r Le.
    exact (@find_way_out_within_less d 1000 deep_corridor _ Le
             deep_corridor_too_deep r).
Qed.


